(** * parser-tml: the TM-program pipeline, embedded and verified

    The development follows the TypeScript sources file by file:
    - [Contexts]       the syntax tree of Context.ts
    - [TMTape]         the tape (class [TMTape])
    - [CodeExecutor]   the tree-walking interpreter (CodeExecutor.ts)
    - [TuringMachine]  the automaton model the converter emits
    - [CodeConverter]  the lowering compiler (class [CodeConverter])
    - [CodeValidator]  the validator of CodeValidator.ts, and
      [CodeValidatorElse] the later variant that requires an else case
    - [CodeParser]     the controlled token advance of CodeParser.ts

    JavaScript arrays used as stacks are kept top-first; a JavaScript
    [Map<string,string>] whose iteration order is observed is an
    association list in insertion order; the other maps are [gmap]s. *)

From Stdlib Require Import Ascii String.
From stdpp Require Import base option list strings gmap pretty.

Set Default Proof Using "Type".

(** ** Outcomes of fallible code

    [Throw msg] is a JavaScript exception carrying [msg] (a [CodeError], an
    [Error], or a [TypeError] raised by reading a property of [undefined]);
    [OutOfFuel] marks a recursion that was cut off by the fuel of the model
    and stands for no behaviour of the program. *)
Inductive result (A : Type) : Type :=
  | Ok (a : A)
  | Throw (msg : string)
  | OutOfFuel.
Arguments Ok {A} a.
Arguments Throw {A} msg.
Arguments OutOfFuel {A}.

Definition rbind {A B} (r : result A) (k : A → result B) : result B :=
  match r with
  | Ok a => k a
  | Throw msg => Throw msg
  | OutOfFuel => OutOfFuel
  end.

Notation "'let*' x := r 'in' k" := (rbind r (λ x, k))
  (at level 10, x name, r at level 100, k at level 200).
Notation "'let*' ' p := r 'in' k" := (rbind r (λ p, k))
  (at level 10, p strict pattern, r at level 100, k at level 200).

Definition TypeError : string := "TypeError".

Definition is_Ok {A} (r : result A) : Prop := ∃ a, r = Ok a.

(** ** JavaScript [Map<string, V>] in insertion order *)
Module JsMap.
Definition t (V : Type) : Type := list (string * V).

Definition empty {V} : t V := [].

Fixpoint get {V} (m : t V) (k : string) : option V :=
  match m with
  | [] => None
  | (k', v) :: m' => if String.eqb k' k then Some v else get m' k
  end.

(** [Map.prototype.set]: an existing key keeps its position. *)
Fixpoint set {V} (m : t V) (k : string) (v : V) : t V :=
  match m with
  | [] => [(k, v)]
  | (k', v') :: m' =>
      if String.eqb k' k then (k', v) :: m' else (k', v') :: set m' k v
  end.

Definition keys {V} (m : t V) : list string := m.*1.
Definition values {V} (m : t V) : list V := m.*2.
End JsMap.

(** ** Context.ts: the syntax tree

    Source spans are dropped: they only decorate diagnostics.  The blank
    symbol is the empty string, as in the parser. *)
Module Contexts.

Inductive Direction := LEFT | RIGHT | START | END.

Inductive TerminationState := ACCEPT | REJECT | HALT.

Inductive FlowChangeContext :=
  | GoToContext (identifier : string) (args : list string)
  | TerminationContext (state : TerminationState).

Record BasicBlockContext := {
  changeToCommand : option string;
  moveCommand : option Direction;
  flowCommand : option FlowChangeContext
}.

Record CoreBasicBlockContext := {
  coreChangeToCommand : option string;
  coreMoveCommand : option Direction
}.

Inductive NormalBlockContext :=
  | BasicBlock (block : BasicBlockContext)
  | SwitchBlock (cases : list CaseContext)
with CaseContext :=
  | IfCase (values : list string) (blocks : list NormalBlockContext)
  | WhileCase (values : list string) (block : CoreBasicBlockContext)
  | ElseCase (blocks : list NormalBlockContext).

Record ModuleContext := {
  identifier : string;
  params : list string;
  blocks : list NormalBlockContext
}.

Record ProgramContext := {
  alphabet : list string;
  modules : list ModuleContext
}.

(** What a step executes: a basic block, or the core block of a while. *)
Inductive ExecutionBlock :=
  | ExecBasic (block : BasicBlockContext)
  | ExecCore (block : CoreBasicBlockContext).

Definition execChangeTo (b : ExecutionBlock) : option string :=
  match b with
  | ExecBasic b => changeToCommand b
  | ExecCore b => coreChangeToCommand b
  end.

Definition execMove (b : ExecutionBlock) : option Direction :=
  match b with
  | ExecBasic b => moveCommand b
  | ExecCore b => coreMoveCommand b
  end.

(** Modelled from the spec: the accessor [CaseContext.firstBlock] of
    Context.ts, which is not among the sources.  An if or else case answers
    with the first block of its body, a while case with its core block.  A
    body that is empty or starts with a switch block has no first basic
    block ([None]); the validator rejects such cases. *)
Definition firstBlock (c : CaseContext) : option ExecutionBlock :=
  match c with
  | IfCase _ (BasicBlock b :: _) => Some (ExecBasic b)
  | ElseCase (BasicBlock b :: _) => Some (ExecBasic b)
  | WhileCase _ b => Some (ExecCore b)
  | _ => None
  end.

(** Modelled from the spec: [ChangeToContext.getNextValue] of Context.ts
    (not among the sources): a bound parameter name is replaced by the
    argument bound to it, any other value stands for itself. *)
Definition getNextValue (value : string) (argumentMap : JsMap.t string)
    : string :=
  default value (JsMap.get argumentMap value).

(** Modelled from the spec: [CaseContext.applies] of Context.ts (not among
    the sources): an if or while case applies when one of its trigger values
    matches the tape symbol under the argument bindings, that is, when the
    symbol is a trigger value or the parameter the bindings give for the
    symbol is one; an else case always applies.  The bindings are the
    executor's, which [_generateAndPushArgumentMap] keys by argument value;
    CodeExecutor.spec.ts expects the palindrome program to accept the tape
    aba, which takes this lookup by tape symbol. *)
Definition applies (c : CaseContext) (letter : string)
    (argumentMap : JsMap.t string) : bool :=
  match c with
  | IfCase values _ | WhileCase values _ =>
      existsb (String.eqb letter) values
      || match JsMap.get argumentMap letter with
         | Some param => existsb (String.eqb param) values
         | None => false
         end
  | ElseCase _ => true
  end.

Definition isElseCase (c : CaseContext) : bool :=
  match c with
  | ElseCase _ => true
  | _ => false
  end.

(** The trigger values of a case, and of all cases of a switch block in
    order. *)
Definition caseValues (c : CaseContext) : list string :=
  match c with
  | IfCase values _ | WhileCase values _ => values
  | ElseCase _ => []
  end.

Definition switchValues (cases : list CaseContext) : list string :=
  flat_map caseValues cases.

Definition directionName (d : Direction) : string :=
  match d with
  | LEFT => "left" | RIGHT => "right" | START => "start" | END => "end"
  end.

(** [TerminationState] is rendered by [toString()] in [visitTermination];
    the reserved labels are the keywords of the language. *)
Definition terminationName (s : TerminationState) : string :=
  match s with
  | ACCEPT => "accept" | REJECT => "reject" | HALT => "halt"
  end.

End Contexts.
Export Contexts.

(** ** TMTape.ts

    A character of a string is a UTF-16 code unit; the strings of this
    development hold the code units below 256.  [currentIndex] is a
    JavaScript number that holds an integer. *)
Module TMTape.
Local Open Scope Z_scope.

Record t := {
  _valueMap : gmap Z string;
  currentIndex : Z
}.

(** The code units below 256 that [String.prototype.trim] removes: tab, line
    feed, vertical tab, form feed, carriage return (9 to 13), space (32) and
    the no-break space (160). *)
Definition isWhiteSpace (c : ascii) : bool :=
  let n := nat_of_ascii c in
  ((9 <=? n)%nat && (n <=? 13)%nat) || (n =? 32)%nat || (n =? 160)%nat.

(** [letter.trim().length === 0] *)
Definition trimsToEmpty (letter : string) : bool :=
  forallb isWhiteSpace (list_ascii_of_string letter).

Definition _minIndex (tp : t) : Z :=
  match (map_to_list (_valueMap tp)).*1 with
  | [] => 0
  | i :: rest => foldr Z.min i rest
  end.

Definition _maxIndex (tp : t) : Z :=
  match (map_to_list (_valueMap tp)).*1 with
  | [] => 0
  | i :: rest => foldr Z.max i rest
  end.

Fixpoint fill (i : Z) (value : list ascii) (m : gmap Z string)
    : gmap Z string :=
  match value with
  | [] => m
  | c :: rest =>
      fill (i + 1) rest
        (if isWhiteSpace c then m else <[i := String c EmptyString]> m)
  end.

Definition new (value : string) : t :=
  {| _valueMap := fill 0 (list_ascii_of_string value) ∅;
     currentIndex := 0 |}.

Definition change (letter : string) (tp : t) : t :=
  if trimsToEmpty letter
  then {| _valueMap := delete (currentIndex tp) (_valueMap tp);
          currentIndex := currentIndex tp |}
  else {| _valueMap := <[currentIndex tp := letter]> (_valueMap tp);
          currentIndex := currentIndex tp |}.

(** [currentIndex ++] and [currentIndex --] on a number that holds an
    integer: exact between -2^53 and 2^53, where [2^53 + 1] and [-2^53 - 1]
    round back to [2^53] and [-2^53], so that the index stays.  A tape that
    starts at index 0 never leaves that range; outside of it the model
    leaves the index as it is. *)
Definition increment (i : Z) : Z :=
  if bool_decide (- 2 ^ 53 ≤ i < 2 ^ 53) then i + 1 else i.

Definition decrement (i : Z) : Z :=
  if bool_decide (- 2 ^ 53 < i ≤ 2 ^ 53) then i - 1 else i.

Definition move (direction : Direction) (tp : t) : t :=
  match direction with
  | LEFT =>
      {| _valueMap := _valueMap tp;
         currentIndex := decrement (currentIndex tp) |}
  | START => {| _valueMap := _valueMap tp; currentIndex := _minIndex tp |}
  | END => {| _valueMap := _valueMap tp; currentIndex := _maxIndex tp |}
  | RIGHT =>
      {| _valueMap := _valueMap tp;
         currentIndex := increment (currentIndex tp) |}
  end.

(** [this._valueMap.get(this.currentIndex+i) || ""] *)
Definition get (i : Z) (tp : t) : string :=
  default "" (_valueMap tp !! (currentIndex tp + i)).

End TMTape.

(** ** CodeExecutor.ts

    The four parallel arrays of the class are four lists with the top of the
    stack first.  [_currentBlocksStack], [_currentBlockIndexStack] and
    [_topLevelModuleStack] are pushed and popped together by the class; where
    a function would read past the end of one of them the model throws
    [TypeError]. *)
Module CodeExecutor.

Record t := {
  tape : TMTape.t;
  _terminationStatus : option TerminationState;
  _program : ProgramContext;
  _currentBlockIndexStack : list nat;
  _currentBlocksStack : list (list NormalBlockContext);
  _argumentMapStack : list (JsMap.t string);
  _topLevelModuleStack : list bool
}.

Definition terminationStatus (e : t) : option TerminationState :=
  _terminationStatus e.

(** [this._argumentMapStack[this._argumentMapStack.length-1]] *)
Definition _currentArgumentMap (e : t) : option (JsMap.t string) :=
  head (_argumentMapStack e).

Definition _pushBlocks (blocks : list NormalBlockContext)
    (pushingModule : bool) (e : t) : t :=
  {| tape := tape e;
     _terminationStatus := _terminationStatus e;
     _program := _program e;
     _currentBlockIndexStack := 0 :: _currentBlockIndexStack e;
     _currentBlocksStack := blocks :: _currentBlocksStack e;
     _argumentMapStack := _argumentMapStack e;
     _topLevelModuleStack := pushingModule :: _topLevelModuleStack e |}.

(** The loop of [_incrementIndexAndPop], over the four stacks.  One round
    is [_incrementIndex] (bump the top index, test it against the length of
    the top block list) followed, when the test fails, by the pops. *)
Fixpoint _incrementIndexAndPop_loop
    (blocksStack : list (list NormalBlockContext)) (indexStack : list nat)
    (argumentMapStack : list (JsMap.t string)) (moduleStack : list bool)
    : result (list (list NormalBlockContext) * list nat *
              list (JsMap.t string) * list bool) :=
  match blocksStack with
  | [] => Ok ([], indexStack, argumentMapStack, moduleStack)
  | currentBlocks :: blocksStack' =>
      match indexStack, moduleStack with
      | currentBlockIndex :: indexStack', topLevelIsModule :: moduleStack' =>
          if bool_decide (currentBlockIndex + 1 < length currentBlocks)
          then Ok (currentBlocks :: blocksStack',
                   (currentBlockIndex + 1) :: indexStack',
                   argumentMapStack, moduleStack)
          else _incrementIndexAndPop_loop blocksStack' indexStack'
                 (if topLevelIsModule then tail argumentMapStack
                  else argumentMapStack)
                 moduleStack'
      | _, _ => Throw TypeError
      end
  end.

Definition _incrementIndexAndPop (e : t) : result t :=
  let* '(blocksStack, indexStack, argumentMapStack, moduleStack) :=
    _incrementIndexAndPop_loop (_currentBlocksStack e)
      (_currentBlockIndexStack e) (_argumentMapStack e)
      (_topLevelModuleStack e) in
  Ok {| tape := tape e;
        _terminationStatus := _terminationStatus e;
        _program := _program e;
        _currentBlockIndexStack := indexStack;
        _currentBlocksStack := blocksStack;
        _argumentMapStack := argumentMapStack;
        _topLevelModuleStack := moduleStack |}.

(** [value[i].trim().length !== 0 && !alphabet.values.includes(value[i])] *)
Definition _validateTapeValue (value : string) (program : ProgramContext)
    : result unit :=
  if forallb
       (λ c, TMTape.isWhiteSpace c
             || bool_decide (String c EmptyString ∈ alphabet program))
       (list_ascii_of_string value)
  then Ok ()
  else Throw "The tape is not valid for the given TM Program.".

(** The loop [argumentMap.set(args[i], params[i])] for [i < args.length].
    The validator makes [args] and [params] equally long; the model stops
    at the shorter of the two. *)
Fixpoint _generateArgumentMap (params args : list string)
    (argumentMap : JsMap.t string) : JsMap.t string :=
  match args, params with
  | arg :: args', param :: params' =>
      _generateArgumentMap params' args' (JsMap.set argumentMap arg param)
  | _, _ => argumentMap
  end.

Definition _generateAndPushArgumentMap (params args : list string) (e : t)
    : t :=
  {| tape := tape e;
     _terminationStatus := _terminationStatus e;
     _program := _program e;
     _currentBlockIndexStack := _currentBlockIndexStack e;
     _currentBlocksStack := _currentBlocksStack e;
     _argumentMapStack :=
       _generateArgumentMap params args JsMap.empty :: _argumentMapStack e;
     _topLevelModuleStack := _topLevelModuleStack e |}.

(** The constructor; [program.modules[0]] of an empty module list is
    [undefined], whose [blocks] cannot be read. *)
Definition new (value : string) (program : ProgramContext) : result t :=
  let* _ := _validateTapeValue value program in
  match modules program with
  | [] => Throw TypeError
  | main :: _ =>
      Ok {| tape := TMTape.new value;
            _terminationStatus := None;
            _program := program;
            _currentBlockIndexStack := [0];
            _currentBlocksStack := [blocks main];
            _argumentMapStack := [JsMap.empty];
            _topLevelModuleStack := [true] |}
  end.

(** The getter [currentBlock]: [Ok None] is [undefined]. *)
Definition currentBlock (e : t) : result (option NormalBlockContext) :=
  match _terminationStatus e with
  | None =>
      match _currentBlocksStack e, _currentBlockIndexStack e with
      | currentBlocks :: _, currentBlockIndex :: _ =>
          Ok (currentBlocks !! currentBlockIndex)
      | _, _ => Throw TypeError
      end
  | Some _ => Ok None
  end.

Definition setTape (tp : TMTape.t) (e : t) : t :=
  {| tape := tp;
     _terminationStatus := _terminationStatus e;
     _program := _program e;
     _currentBlockIndexStack := _currentBlockIndexStack e;
     _currentBlocksStack := _currentBlocksStack e;
     _argumentMapStack := _argumentMapStack e;
     _topLevelModuleStack := _topLevelModuleStack e |}.

Definition setTerminationStatus (s : TerminationState) (e : t) : t :=
  {| tape := tape e;
     _terminationStatus := Some s;
     _program := _program e;
     _currentBlockIndexStack := _currentBlockIndexStack e;
     _currentBlocksStack := _currentBlocksStack e;
     _argumentMapStack := _argumentMapStack e;
     _topLevelModuleStack := _topLevelModuleStack e |}.

(** [_execute]: the tape is changed to the block's changeto value, or to
    the letter under the head, then moved (left when no move is given). *)
Definition _execute (block : ExecutionBlock) (letter : string) (e : t) : t :=
  setTape
    (TMTape.move (default LEFT (execMove block))
       (TMTape.change (default letter (execChangeTo block)) (tape e)))
    e.

Definition isIfOrElse (c : CaseContext) : bool :=
  match c with
  | IfCase _ _ | ElseCase _ => true
  | WhileCase _ _ => false
  end.

Definition caseBlocks (c : CaseContext) : list NormalBlockContext :=
  match c with
  | IfCase _ blocks | ElseCase blocks => blocks
  | WhileCase _ _ => []
  end.

Definition _findExecutionBlock (tapehead : string) (e : t)
    : result (ExecutionBlock * t) :=
  let* currentBlock := currentBlock e in
  match currentBlock with
  | Some (BasicBlock block) => Ok (ExecBasic block, e)
  | Some (SwitchBlock cases) =>
      let* argumentMap :=
        match _currentArgumentMap e with
        | Some m => Ok m
        | None => Throw TypeError
        end in
      match find (λ _case, applies _case tapehead argumentMap) cases with
      | None => Throw TypeError
      | Some caseBlock =>
          match firstBlock caseBlock with
          | None => Throw TypeError
          | Some executionBlock =>
              Ok (executionBlock,
                  if isIfOrElse caseBlock
                  then _pushBlocks (caseBlocks caseBlock) false e
                  else e)
          end
      end
  | None => Throw TypeError
  end.

Definition _findNextBlock (executionBlock : BasicBlockContext) (e : t)
    : result t :=
  match flowCommand executionBlock with
  | Some (GoToContext identifier args) =>
      match find (λ module, String.eqb (Contexts.identifier module) identifier)
              (modules (_program e)) with
      | None => Throw TypeError
      | Some nextModule =>
          Ok (_generateAndPushArgumentMap (params nextModule) args
                (_pushBlocks (blocks nextModule) true e))
      end
  | Some (TerminationContext state) => Ok (setTerminationStatus state e)
  | None =>
      let* e' := _incrementIndexAndPop e in
      Ok (match _currentBlocksStack e' with
          | [] => setTerminationStatus REJECT e'
          | _ => e'
          end)
  end.

Definition execute (e : t) : result (bool * t) :=
  match terminationStatus e with
  | Some _ => Ok (false, e)
  | None =>
      let tapehead := TMTape.get 0 (tape e) in
      let* '(executionBlock, e1) := _findExecutionBlock tapehead e in
      let e2 := _execute executionBlock tapehead e1 in
      match executionBlock with
      | ExecBasic block =>
          let* e3 := _findNextBlock block e2 in Ok (true, e3)
      | ExecCore _ => Ok (true, e2)
      end
  end.

(** *** Runs of the interpreter *)

(** [n] calls of [execute] in a row, with the booleans they return. *)
Fixpoint executeTimes (n : nat) (e : t) : result (list bool * t) :=
  match n with
  | 0 => Ok ([], e)
  | S n' =>
      let* '(b, e1) := execute e in
      let* '(bs, e2) := executeTimes n' e1 in
      Ok (b :: bs, e2)
  end.

(** One successful call of [execute]. *)
Definition steps_to (e e' : t) : Prop := ∃ b, execute e = Ok (b, e').

(** The executors a caller can hold: the freshly constructed one and every
    one reached from it by calls of [execute]. *)
Inductive reachable (program : ProgramContext) (value : string) : t → Prop :=
  | reachable_new e :
      new value program = Ok e → reachable program value e
  | reachable_step e e' :
      reachable program value e → steps_to e e' →
      reachable program value e'.

Definition blocks_of_main (program : ProgramContext)
    : list NormalBlockContext :=
  match modules program with
  | main :: _ => blocks main
  | [] => []
  end.

(** Every module has a body, as the parser guarantees. *)
Definition modulesHaveBlocks (program : ProgramContext) : Prop :=
  Forall (λ module, blocks module ≠ []) (modules program).

(** While the run goes on there is a top frame whose index is in range. *)
Definition frameInRange (e : t) : Prop :=
  _terminationStatus e = None →
  ∃ currentBlocks blocksStack currentBlockIndex indexStack,
    _currentBlocksStack e = currentBlocks :: blocksStack ∧
    _currentBlockIndexStack e = currentBlockIndex :: indexStack ∧
    currentBlockIndex < length currentBlocks.

End CodeExecutor.

(** ** TuringMachine.ts

    Modelled from the spec: TuringMachine.ts is not among the sources.  The
    automaton is an initial state label and a mapping from label to state; a
    constant state has one transition for every input symbol, a variable
    state maps symbols to transitions; a transition that names no symbol to
    write leaves the symbol under the head, one that names no direction moves
    left (the converter's tests read completed transitions this way). *)
Module TuringMachine.

Record IncompleteTMChange := {
  nextState : string;
  letter : option string;
  direction : option Direction
}.

Record TMChange := {
  changeNextState : string;
  changeLetter : string;
  changeDirection : Direction
}.

Definition complete (change : IncompleteTMChange) (input : string)
    : TMChange :=
  {| changeNextState := nextState change;
     changeLetter := default input (letter change);
     changeDirection := default LEFT (direction change) |}.

Inductive TMState :=
  | ConstantTMState (change : IncompleteTMChange)
  | VariableTMState (transitions : gmap string IncompleteTMChange).

Definition addTransition (input : string) (change : IncompleteTMChange)
    (s : TMState) : TMState :=
  match s with
  | VariableTMState transitions =>
      VariableTMState (<[input := change]> transitions)
  | ConstantTMState c => ConstantTMState c
  end.

Definition transition (s : TMState) (input : string) : option TMChange :=
  match s with
  | ConstantTMState change => Some (complete change input)
  | VariableTMState transitions =>
      (λ change, complete change input) <$> transitions !! input
  end.

Record t := {
  initialState : string;
  states : gmap string TMState
}.

Definition empty : t := {| initialState := ""; states := ∅ |}.

Definition addState (label : string) (s : TMState) (tm : t) : t :=
  {| initialState := initialState tm;
     states := <[label := s]> (states tm) |}.

Definition getState (tm : t) (label : string) : option TMState :=
  states tm !! label.

(** *** Driving the automaton against a tape

    Modelled from the spec: the driver is not among the sources.  A run is
    in a state label; the reserved labels end it with their status. *)
Definition statusOfLabel (label : string) : option TerminationState :=
  if String.eqb label "accept" then Some ACCEPT
  else if String.eqb label "reject" then Some REJECT
  else if String.eqb label "halt" then Some HALT
  else None.

Record run := {
  runState : string;
  runTape : TMTape.t
}.

Definition start (tm : t) (value : string) : run :=
  {| runState := initialState tm; runTape := TMTape.new value |}.

(** One transition; [Ok None] when the run has already ended. *)
Definition step (tm : t) (r : run) : result (option (TMChange * run)) :=
  match statusOfLabel (runState r) with
  | Some _ => Ok None
  | None =>
      match getState tm (runState r) with
      | None => Throw TypeError
      | Some s =>
          match transition s (TMTape.get 0 (runTape r)) with
          | None => Throw TypeError
          | Some change =>
              Ok (Some (change,
                        {| runState := changeNextState change;
                           runTape :=
                             TMTape.move (changeDirection change)
                               (TMTape.change (changeLetter change)
                                  (runTape r)) |}))
          end
      end
  end.

(** [n] transitions in a row, with the completed transitions taken; a run
    that has ended takes no more. *)
Fixpoint runSteps (n : nat) (tm : t) (r : run)
    : result (list TMChange * run) :=
  match n with
  | 0 => Ok ([], r)
  | S n' =>
      let* taken := step tm r in
      match taken with
      | None => Ok ([], r)
      | Some (change, r1) =>
          let* '(changes, r2) := runSteps n' tm r1 in
          Ok (change :: changes, r2)
      end
  end.

End TuringMachine.
Export TuringMachine(IncompleteTMChange, TMChange, TMState, ConstantTMState,
                     VariableTMState).

(** ** CodeConverter.ts

    The converter's mutable fields form the record [t]; [_program] and
    [_alphabet] never change after construction and are read from the
    program.  Stacks are top-first, and [at_index] reads one by its array
    index.  The converter reads the top of a stack only after a push; a read
    of an empty stack is modelled by [Throw TypeError]. *)
Module CodeConverter.
Import TuringMachine.

Record t := {
  _turingMachine : TuringMachine.t;
  _currentBlocksStack : list (list NormalBlockContext);
  _currentBlockIndexStack : list nat;
  _argumentMapStack : list (JsMap.t string);
  _identifierStack : list string;
  _idToModule : gmap string ModuleContext;
  _constructedModules : JsMap.t (list (list string));
  _identifierIndexMap : gmap string nat
}.

Definition at_index {A} (stack : list A) (i : nat) : option A :=
  rev stack !! i.

(** [new Set(values)]: first occurrences, in order. *)
Definition setAdd (s : list string) (x : string) : list string :=
  if bool_decide (x ∈ s) then s else s ++ [x].

Definition setOf (values : list string) : list string :=
  foldl setAdd [] values.

Definition setDelete (s : list string) (x : string) : list string :=
  filter (λ y, y ≠ x) s.

Definition join (parts : list string) : string := String.concat "," parts.

Definition new : t :=
  {| _turingMachine := TuringMachine.empty;
     _currentBlocksStack := [];
     _currentBlockIndexStack := [];
     _argumentMapStack := [];
     _identifierStack := [];
     _idToModule := ∅;
     _constructedModules := JsMap.empty;
     _identifierIndexMap := ∅ |}.

Definition withTuringMachine (f : TuringMachine.t → TuringMachine.t)
    (st : t) : t :=
  {| _turingMachine := f (_turingMachine st);
     _currentBlocksStack := _currentBlocksStack st;
     _currentBlockIndexStack := _currentBlockIndexStack st;
     _argumentMapStack := _argumentMapStack st;
     _identifierStack := _identifierStack st;
     _idToModule := _idToModule st;
     _constructedModules := _constructedModules st;
     _identifierIndexMap := _identifierIndexMap st |}.

Definition withIndexMap (f : gmap string nat → gmap string nat)
    (st : t) : t :=
  {| _turingMachine := _turingMachine st;
     _currentBlocksStack := _currentBlocksStack st;
     _currentBlockIndexStack := _currentBlockIndexStack st;
     _argumentMapStack := _argumentMapStack st;
     _identifierStack := _identifierStack st;
     _idToModule := _idToModule st;
     _constructedModules := _constructedModules st;
     _identifierIndexMap := f (_identifierIndexMap st) |}.

Definition withArgumentMapStack
    (f : list (JsMap.t string) → list (JsMap.t string)) (st : t) : t :=
  {| _turingMachine := _turingMachine st;
     _currentBlocksStack := _currentBlocksStack st;
     _currentBlockIndexStack := _currentBlockIndexStack st;
     _argumentMapStack := f (_argumentMapStack st);
     _identifierStack := _identifierStack st;
     _idToModule := _idToModule st;
     _constructedModules := _constructedModules st;
     _identifierIndexMap := _identifierIndexMap st |}.

Definition withBlockStacks
    (f : list (list NormalBlockContext) → list (list NormalBlockContext))
    (g : list nat → list nat) (h : list string → list string) (st : t) : t :=
  {| _turingMachine := _turingMachine st;
     _currentBlocksStack := f (_currentBlocksStack st);
     _currentBlockIndexStack := g (_currentBlockIndexStack st);
     _argumentMapStack := _argumentMapStack st;
     _identifierStack := h (_identifierStack st);
     _idToModule := _idToModule st;
     _constructedModules := _constructedModules st;
     _identifierIndexMap := _identifierIndexMap st |}.

Definition withIdToModule (m : gmap string ModuleContext) (st : t) : t :=
  {| _turingMachine := _turingMachine st;
     _currentBlocksStack := _currentBlocksStack st;
     _currentBlockIndexStack := _currentBlockIndexStack st;
     _argumentMapStack := _argumentMapStack st;
     _identifierStack := _identifierStack st;
     _idToModule := m;
     _constructedModules := _constructedModules st;
     _identifierIndexMap := _identifierIndexMap st |}.

Definition withConstructedModules
    (f : JsMap.t (list (list string)) → JsMap.t (list (list string)))
    (st : t) : t :=
  {| _turingMachine := _turingMachine st;
     _currentBlocksStack := _currentBlocksStack st;
     _currentBlockIndexStack := _currentBlockIndexStack st;
     _argumentMapStack := _argumentMapStack st;
     _identifierStack := _identifierStack st;
     _idToModule := _idToModule st;
     _constructedModules := f (_constructedModules st);
     _identifierIndexMap := _identifierIndexMap st |}.

Definition _currentArgumentMap (st : t) : result (JsMap.t string) :=
  match _argumentMapStack st with
  | argumentMap :: _ => Ok argumentMap
  | [] => Throw TypeError
  end.

Definition _currentArgs (st : t) : result (list string) :=
  let* argumentMap := _currentArgumentMap st in
  Ok (JsMap.values argumentMap).

Definition _currentIdentifier (st : t) : result string :=
  match _identifierStack st with
  | identifier :: _ => Ok identifier
  | [] => Throw TypeError
  end.

Definition _pushBlocks (blocks : list NormalBlockContext)
    (identifier : string) (isModule : bool) (st : t) : result t :=
  let st' := withBlockStacks (cons blocks) (cons 0) (cons identifier) st in
  if isModule then Ok st'
  else
    let* argumentMap := _currentArgumentMap st in
    Ok (withArgumentMapStack (cons argumentMap) st').

Definition moduleIdentifierOf (identifier : string) (args : list string)
    : string :=
  match args with
  | [] => identifier
  | _ => identifier +:+ "-" +:+ join args
  end.

(** [i = map.get(id) ?? (startWith ?? 0) - 1], then [i+1] is stored and
    printed: the stored number is [startWith ?? 0] for a new key. *)
Definition _generateNextLabel (identifier : string) (args : list string)
    (startWith : option nat) (st : t) : string * t :=
  let moduleIdentifier := moduleIdentifierOf identifier args in
  let next :=
    match _identifierIndexMap st !! moduleIdentifier with
    | Some i => i + 1
    | None => default 0 startWith
    end in
  (moduleIdentifier +:+ "-" +:+ pretty next,
   withIndexMap (insert moduleIdentifier next) st).

Definition _incrementIndex (st : t) : result t :=
  match _currentBlockIndexStack st with
  | [] => Throw TypeError
  | i :: rest =>
      let st' := withBlockStacks id (λ _, (i + 1) :: rest) id st in
      let* identifier := _currentIdentifier st' in
      let* args := _currentArgs st' in
      Ok (_generateNextLabel identifier args None st').2
  end.

Definition _getCurrentLabel (addArgs : bool) (st : t) : result string :=
  let* args := _currentArgs st in
  let* identifier := _currentIdentifier st in
  let moduleLabel := moduleIdentifierOf identifier args in
  let showLabel :=
    match args with
    | [] => identifier
    | _ => identifier +:+ (if addArgs then "-" +:+ join args else "")
    end in
  match _identifierIndexMap st !! moduleLabel with
  | None => Throw TypeError
  | Some i => Ok (showLabel +:+ "-" +:+ pretty i)
  end.

(** [identifierStack[n] + keys.join(",")], then the stored index plus one;
    an absent index gives [undefined + 1], printed ["NaN"]. *)
Definition _findNextLabel (n : nat) (st : t) : result string :=
  match at_index (_argumentMapStack st) n with
  | None => Throw TypeError
  | Some argumentMap =>
      let moduleLabel :=
        default "undefined" (at_index (_identifierStack st) n)
        +:+ join (JsMap.keys argumentMap) in
      Ok (moduleLabel +:+ "-" +:+
          match _identifierIndexMap st !! moduleLabel with
          | Some i => pretty (i + 1)
          | None => "NaN"
          end)
  end.

(** The loop [for (i = length-1; i >= 0; i--)], entered with [n = i+1]. *)
Fixpoint _incrementIndexAndFindNextState_from (n : nat) (st : t)
    : result (option string) :=
  match n with
  | 0 => Ok None
  | S i =>
      match at_index (_currentBlocksStack st) i,
            at_index (_currentBlockIndexStack st) i with
      | Some blockStack, Some j =>
          if bool_decide (j + 1 < length blockStack)
          then let* label := _findNextLabel i st in Ok (Some label)
          else _incrementIndexAndFindNextState_from i st
      | _, _ => _incrementIndexAndFindNextState_from i st
      end
  end.

Definition _incrementIndexAndFindNextState (st : t)
    : result (option string) :=
  _incrementIndexAndFindNextState_from (length (_currentBlocksStack st)) st.

Definition _popBlocks (st : t) : t :=
  withArgumentMapStack tail (withBlockStacks tail tail tail st).

(** The loop [argumentMap.set(params[i], args[i])] for [i < args.length];
    the model stops at the shorter list (see [CodeExecutor]). *)
Fixpoint _generateArgumentMap (params args : list string)
    (argumentMap : JsMap.t string) : JsMap.t string :=
  match args, params with
  | arg :: args', param :: params' =>
      _generateArgumentMap params' args' (JsMap.set argumentMap param arg)
  | _, _ => argumentMap
  end.

Definition _generateAndPushArgumentMap (params args : list string) (st : t)
    : t :=
  withArgumentMapStack
    (cons (_generateArgumentMap params args JsMap.empty)) st.

(** [constructedArgs[j] !== args[j]] for no [j < constructedArgs.length] *)
Fixpoint argsMatch (constructedArgs args : list string) : bool :=
  match constructedArgs, args with
  | [], _ => true
  | c :: constructedArgs', a :: args' =>
      String.eqb c a && argsMatch constructedArgs' args'
  | _ :: _, [] => false
  end.

Definition _isModuleConstructed (identifier : string) (args : list string)
    (st : t) : bool :=
  existsb (λ constructedArgs, argsMatch constructedArgs args)
    (default [] (JsMap.get (_constructedModules st) identifier)).

Definition addState (label : string) (s : TMState) (st : t) : t :=
  withTuringMachine (TuringMachine.addState label s) st.

(** [state.addTransition(letter, change)] on the state object that was
    added under [label]. *)
Definition addTransitionAt (label input : string)
    (change : IncompleteTMChange) (st : t) : t :=
  withTuringMachine
    (λ tm, {| initialState := initialState tm;
              states := alter (addTransition input change) label
                          (states tm) |})
    st.

Definition gotoLabel (identifier : string) (args : list string) : string :=
  match args with
  | [] => identifier +:+ "-0"
  | _ => identifier +:+ "-" +:+ join args +:+ "-0"
  end.

(** [values.map((v) => v || "blank").join(",")] *)
Definition ifLabel (values : list string) : string :=
  join (map (λ v, if String.eqb v "" then "blank" else v) values).

(** [this._currentArgumentMap.get(value) || value] *)
Definition caseLetter (argumentMap : JsMap.t string) (value : string)
    : string :=
  match JsMap.get argumentMap value with
  | Some v => if String.eqb v "" then value else v
  | None => value
  end.

Section Visit.
Variable program : ProgramContext.

Definition _alphabet : list string := setOf (alphabet program).

(** *** The visitor, below a module: [visitModule] is the recursion
    through [visitGoTo]. *)
Section Blocks.
Variable visitModule : ModuleContext → t → result t.

Definition visitGoTo (identifier : string) (args : list string) (st : t)
    : result (string * t) :=
  match _idToModule st !! identifier with
  | None => Throw TypeError
  | Some module =>
      let* st' :=
        if _isModuleConstructed (Contexts.identifier module) args st
        then Ok st
        else visitModule module
               (_generateAndPushArgumentMap (params module) args st) in
      Ok (gotoLabel identifier args, st')
  end.

Definition visitTermination (state : TerminationState) : string :=
  terminationName state.

Definition visitFlow (command : FlowChangeContext) (st : t)
    : result (string * t) :=
  match command with
  | GoToContext identifier args => visitGoTo identifier args st
  | TerminationContext state => Ok (visitTermination state, st)
  end.

(** [this._incrementIndexAndFindNextState() ?? "reject"] *)
Definition fallThrough (st : t) : result string :=
  let* next := _incrementIndexAndFindNextState st in
  Ok (default "reject" next).

(** [changeToCommand?.getNextValue(this._currentArgumentMap)] *)
Definition nextLetter (changeTo : option string) (st : t)
    : result (option string) :=
  match changeTo with
  | None => Ok None
  | Some value =>
      let* argumentMap := _currentArgumentMap st in
      Ok (Some (getNextValue value argumentMap))
  end.

Definition _getTMChangeForBasicBlock (block : BasicBlockContext)
    (st : t) : result (IncompleteTMChange * t) :=
  let direction := moveCommand block in
  let* '(nextState, st1) :=
    match flowCommand block with
    | Some command => visitFlow command st
    | None => let* label := fallThrough st in Ok (label, st)
    end in
  let* letter := nextLetter (changeToCommand block) st1 in
  Ok ({| nextState := nextState; letter := letter;
         direction := direction |}, st1).

Definition visitBasicBlock (block : BasicBlockContext) (st : t)
    : result t :=
  let* '(change, st1) := _getTMChangeForBasicBlock block st in
  let* label := _getCurrentLabel true st1 in
  Ok (addState label (ConstantTMState change) st1).

(** The loop [this.visit(blocks[i]); this._incrementIndex()]. *)
Definition visitBlocksWith (visit : NormalBlockContext → t → result t)
    : list NormalBlockContext → t → result t :=
  fix loop blocks st :=
    match blocks with
    | [] => Ok st
    | block :: rest =>
        let* st1 := visit block st in
        let* st2 := _incrementIndex st1 in
        loop rest st2
    end.

Definition _visitIfOrElseWith (visit : NormalBlockContext → t → result t)
    (blocks : list NormalBlockContext) (extraLabel : string) (st : t)
    : result (option string * t) :=
  match blocks with
  | _ :: (_ :: _) as rest =>
      let* currentLabel := _getCurrentLabel false st in
      let newIdentifier := currentLabel +:+ "-" +:+ extraLabel in
      let* args := _currentArgs st in
      let '(newLabel, st1) :=
        _generateNextLabel newIdentifier args (Some 1) st in
      let* st2 := _pushBlocks blocks newIdentifier false st1 in
      let* st3 := visitBlocksWith visit rest st2 in
      Ok (Some newLabel, _popBlocks st3)
  | _ => Ok (None, st)
  end.

(** [this.visit(switchCase)]: [visitIf], [visitElse], [visitWhile]. *)
Definition visitCaseWith (visit : NormalBlockContext → t → result t)
    (switchCase : CaseContext) (st : t) : result (option string * t) :=
  match switchCase with
  | IfCase values blocks =>
      _visitIfOrElseWith visit blocks (ifLabel values) st
  | ElseCase blocks => _visitIfOrElseWith visit blocks "else" st
  | WhileCase _ _ =>
      let* label := _getCurrentLabel true st in Ok (Some label, st)
  end.

Definition _getTMChangeForSwitchCaseWith
    (visit : NormalBlockContext → t → result t)
    (switchCase : CaseContext) (st : t)
    : result (IncompleteTMChange * t) :=
  match firstBlock switchCase with
  | None => Throw TypeError
  | Some block =>
      let direction := execMove block in
      let* '(nextState, st1) :=
        match block with
        | ExecBasic {| flowCommand := Some command |} =>
            visitFlow command st
        | _ =>
            let* '(next, st1) := visitCaseWith visit switchCase st in
            match next with
            | Some label => Ok (label, st1)
            | None => let* label := fallThrough st1 in Ok (label, st1)
            end
        end in
      let* letter := nextLetter (execChangeTo block) st1 in
      Ok ({| nextState := nextState; letter := letter;
             direction := direction |}, st1)
  end.

(** The body of the [for (const switchCase of block.cases)] loop:
    the transition of the case goes to the remaining letters (else) or
    to the case's letters, which leave the remaining set. *)
Definition addCaseTransitions (label : string)
    (switchCase : CaseContext) (change : IncompleteTMChange)
    (remainingLetters : list string) (st : t)
    : result (list string * t) :=
  match switchCase with
  | ElseCase _ =>
      Ok (remainingLetters,
          foldl (λ st letter, addTransitionAt label letter change st)
            st remainingLetters)
  | IfCase values _ | WhileCase values _ =>
      match values with
      | [] => Ok (remainingLetters, st)
      | _ =>
          let* argumentMap := _currentArgumentMap st in
          Ok (foldl
                (λ '(remaining, st) value,
                   let letter := caseLetter argumentMap value in
                   (setDelete remaining letter,
                    addTransitionAt label letter change st))
                (remainingLetters, st) values)
      end
  end.

Definition visitCasesWith (visit : NormalBlockContext → t → result t)
    (label : string)
    : list CaseContext → list string → t → result t :=
  fix loop cases remainingLetters st :=
    match cases with
    | [] => Ok st
    | switchCase :: rest =>
        let* '(change, st1) :=
          _getTMChangeForSwitchCaseWith visit switchCase st in
        let* '(remainingLetters', st2) :=
          addCaseTransitions label switchCase change remainingLetters
            st1 in
        loop rest remainingLetters' st2
    end.

Definition visitSwitchBlockWith
    (visit : NormalBlockContext → t → result t)
    (cases : list CaseContext) (st : t) : result t :=
  let* label := _getCurrentLabel true st in
  let st1 := addState label (VariableTMState ∅) st in
  visitCasesWith visit label cases (setAdd _alphabet "") st1.

Fixpoint visit (block : NormalBlockContext) (st : t) {struct block}
    : result t :=
  match block with
  | BasicBlock block => visitBasicBlock block st
  | SwitchBlock cases => visitSwitchBlockWith visit cases st
  end.

End Blocks.

Definition registerConstructed (identifier : string) (args : list string)
    (st : t) : t :=
  withConstructedModules
    (λ constructed,
       JsMap.set constructed identifier
         (default [] (JsMap.get constructed identifier) ++ [args]))
    st.

Fixpoint visitModule (fuel : nat) (module : ModuleContext) (st : t)
    : result t :=
  match fuel with
  | 0 => OutOfFuel
  | S fuel' =>
      let* args := _currentArgs st in
      let st1 := (_generateNextLabel (identifier module) args None st).2 in
      let* st2 := _pushBlocks (blocks module) (identifier module) true st1 in
      let* args2 := _currentArgs st2 in
      let st3 := registerConstructed (identifier module) args2 st2 in
      let* st4 :=
        visitBlocksWith (visit (visitModule fuel')) (blocks module) st3 in
      Ok (_popBlocks st4)
  end.

Definition visitProgram (fuel : nat) (st : t) : result t :=
  match modules program with
  | [] => Throw TypeError
  | main :: _ =>
      let st1 :=
        withTuringMachine
          (λ tm, {| initialState := identifier main +:+ "-0";
                    states := states tm |}) st in
      let st2 :=
        withIdToModule
          (foldl (λ m module, <[identifier module := module]> m)
             (_idToModule st1) (modules program)) st1 in
      let st3 := withArgumentMapStack (cons JsMap.empty) st2 in
      visitModule fuel main st3
  end.

Definition convertState (fuel : nat) : result t := visitProgram fuel new.

Definition convert (fuel : nat) : result TuringMachine.t :=
  let* st := convertState fuel in Ok (_turingMachine st).

End Visit.

End CodeConverter.

(** ** Diagnostics

    Messages quote values between double quotes. *)
Module Messages.

Definition dquote : string := String (ascii_of_nat 34) EmptyString.

Definition quoted (value : string) : string := dquote +:+ value +:+ dquote.

(** [letter || "blank"] *)
Definition letterName (letter : string) : string :=
  if String.eqb letter "" then "blank" else letter.

Definition duplicateModule (identifier : string) : string :=
  "Duplicate module with name " +:+ quoted identifier +:+ ".".

Definition noModules : string := "A program should have at least one module.".

Definition emptyAlphabet : string :=
  "The alphabet must have at least one letter.".

Definition firstModuleHasParameters : string :=
  "The first module cannot have parameters.".

Definition letterIsParameter (letter : string) : string :=
  "The letter " +:+ quoted letter +:+
  " is both in the alphabet and a module parameter.".

Definition notInAlphabet (letter : string) : string :=
  "The letter " +:+ quoted letter +:+ " is not part of the alphabet.".

Definition multipleCases (letter : string) : string :=
  "Multiple cases present for letter " +:+ quoted letter +:+ ".".

Definition nonFinalElse : string := "A non-final case cannot be an else block".

Definition elseRequired : string :=
  "If parametrised letters are used then the switch block must have an else case.".

(** [missingLetters.join(", ")] after [val.length === 0 ? "blank" : `"${val}"`] *)
Definition missingCases (missing : list string) : string :=
  "The switch block doesn't have a case for the " +:+
  (if bool_decide (length missing = 1) then "letter" else "letters") +:+
  ": " +:+
  String.concat ", "
    (map (λ val, if String.eqb val "" then "blank" else quoted val) missing)
  +:+ ".".

Definition nonFinalSwitch : string :=
  "A non-final block in a sequence of blocks cannot be a switch block.".

Definition nonFinalFlow : string :=
  "A non-final block in a sequence of blocks cannot have a flow command.".

Definition firstBlockIsSwitch : string :=
  "The first block within an if case cannot be a switch block.".

Definition ifFirstBlockNotBasic : string :=
  "The first block within an if case must be a basic block.".

Definition elseFirstBlockNotBasic : string :=
  "The first block within an else case must be a basic block.".

Definition ifWithoutLetter : string :=
  "An if case must apply to at least one letter.".

Definition whileWithoutLetter : string :=
  "A while case must apply to at least one letter.".

Definition undefinedModule (identifier : string) : string :=
  "Undefined module " +:+ quoted identifier +:+ ".".

Definition expectedArgumentsCount (paramCount : nat) : string :=
  "Expected " +:+ pretty paramCount +:+ " number of arguments.".

Definition expectedArguments (paramCount : nat) : string :=
  "Expected " +:+ pretty paramCount +:+ " " +:+
  (if bool_decide (paramCount = 1) then "argument" else "arguments") +:+ ".".

End Messages.

(** ** CodeValidator.ts

    The visitor answers whether the visited node ends in a flow command and
    throws a [CodeError] at the first violation.  The sets of the class are
    lists without repetition, in insertion order. *)
Module CodeValidator.
Import Messages.

Definition setHas (s : list string) (x : string) : bool := bool_decide (x ∈ s).

Fixpoint _addModuleNames (modules : list ModuleContext)
    (moduleNames : gmap string nat) : result (gmap string nat) :=
  match modules with
  | [] => Ok moduleNames
  | module :: rest =>
      match moduleNames !! identifier module with
      | Some _ => Throw (duplicateModule (identifier module))
      | None =>
          _addModuleNames rest
            (<[identifier module := length (params module)]> moduleNames)
      end
  end.

Definition visitAlphabet (values : list string) : result (list string) :=
  match values with
  | [] => Throw emptyAlphabet
  | _ => Ok (CodeConverter.setOf values)
  end.

Section Rules.
Variable _alphabet : list string.
Variable _moduleNames : gmap string nat.

Definition visitChangeTo (value : string) : result bool :=
  if negb (String.eqb value "") && negb (setHas _alphabet value)
  then Throw (notInAlphabet value)
  else Ok true.

Definition visitGoTo (identifier : string) (args : list string)
    : result bool :=
  match _moduleNames !! identifier with
  | None => Throw (undefinedModule identifier)
  | Some paramCount =>
      if bool_decide (length args ≠ paramCount)
      then Throw (expectedArgumentsCount paramCount)
      else Ok true
  end.

Definition visitFlow (command : FlowChangeContext) : result bool :=
  match command with
  | GoToContext identifier args => visitGoTo identifier args
  | TerminationContext _ => Ok true
  end.

Definition visitBasicBlock (block : BasicBlockContext) : result bool :=
  let* _ :=
    match changeToCommand block with
    | Some value => visitChangeTo value
    | None => Ok true
    end in
  let* _ :=
    match flowCommand block with
    | Some command => visitFlow command
    | None => Ok true
    end in
  Ok (bool_decide (is_Some (flowCommand block))).

Definition isSwitchBlock (block : NormalBlockContext) : bool :=
  match block with
  | SwitchBlock _ => true
  | BasicBlock _ => false
  end.

(** [_validateBlocks]: the loop over [blocks], entered at index [i]. *)
Definition _validateBlocksWith (visit : NormalBlockContext → result bool)
    (isIfBlock : bool)
    : nat → bool → bool → list NormalBlockContext → result bool :=
  fix loop i hasFlow hasSwitch blocks :=
    match blocks with
    | [] => Ok hasFlow
    | block :: rest =>
        if hasSwitch then Throw nonFinalSwitch
        else if hasFlow then Throw nonFinalFlow
        else if isSwitchBlock block && isIfBlock && bool_decide (i = 0)
        then Throw firstBlockIsSwitch
        else
          let* flow := visit block in
          loop (S i) (flow || hasFlow) (isSwitchBlock block || hasSwitch) rest
    end.

(** The letters of one if or while case against [alphabetSet]. *)
Fixpoint checkLetters (values : list string) (alphabetSet : list string)
    : result (list string) :=
  match values with
  | [] => Ok alphabetSet
  | letter :: rest =>
      let l := letterName letter in
      if negb (String.eqb letter "") && negb (setHas _alphabet l)
      then Throw (notInAlphabet l)
      else if negb (setHas alphabetSet letter)
      then Throw (multipleCases l)
      else checkLetters rest (CodeConverter.setDelete alphabetSet letter)
  end.

(** [visitIf], [visitElse], [visitWhile]; the core block of a while is
    dispatched to [visitCoreBasicBlock], which checks nothing. *)
Definition visitCaseWith (visit : NormalBlockContext → result bool)
    (switchCase : CaseContext) : result bool :=
  match switchCase with
  | IfCase _ blocks | ElseCase blocks =>
      _validateBlocksWith visit true 0 false false blocks
  | WhileCase _ _ => Ok false
  end.

Section Module.
Variable parameters : list string.

Definition initialAlphabetSet : list string :=
  foldl CodeConverter.setAdd (CodeConverter.setAdd _alphabet "") parameters.

Definition visitCasesWith (visit : NormalBlockContext → result bool)
    : list CaseContext → list string → bool → bool → result bool :=
  fix loop cases alphabetSet seenElse hasFlow :=
    match cases with
    | [] =>
        if negb seenElse && negb (bool_decide (length alphabetSet = 0))
        then Throw (missingCases alphabetSet)
        else Ok hasFlow
    | switchCase :: rest =>
        let* '(alphabetSet', seenElse') :=
          match switchCase with
          | ElseCase _ =>
              match rest with
              | [] => Ok (alphabetSet, true)
              | _ => Throw nonFinalElse
              end
          | IfCase values _ | WhileCase values _ =>
              let* alphabetSet' := checkLetters values alphabetSet in
              Ok (alphabetSet', seenElse)
          end in
        let* flow := visitCaseWith visit switchCase in
        loop rest alphabetSet' seenElse' (flow || hasFlow)
    end.

Definition visitSwitchBlockWith (visit : NormalBlockContext → result bool)
    (cases : list CaseContext) : result bool :=
  visitCasesWith visit cases initialAlphabetSet false false.

Fixpoint visit (block : NormalBlockContext) {struct block} : result bool :=
  match block with
  | BasicBlock block => visitBasicBlock block
  | SwitchBlock cases => visitSwitchBlockWith visit cases
  end.

Definition visitSwitchBlock (cases : list CaseContext) : result bool :=
  visitSwitchBlockWith visit cases.

Definition visitCase : CaseContext → result bool := visitCaseWith visit.

End Module.

(** A trigger value that stands for a tape symbol: blank or a letter of the
    alphabet. *)
Definition symbolValue (value : string) : Prop :=
  value = "" ∨ value ∈ _alphabet.

(** An else case, if there is one, is the last case. *)
Fixpoint elseOnlyLast (cases : list CaseContext) : Prop :=
  match cases with
  | [] => True
  | switchCase :: rest =>
      (isElseCase switchCase = true → rest = []) ∧ elseOnlyLast rest
  end.

(** The letters [values] are pairwise distinct and all still in
    [alphabetSet]: none of them has been claimed. *)
Definition unclaimed (alphabetSet values : list string) : Prop :=
  NoDup values ∧ ∀ value, value ∈ values → value ∈ alphabetSet.

Definition visitModule (module : ModuleContext) : result bool :=
  match find (setHas _alphabet) (params module) with
  | Some letter => Throw (letterIsParameter letter)
  | None =>
      match blocks module with
      | [] => Throw noModules
      | _ =>
          let* _ :=
            _validateBlocksWith (visit (CodeConverter.setOf (params module)))
              false 0 false false (blocks module) in
          Ok true
      end
  end.

End Rules.

Fixpoint visitModules (alphabet : list string) (moduleNames : gmap string nat)
    (modules : list ModuleContext) : result bool :=
  match modules with
  | [] => Ok true
  | module :: rest =>
      let* _ := visitModule alphabet moduleNames module in
      visitModules alphabet moduleNames rest
  end.

Definition visitProgram (program : ProgramContext) : result bool :=
  let* alphabet := visitAlphabet (alphabet program) in
  let* moduleNames := _addModuleNames (modules program) ∅ in
  match modules program with
  | [] => Throw noModules
  | _ => visitModules alphabet moduleNames (modules program)
  end.

Definition validate (program : ProgramContext) : result unit :=
  let* _ := visitProgram program in Ok ().

End CodeValidator.

(** ** The validator that requires an else case

    The later [CodeValidator] (the class found next to the parser's error
    tests, the one the validator's test suite exercises): a visitor that
    returns nothing and throws at the first violation. *)
Module CodeValidatorElse.
Import Messages.

Definition setHas (s : list string) (x : string) : bool := bool_decide (x ∈ s).

Section Rules.
Variable _alphabet : list string.
Variable _moduleNames : gmap string nat.

Definition visitChangeTo (value : string) : result unit :=
  if negb (String.eqb value "") && negb (setHas _alphabet value)
  then Throw (notInAlphabet value)
  else Ok ().

Definition visitGoTo (identifier : string) (args : list string)
    : result unit :=
  match _moduleNames !! identifier with
  | None => Throw (undefinedModule identifier)
  | Some paramCount =>
      if bool_decide (length args ≠ paramCount)
      then Throw (expectedArguments paramCount)
      else Ok ()
  end.

Definition visitFlow (command : FlowChangeContext) : result unit :=
  match command with
  | GoToContext identifier args => visitGoTo identifier args
  | TerminationContext _ => Ok ()
  end.

(** [maybeVisit] of the changeto, flow and move commands, in this order. *)
Definition visitBasicBlock (block : BasicBlockContext) : result unit :=
  let* _ :=
    match changeToCommand block with
    | Some value => visitChangeTo value
    | None => Ok ()
    end in
  match flowCommand block with
  | Some command => visitFlow command
  | None => Ok ()
  end.

(** [visitAll] *)
Definition visitAllWith {A} (visit : A → result unit)
    : list A → result unit :=
  fix loop contexts :=
    match contexts with
    | [] => Ok ()
    | context :: rest => let* _ := visit context in loop rest
    end.

(** [visitIf], [visitElse], [visitWhile].  [block.blocks[0].position] of an
    empty body is a [TypeError]. *)
Definition visitCaseWith (visit : NormalBlockContext → result unit)
    (switchCase : CaseContext) : result unit :=
  match switchCase with
  | IfCase values blocks =>
      match values with
      | [] => Throw ifWithoutLetter
      | _ =>
          match blocks with
          | BasicBlock _ :: _ => visitAllWith visit blocks
          | SwitchBlock _ :: _ => Throw ifFirstBlockNotBasic
          | [] => Throw TypeError
          end
      end
  | ElseCase blocks =>
      match blocks with
      | BasicBlock _ :: _ => visitAllWith visit blocks
      | SwitchBlock _ :: _ => Throw elseFirstBlockNotBasic
      | [] => Throw TypeError
      end
  | WhileCase values _ =>
      match values with
      | [] => Throw whileWithoutLetter
      | _ => Ok ()
      end
  end.

Section Module.
Variable _parameters : list string.

Definition initialAlphabetSet : list string :=
  foldl CodeConverter.setAdd (CodeConverter.setAdd _alphabet "") _parameters.

(** The letters of one if or while case. *)
Fixpoint scanLetters (values : list string) (alphabetSet : list string)
    (seenParamValue : bool) : result (list string * bool) :=
  match values with
  | [] => Ok (alphabetSet, seenParamValue)
  | letter :: rest =>
      let l := letterName letter in
      if setHas _parameters letter
      then scanLetters rest (CodeConverter.setDelete alphabetSet letter) true
      else if negb (String.eqb letter "") && negb (setHas _alphabet l)
      then Throw (notInAlphabet l)
      else scanLetters rest (CodeConverter.setDelete alphabetSet letter)
             seenParamValue
  end.

(** The first loop of [visitSwitchBlock], over the cases. *)
Fixpoint scanCases (cases : list CaseContext) (alphabetSet : list string)
    (seenElse seenParamValue : bool) : result (list string * bool * bool) :=
  match cases with
  | [] => Ok (alphabetSet, seenElse, seenParamValue)
  | switchCase :: rest =>
      match switchCase with
      | ElseCase _ =>
          match rest with
          | [] => scanCases rest alphabetSet true seenParamValue
          | _ => Throw nonFinalElse
          end
      | IfCase values _ | WhileCase values _ =>
          let* '(alphabetSet', seenParamValue') :=
            scanLetters values alphabetSet seenParamValue in
          scanCases rest alphabetSet' seenElse seenParamValue'
      end
  end.

Definition visitSwitchBlockWith (visit : NormalBlockContext → result unit)
    (cases : list CaseContext) : result unit :=
  let* '(alphabetSet, seenElse, seenParamValue) :=
    scanCases cases initialAlphabetSet false false in
  let* _ := visitAllWith (visitCaseWith visit) cases in
  if seenParamValue && negb seenElse then Throw elseRequired
  else if negb seenElse
          && negb (bool_decide (length alphabetSet = length _parameters))
  then Throw (missingCases
                (filter (λ val, val ∉ _parameters) alphabetSet))
  else Ok ().

Fixpoint visit (block : NormalBlockContext) {struct block} : result unit :=
  match block with
  | BasicBlock block => visitBasicBlock block
  | SwitchBlock cases => visitSwitchBlockWith visit cases
  end.

Definition visitSwitchBlock (cases : list CaseContext) : result unit :=
  visitSwitchBlockWith visit cases.

Definition visitCase : CaseContext → result unit := visitCaseWith visit.

(** A trigger value the validator knows: blank, a letter of the alphabet or
    a parameter of the module. *)
Definition knownValue (value : string) : Prop :=
  value = "" ∨ value ∈ _alphabet ∨ value ∈ _parameters.

Definition usesParameter (values : list string) : bool :=
  existsb (setHas _parameters) values.

End Module.

Definition visitModule (module : ModuleContext) : result unit :=
  match find (setHas _alphabet) (params module) with
  | Some letter => Throw (letterIsParameter letter)
  | None =>
      visitAllWith (visit (CodeConverter.setOf (params module)))
        (blocks module)
  end.

End Rules.

Definition visitProgram (program : ProgramContext) : result unit :=
  let* alphabet := CodeValidator.visitAlphabet (alphabet program) in
  let* moduleNames := CodeValidator._addModuleNames (modules program) ∅ in
  match modules program with
  | [] => Throw noModules
  | main :: _ =>
      if bool_decide (length (params main) ≠ 0)
      then Throw firstModuleHasParameters
      else visitAllWith (visitModule alphabet moduleNames) (modules program)
  end.

Definition validate (program : ProgramContext) : result unit :=
  visitProgram program.

End CodeValidatorElse.

(** ** CodeWrapper.ts

    Modelled from the spec: the lexer is not among the sources (only its
    tests are).  Its contract is [moveNext(): boolean], [currentValue],
    [currentPosition] and [indentationStack]; the tokens are produced ahead
    of time here, each with its line and with the indentation stack the lexer
    holds once it has reached the token (bottom first, starting as [[0]],
    with [-1] pushed for a malformed dedent).  After the last token
    [moveNext] answers [false] and the current token stays. *)
Module CodeWrapper.

Record Token := {
  tokenValue : string;
  startLineNumber : nat;
  tokenIndentationStack : list Z
}.

Record t := {
  current : option Token;
  remaining : list Token
}.

Definition new (tokens : list Token) : t :=
  {| current := None; remaining := tokens |}.

Definition moveNext (w : t) : bool * t :=
  match remaining w with
  | [] => (false, w)
  | token :: rest => (true, {| current := Some token; remaining := rest |})
  end.

Definition indentationStack (w : t) : list Z :=
  match current w with
  | Some token => tokenIndentationStack token
  | None => [0%Z]
  end.

Definition currentValue (w : t) : result string :=
  match current w with
  | Some token => Ok (tokenValue token)
  | None => Throw "No current value."
  end.

Definition currentLine (w : t) : result nat :=
  match current w with
  | Some token => Ok (startLineNumber token)
  | None => Throw "No current position."
  end.

End CodeWrapper.

(** ** CodeParser.ts: the controlled advance

    [_moveNext], [_matchIndent] and the comment skipping they rely on.
    [_matchComments] is a loop around a loop; it is cut off by fuel. *)
Module CodeParser.

Record t := {
  _wrapper : CodeWrapper.t;
  reachedEnd : bool
}.

Definition new (tokens : list CodeWrapper.Token) : t :=
  {| _wrapper := CodeWrapper.new tokens; reachedEnd := false |}.

(** The [do ... while (couldMove && startLine === ...startLineNumber)] of
    [_ignoreComments]; it moves at least once. *)
Fixpoint _ignoreComments_loop (startLine : nat) (w : CodeWrapper.t)
    (tokens : list CodeWrapper.Token) : bool * CodeWrapper.t :=
  match tokens with
  | [] => (false, w)
  | token :: rest =>
      let w' := {| CodeWrapper.current := Some token;
                   CodeWrapper.remaining := rest |} in
      if bool_decide (startLine = CodeWrapper.startLineNumber token)
      then _ignoreComments_loop startLine w' rest
      else (true, w')
  end.

Definition _ignoreComments (p : t) : result t :=
  let* startLine := CodeWrapper.currentLine (_wrapper p) in
  let '(couldMove, w) :=
    _ignoreComments_loop startLine (_wrapper p)
      (CodeWrapper.remaining (_wrapper p)) in
  Ok {| _wrapper := w;
        reachedEnd := if couldMove then reachedEnd p else true |}.

Fixpoint _matchComments (fuel : nat) (p : t) : result t :=
  match fuel with
  | 0 => OutOfFuel
  | S fuel' =>
      let* value := CodeWrapper.currentValue (_wrapper p) in
      if String.eqb value "##"
      then let* p' := _ignoreComments p in _matchComments fuel' p'
      else Ok p
  end.

(** The first statements of [_moveNext]: the wrapper moves, comments are
    skipped, the end of the code is recorded. *)
Definition advance (fuel : nat) (p : t) : result t :=
  let '(couldMove, w) := CodeWrapper.moveNext (_wrapper p) in
  if couldMove
  then _matchComments fuel {| _wrapper := w; reachedEnd := reachedEnd p |}
  else Ok {| _wrapper := w; reachedEnd := true |}.

Definition invalidIndentation : string := "Invalid indentation.".
Definition unexpectedDeIndentation : string := "Unexpected de-indentation.".
Definition unexpectedIndentation : string := "Unexpected indentation.".
Definition unexpectedEndOfFile : string := "Unexpected end of file.".

(** [newStack[newStack.length-1] == -1] *)
Definition topIsSentinel (stack : list Z) : bool :=
  bool_decide (last stack = Some (-1)%Z).

Definition _moveNext (fuel : nat)
    (deIndentAllowed indentAllowed shouldThrow : bool) (p : t) : result t :=
  let prevStackLength := length (CodeWrapper.indentationStack (_wrapper p)) in
  let* p' := advance fuel p in
  let newStack := CodeWrapper.indentationStack (_wrapper p') in
  if topIsSentinel newStack then Throw invalidIndentation
  else if negb deIndentAllowed
          && bool_decide (length newStack < prevStackLength)
  then Throw unexpectedDeIndentation
  else if negb indentAllowed
          && bool_decide (prevStackLength < length newStack)
  then Throw unexpectedIndentation
  else if reachedEnd p' && shouldThrow then Throw unexpectedEndOfFile
  else Ok p'.


(** [_checkDeIndent] *)
Definition _checkDeIndent (fuel : nat) (p : t) : result (bool * t) :=
  let prevStackLength := length (CodeWrapper.indentationStack (_wrapper p)) in
  let* p' := _moveNext fuel true false false p in
  let newIndentStack := CodeWrapper.indentationStack (_wrapper p') in
  Ok (reachedEnd p' || bool_decide (length newIndentStack < prevStackLength),
      p').

End CodeParser.

(** ** What the converter is given and what it builds

    The vocabulary of the statements about whole conversions. *)
Module ConverterSpec.
Import CodeConverter.

(** The goto commands of a block, of a case and of a program, as
    (module identifier, argument tuple) pairs. *)
Fixpoint blockGotos (block : NormalBlockContext)
    : list (string * list string) :=
  match block with
  | BasicBlock block =>
      match flowCommand block with
      | Some (GoToContext identifier args) => [(identifier, args)]
      | _ => []
      end
  | SwitchBlock cases =>
      flat_map
        (λ switchCase,
           match switchCase with
           | IfCase _ blocks | ElseCase blocks => flat_map blockGotos blocks
           | WhileCase _ _ => []
           end)
        cases
  end.

Definition caseGotos (switchCase : CaseContext)
    : list (string * list string) :=
  match switchCase with
  | IfCase _ blocks | ElseCase blocks => flat_map blockGotos blocks
  | WhileCase _ _ => []
  end.

Definition programGotos (program : ProgramContext)
    : list (string * list string) :=
  flat_map (λ module, flat_map blockGotos (blocks module)) (modules program).

(** The number of blocks of a block: itself and, for a switch block, the
    blocks of the bodies of its if and else cases, nested ones included. *)
Fixpoint blockCount (block : NormalBlockContext) : nat :=
  match block with
  | BasicBlock _ => 1
  | SwitchBlock cases =>
      S (sum_list
           (map
              (λ switchCase,
                 match switchCase with
                 | IfCase _ blocks | ElseCase blocks =>
                     sum_list (map blockCount blocks)
                 | WhileCase _ _ => 0
                 end)
              cases))
  end.

Definition blocksCount (blocks : list NormalBlockContext) : nat :=
  sum_list (map blockCount blocks).

Definition caseCount (switchCase : CaseContext) : nat :=
  match switchCase with
  | IfCase _ blocks | ElseCase blocks => blocksCount blocks
  | WhileCase _ _ => 0
  end.

(** The body of every if and else case starts with a basic block, at every
    depth (the parser makes bodies non-empty, the validator wants a basic
    block first). *)
Fixpoint bodiesStartBasic (block : NormalBlockContext) : bool :=
  match block with
  | BasicBlock _ => true
  | SwitchBlock cases =>
      forallb
        (λ switchCase,
           match switchCase with
           | IfCase _ blocks | ElseCase blocks =>
               match blocks with
               | BasicBlock _ :: _ => forallb bodiesStartBasic blocks
               | _ => false
               end
           | WhileCase _ _ => true
           end)
        cases
  end.

Definition caseStartsBasic (switchCase : CaseContext) : bool :=
  match switchCase with
  | IfCase _ blocks | ElseCase blocks =>
      match blocks with
      | BasicBlock _ :: _ => forallb bodiesStartBasic blocks
      | _ => false
      end
  | WhileCase _ _ => true
  end.

(** [_idToModule] as [visitProgram] fills it. *)
Definition idToModuleOf (program : ProgramContext)
    : gmap string ModuleContext :=
  foldl (λ m module, <[identifier module := module]> m) ∅ (modules program).

(** A goto names a module of the program and passes as many arguments as
    the module has parameters, which are pairwise distinct. *)
Definition gotoOk (program : ProgramContext) (goto : string * list string)
    : bool :=
  match idToModuleOf program !! goto.1 with
  | Some module =>
      bool_decide (length (params module) = length goto.2)
      && bool_decide (NoDup (params module))
  | None => false
  end.

(** The programs the converter is meant for: at least one module, module
    identifiers pairwise distinct, if and else bodies that start with a basic
    block, gotos that are [gotoOk]. *)
Definition wellFormed (program : ProgramContext) : bool :=
  negb (bool_decide (modules program = []))
  && bool_decide (NoDup (identifier <$> modules program))
  && forallb (λ module, forallb bodiesStartBasic (blocks module))
       (modules program)
  && forallb (gotoOk program) (programGotos program).

(** The number of blocks of the module a name stands for. *)
Definition moduleBlockCount (program : ProgramContext) (identifier : string)
    : nat :=
  match idToModuleOf program !! identifier with
  | Some module => blocksCount (blocks module)
  | None => 0
  end.

(** The pairs (module, argument tuple) that have been lowered, and the
    number of blocks lowering them went through: for every module, the
    number of its argument tuples times the number of its blocks. *)
Definition loweredPairs (st : t) : nat :=
  sum_list (map (λ entry, length entry.2) (_constructedModules st)).

Definition loweredBlocks (program : ProgramContext) (st : t) : nat :=
  sum_list
    (map (λ entry, length entry.2 * moduleBlockCount program entry.1)
       (_constructedModules st)).

Definition constructedArgs (st : t) (identifier : string)
    : list (list string) :=
  default [] (JsMap.get (_constructedModules st) identifier).

(** No argument tuple is recorded twice for a module. *)
Definition loweredOnce (st : t) : Prop :=
  ∀ identifier, NoDup (constructedArgs st identifier).

Definition isConstructed (st : t) (goto : string * list string) : Prop :=
  _isModuleConstructed goto.1 goto.2 st = true.

#[global] Instance isConstructed_dec st goto : Decision (isConstructed st goto).
Proof. unfold isConstructed. apply _. Defined.

(** The gotos of the program whose target has not been lowered yet. *)
Definition pending (program : ProgramContext) (st : t) : nat :=
  length (filter (λ goto, ¬ isConstructed st goto) (programGotos program)).

(** The key of [_identifierIndexMap] the current frame counts under. *)
Definition currentKey (st : t) : option string :=
  match _identifierStack st, _argumentMapStack st with
  | identifier :: _, argumentMap :: _ =>
      Some (moduleIdentifierOf identifier (JsMap.values argumentMap))
  | _, _ => None
  end.

(** The converter stands at a block of some block sequence: every stack has
    a top, no block sequence lacks its argument map, and the current frame
    has its counter. *)
Record visiting (program : ProgramContext) (st : t) : Prop := {
  visiting_index : _currentBlockIndexStack st ≠ [];
  visiting_maps :
    length (_currentBlocksStack st) ≤ length (_argumentMapStack st);
  visiting_key :
    ∃ key, currentKey st = Some key
           ∧ is_Some (_identifierIndexMap st !! key);
  visiting_modules : _idToModule st = idToModuleOf program;
  visiting_once : loweredOnce st
}.

(** *** How a visit changes the converter

    What the lowering never undoes: the module table stays, a key that has
    an index keeps one, a lowered pair stays lowered, and no argument tuple
    gets recorded twice. *)
Record grows (st st' : t) : Prop := {
  grows_modules : _idToModule st' = _idToModule st;
  grows_index :
    ∀ key, is_Some (_identifierIndexMap st !! key) →
           is_Some (_identifierIndexMap st' !! key);
  grows_constructed : ∀ goto, isConstructed st goto → isConstructed st' goto;
  grows_once : loweredOnce st → loweredOnce st'
}.

(** The four stacks are as they were. *)
Definition sameStacks (st st' : t) : Prop :=
  _currentBlocksStack st' = _currentBlocksStack st ∧
  _currentBlockIndexStack st' = _currentBlockIndexStack st ∧
  _argumentMapStack st' = _argumentMapStack st ∧
  _identifierStack st' = _identifierStack st.

(** The stacks are as they were but for the index of the current block. *)
Definition sameFrames (st st' : t) : Prop :=
  _currentBlocksStack st' = _currentBlocksStack st ∧
  _argumentMapStack st' = _argumentMapStack st ∧
  _identifierStack st' = _identifierStack st ∧
  tail (_currentBlockIndexStack st') = tail (_currentBlockIndexStack st) ∧
  (_currentBlockIndexStack st ≠ [] → _currentBlockIndexStack st' ≠ []).

(** The automaton has gained at most [n] states more than the blocks of the
    modules lowered in between. *)
Definition stateBound (program : ProgramContext) (n : nat) (st st' : t)
    : Prop :=
  size (TuringMachine.states (_turingMachine st')) + loweredBlocks program st
  ≤ size (TuringMachine.states (_turingMachine st))
    + loweredBlocks program st' + n.

Definition ext (program : ProgramContext) (n : nat) (st st' : t) : Prop :=
  sameStacks st st' ∧ grows st st' ∧ stateBound program n st st'.

Definition extLoop (program : ProgramContext) (n : nat) (st st' : t) : Prop :=
  sameFrames st st' ∧ grows st st' ∧ stateBound program n st st'.

(** What a visit of a block has to deliver while at most [f] gotos are
    pending: a result, the stacks as they were, nothing lowered forgotten,
    and at most as many new states as the block has blocks. *)
Definition visitOk (program : ProgramContext) (f : nat)
    (visit : NormalBlockContext → t → result t)
    (block : NormalBlockContext) : Prop :=
  ∀ st, visiting program st → pending program st ≤ f →
        ∃ st', visit block st = Ok st' ∧
               ext program (blockCount block) st st'.

Definition caseOk (program : ProgramContext) (f : nat)
    (visit : NormalBlockContext → t → result t)
    (switchCase : CaseContext) : Prop :=
  caseStartsBasic switchCase = true ∧
  (∀ goto, goto ∈ caseGotos switchCase → goto ∈ programGotos program) ∧
  Forall (visitOk program f visit) (CodeExecutor.caseBlocks switchCase).

(** What [visitModule] is to deliver when a goto calls it on a module that
    is not lowered yet, with at most [f] gotos pending. *)
Definition moduleOracle (program : ProgramContext)
    (vm : ModuleContext → t → result t) (f : nat) : Prop :=
  ∀ identifier args module st,
    (identifier, args) ∈ programGotos program →
    idToModuleOf program !! identifier = Some module →
    visiting program st →
    ¬ isConstructed st (identifier, args) →
    pending program st ≤ f →
    ∃ st',
      vm module (_generateAndPushArgumentMap (params module) args st)
      = Ok st' ∧
      ext program 0 st st' ∧ isConstructed st' (identifier, args).

End ConverterSpec.

(** ** CodeParser.ts: value lists

    [_matchValue], [_parseValues] and the parsers made of them alone:
    [_parseAlphabet] and [_parseGoTo].  Positions are dropped; the loop of
    [_parseValues] is cut off by the fuel it also hands to [_moveNext]. *)
Module ValueParser.
Import Messages CodeParser.

Definition expectedValue (current value : string) : string :=
  "Expected value " +:+ quoted current +:+ " to be " +:+ quoted value +:+ ".".

Definition mustHaveLengthOne (current : string) : string :=
  "The value " +:+ quoted current +:+ " must have length 1.".

Definition mustBeLowercaseOrNumber (current : string) : string :=
  "The value " +:+ quoted current
  +:+ " must be a lowercase character or a number.".

Definition _matchValue (value : string) (p : t) : result unit :=
  let* current := CodeWrapper.currentValue (_wrapper p) in
  if String.eqb current value then Ok ()
  else Throw (expectedValue current value).

(** The character class [[a-z|0-9]]: the bar is one of its members. *)
Definition inClass (c : ascii) : bool :=
  let n := nat_of_ascii c in
  ((97 <=? n) && (n <=? 122)) || (n =? 124) || ((48 <=? n) && (n <=? 57)).

(** One value of the list: [blank] where it is allowed, else a string of
    length 1 that matches the class. *)
Definition parseValue (includesBlank : bool) (current : string)
    : result string :=
  if includesBlank && String.eqb current "blank" then Ok ""
  else
    match current with
    | String c EmptyString =>
        if inClass c then Ok current
        else Throw (mustBeLowercaseOrNumber current)
    | _ => Throw (mustHaveLengthOne current)
    end.

(** The loop of [_parseValues], entered with the values pushed so far. *)
Fixpoint _parseValues_loop (fuel : nat) (finishedValue : string)
    (includesBlank : bool) (values : list string) (noComma : bool) (p : t)
    : result (list string * t) :=
  match fuel with
  | 0 => OutOfFuel
  | S fuel' =>
      let* current := CodeWrapper.currentValue (_wrapper p) in
      if String.eqb current finishedValue then Ok (values, p)
      else if noComma then Throw (expectedValue current finishedValue)
      else
        let* value := parseValue includesBlank current in
        let* p1 := _moveNext fuel' false false true p in
        let* next := CodeWrapper.currentValue (_wrapper p1) in
        if String.eqb next ","
        then
          let* p2 := _moveNext fuel' false false true p1 in
          _parseValues_loop fuel' finishedValue includesBlank
            (values ++ [value]) false p2
        else
          _parseValues_loop fuel' finishedValue includesBlank
            (values ++ [value]) true p1
  end.

Definition _parseValues (fuel : nat) (finishedValue : string)
    (includesBlank : bool) (p : t) : result (list string * t) :=
  _parseValues_loop fuel finishedValue includesBlank [] false p.

(** [_parseAlphabet]: the values of the [AlphabetContext]. *)
Definition _parseAlphabet (fuel : nat) (p : t) : result (list string * t) :=
  let* _ := _matchValue "alphabet" p in
  let* p1 := _moveNext fuel false false true p in
  let* _ := _matchValue "=" p1 in
  let* p2 := _moveNext fuel false false true p1 in
  let* _ := _matchValue "[" p2 in
  let* p3 := _moveNext fuel false false true p2 in
  _parseValues fuel "]" false p3.

(** [_parseGoTo]: the [GoToContext] and the parser on the closing
    parenthesis. *)
Definition _parseGoTo (fuel : nat) (p : t)
    : result (FlowChangeContext * t) :=
  let* p1 := _moveNext fuel false false true p in
  let* identifier := CodeWrapper.currentValue (_wrapper p1) in
  let* p2 := _moveNext fuel false false true p1 in
  let* _ := _matchValue "(" p2 in
  let* p3 := _moveNext fuel false false true p2 in
  let* '(args, p4) := _parseValues fuel ")" false p3 in
  Ok (GoToContext identifier args, p4).

(** A value the list parser lets through. *)
Definition letterValue (includesBlank : bool) (value : string) : Prop :=
  (includesBlank = true ∧ value = "")
  ∨ ∃ c, value = String c EmptyString ∧ inClass c = true.

End ValueParser.

(** ** What the tape, the interpreter and the validators keep

    The vocabulary of the statements about the tape, the execution stacks
    and the programs the validators accept. *)
Module TapeSpec.
Import TMTape.
Local Open Scope Z_scope.

(** What [new TMTape(value)] shows at the absolute index [i]. *)
Definition written (value : string) (i : Z) : string :=
  if bool_decide (0 ≤ i)
  then match list_ascii_of_string value !! Z.to_nat i with
       | Some c => if isWhiteSpace c then "" else String c EmptyString
       | None => ""
       end
  else "".

(** The integers a JavaScript number holds with their neighbours, so that
    adding and subtracting one is exact ([Number.isSafeInteger]). *)
Definition safeInteger (z : Z) : Prop := - 2 ^ 53 < z < 2 ^ 53.

(** The map holds no blank: every stored letter survives [trim]. *)
Definition holdsLetters (tp : t) : Prop :=
  ∀ i letter, _valueMap tp !! i = Some letter → trimsToEmpty letter = false.

(** The tapes a caller can hold: the constructed one and what [change] and
    [move] make of it. *)
Inductive built : t → Prop :=
  | built_new value : built (new value)
  | built_change letter tp : built tp → built (change letter tp)
  | built_move direction tp : built tp → built (move direction tp).

End TapeSpec.

Module ExecutorSpec.
Import CodeExecutor.

(** Every character of the tape value is white space or a letter of the
    alphabet. *)
Definition tapeFits (value : string) (program : ProgramContext) : Prop :=
  ∀ c, c ∈ list_ascii_of_string value →
       TMTape.isWhiteSpace c = false →
       String c EmptyString ∈ alphabet program.

(** The number of module frames on the execution stack. *)
Definition moduleFrames (moduleStack : list bool) : nat :=
  length (filter (λ isModule, isModule = true) moduleStack).

(** The four stacks belong together: one index and one module flag per
    block list, one argument map per module frame, a module frame at the
    bottom, and a frame to run while no status is set. *)
Record aligned (e : t) : Prop := {
  aligned_index :
    length (_currentBlockIndexStack e) = length (_currentBlocksStack e);
  aligned_flags :
    length (_topLevelModuleStack e) = length (_currentBlocksStack e);
  aligned_maps :
    length (_argumentMapStack e) = moduleFrames (_topLevelModuleStack e);
  aligned_bottom :
    _topLevelModuleStack e = [] ∨ last (_topLevelModuleStack e) = Some true;
  aligned_running :
    _terminationStatus e = None → _currentBlocksStack e ≠ []
}.

(** A frame of the execution stack: its blocks, the index of the current
    block and whether the blocks are those of a module. *)
Definition Frame : Type := list NormalBlockContext * nat * bool.

Definition frameBlocks (frame : Frame) : list NormalBlockContext := frame.1.1.
Definition frameIndex (frame : Frame) : nat := frame.1.2.
Definition frameIsModule (frame : Frame) : bool := frame.2.

(** The frame stands at its last block (or beyond). *)
Definition exhausted (frame : Frame) : Prop :=
  length (frameBlocks frame) ≤ frameIndex frame + 1.

(** An argument map that binds each parameter name to the argument at the
    same position. *)
Definition bindsParameters (params args : list string)
    (argumentMap : JsMap.t string) : Prop :=
  ∀ i param arg,
    params !! i = Some param → args !! i = Some arg →
    JsMap.get argumentMap param = Some arg.

(** An argument map that leads from each argument value to the parameter
    name at the same position, the last one for a value passed twice. *)
Definition bindsArguments (params args : list string)
    (argumentMap : JsMap.t string) : Prop :=
  ∀ i param arg,
    params !! i = Some param → args !! i = Some arg →
    (∀ j, i < j → args !! j ≠ Some arg) →
    JsMap.get argumentMap arg = Some param.

End ExecutorSpec.

Module ValidatorSpec.
Import ConverterSpec.

(** The values of the changeto commands of the basic blocks of a block,
    nested ones included. *)
Fixpoint blockChanges (block : NormalBlockContext) : list string :=
  match block with
  | BasicBlock block =>
      match changeToCommand block with
      | Some value => [value]
      | None => []
      end
  | SwitchBlock cases =>
      flat_map
        (λ switchCase,
           match switchCase with
           | IfCase _ blocks | ElseCase blocks => flat_map blockChanges blocks
           | WhileCase _ _ => []
           end)
        cases
  end.

Definition programChanges (program : ProgramContext) : list string :=
  flat_map (λ module, flat_map blockChanges (blocks module)) (modules program).

(** The goto names a module of the program and passes as many arguments as
    the module has parameters. *)
Definition resolves (program : ProgramContext) (goto : string * list string)
    : Prop :=
  ∃ module, module ∈ modules program ∧ identifier module = goto.1 ∧
            length (params module) = length goto.2.

(** The same against the table [_moduleNames]. *)
Definition named (moduleNames : gmap string nat)
    (goto : string * list string) : Prop :=
  moduleNames !! goto.1 = Some (length goto.2).

(** What an accepted block is like. *)
Definition sound (alphabet : list string) (moduleNames : gmap string nat)
    (block : NormalBlockContext) : Prop :=
  (∀ goto, goto ∈ blockGotos block → named moduleNames goto) ∧
  bodiesStartBasic block = true ∧
  (∀ value, value ∈ blockChanges block → value = "" ∨ value ∈ alphabet).

(** A basic block without a flow command. *)
Definition plain (block : NormalBlockContext) : bool :=
  match block with
  | BasicBlock block => negb (bool_decide (is_Some (flowCommand block)))
  | SwitchBlock _ => false
  end.

(** Every block of the sequence but the last is [plain]: a switch block or
    a flow command comes last. *)
Fixpoint endsOnly (blocks : list NormalBlockContext) : bool :=
  match blocks with
  | [] => true
  | block :: rest =>
      match rest with
      | [] => true
      | _ => plain block && endsOnly rest
      end
  end.

Definition startsWithSwitch (blocks : list NormalBlockContext) : bool :=
  match blocks with
  | SwitchBlock _ :: _ => true
  | _ => false
  end.

(** At every depth, the body of an if or else case does not start with a
    switch block and [endsOnly]. *)
Fixpoint shaped (block : NormalBlockContext) : bool :=
  match block with
  | BasicBlock _ => true
  | SwitchBlock cases =>
      forallb
        (λ switchCase,
           match switchCase with
           | IfCase _ blocks | ElseCase blocks =>
               negb (startsWithSwitch blocks) && endsOnly blocks
               && forallb shaped blocks
           | WhileCase _ _ => true
           end)
        cases
  end.

Definition caseShaped (switchCase : CaseContext) : bool :=
  match switchCase with
  | IfCase _ blocks | ElseCase blocks =>
      negb (startsWithSwitch blocks) && endsOnly blocks
      && forallb shaped blocks
  | WhileCase _ _ => true
  end.

(** What a block accepted by the validator of CodeValidator.ts is like. *)
Definition orderly (alphabet : list string) (moduleNames : gmap string nat)
    (block : NormalBlockContext) : Prop :=
  (∀ goto, goto ∈ blockGotos block → named moduleNames goto) ∧
  shaped block = true ∧
  (∀ value, value ∈ blockChanges block → value = "" ∨ value ∈ alphabet).


(** The switch blocks of a block, nested ones included, each as its list of
    cases. *)
Fixpoint switchesOf (block : NormalBlockContext) : list (list CaseContext) :=
  match block with
  | BasicBlock _ => []
  | SwitchBlock cases =>
      cases ::
      flat_map
        (λ switchCase,
           match switchCase with
           | IfCase _ blocks | ElseCase blocks => flat_map switchesOf blocks
           | WhileCase _ _ => []
           end)
        cases
  end.

(** The cases leave no tape symbol out: there is an else case, or no
    trigger value is a parameter and every letter of the alphabet is a
    trigger value, and blank too unless the empty string is a parameter. *)
Definition covers (alphabet parameters : list string)
    (cases : list CaseContext) : Prop :=
  existsb isElseCase cases = true
  ∨ ((∀ value, value ∈ switchValues cases → value ∉ parameters) ∧
     (∀ letter, letter ∈ alphabet → letter ∈ switchValues cases) ∧
     ("" ∉ parameters → "" ∈ switchValues cases)).
End ValidatorSpec.

(** ** Sample programs

    The programs of the test suites and of the examples below, as the parser
    builds them. *)
Module Samples.

Definition basic (changeTo : option string) (move : option Direction)
    (flow : option FlowChangeContext) : NormalBlockContext :=
  BasicBlock {| changeToCommand := changeTo; moveCommand := move;
                flowCommand := flow |}.

Definition core (changeTo : option string) (move : option Direction)
    : CoreBasicBlockContext :=
  {| coreChangeToCommand := changeTo; coreMoveCommand := move |}.

(** [alphabet = [a, b]  module m():  changeto blank  move right] *)
Definition singleBlock : ProgramContext :=
  {| alphabet := ["a"; "b"];
     modules :=
       [ {| identifier := "m"; params := [];
            blocks := [basic (Some "") (Some RIGHT) None] |} ] |}.

(** [module main(): accept] *)
Definition acceptAtOnce : ProgramContext :=
  {| alphabet := ["a"];
     modules :=
       [ {| identifier := "main"; params := [];
            blocks := [basic None None (Some (TerminationContext ACCEPT))] |} ]
  |}.

(** [module main(): goto b(a)   module b(x): if x: accept  else: reject] *)
Definition gotoWithArgument : ProgramContext :=
  {| alphabet := ["a"];
     modules :=
       [ {| identifier := "main"; params := [];
            blocks := [basic None None (Some (GoToContext "b" ["a"]))] |};
         {| identifier := "b"; params := ["x"];
            blocks :=
              [SwitchBlock
                 [IfCase ["x"]
                    [basic None None (Some (TerminationContext ACCEPT))];
                  ElseCase
                    [basic None None (Some (TerminationContext REJECT))]]] |} ]
  |}.

(** The program of examples/palindrome.txt, as the automaton that
    CodeConverter.spec.ts expects for it determines it: [palindrome] erases
    the first letter and calls [check] with it at the end of the tape;
    [check(x)] erases [x] or finds blank and starts over, and rejects any
    other letter. *)
Definition palindrome : ProgramContext :=
  {| alphabet := ["a"; "b"];
     modules :=
       [ {| identifier := "palindrome"; params := [];
            blocks :=
              [SwitchBlock
                 [IfCase [""]
                    [basic None None (Some (TerminationContext ACCEPT))];
                  IfCase ["a"]
                    [basic (Some "") (Some END)
                       (Some (GoToContext "check" ["a"]))];
                  IfCase ["b"]
                    [basic (Some "") (Some END)
                       (Some (GoToContext "check" ["b"]))]]] |};
         {| identifier := "check"; params := ["x"];
            blocks :=
              [SwitchBlock
                 [IfCase ["x"; ""]
                    [basic (Some "") (Some START)
                       (Some (GoToContext "palindrome" []))];
                  ElseCase
                    [basic None None (Some (TerminationContext REJECT))]]] |} ]
  |}.

(** The test program [moduleWithWhile] of CodeConverter.spec.ts. *)
Definition moduleWithWhile : ProgramContext :=
  {| alphabet := ["a"; "b"];
     modules :=
       [ {| identifier := "simple"; params := [];
            blocks :=
              [SwitchBlock
                 [WhileCase ["b"] (core None (Some RIGHT));
                  IfCase ["a"]
                    [basic (Some "") None (Some (TerminationContext ACCEPT))];
                  ElseCase
                    [basic None None (Some (TerminationContext REJECT))]]] |} ]
  |}.

(** The test program [moduleWithIfBlock] of CodeConverter.spec.ts. *)
Definition moduleWithIfBlock : ProgramContext :=
  {| alphabet := ["a"; "b"];
     modules :=
       [ {| identifier := "simple"; params := [];
            blocks :=
              [SwitchBlock
                 [IfCase ["a"] [basic None (Some LEFT) None];
                  WhileCase ["b"] (core None (Some RIGHT));
                  IfCase [""]
                    [basic None (Some RIGHT) None;
                     basic (Some "b") (Some LEFT)
                       (Some (GoToContext "simple" []))]]] |} ] |}.

(** [module m(): if a: move right / move right   else: reject]: the body of
    the if case is two basic blocks, the second without a flow command. *)
Definition ifBodyFallsThrough : ProgramContext :=
  {| alphabet := ["a"];
     modules :=
       [ {| identifier := "m"; params := [];
            blocks :=
              [SwitchBlock
                 [IfCase ["a"]
                    [basic None (Some RIGHT) None;
                     basic None (Some RIGHT) None];
                  ElseCase
                    [basic None None (Some (TerminationContext REJECT))]]] |} ]
  |}.

(** The executor of [acceptAtOnce] on the tape [a] after its only step. *)
Definition acceptedExecutor : CodeExecutor.t :=
  {| CodeExecutor.tape := TMTape.move LEFT (TMTape.change "a" (TMTape.new "a"));
     CodeExecutor._terminationStatus := Some ACCEPT;
     CodeExecutor._program := acceptAtOnce;
     CodeExecutor._currentBlockIndexStack := [0];
     CodeExecutor._currentBlocksStack := [CodeExecutor.blocks_of_main acceptAtOnce];
     CodeExecutor._argumentMapStack := [JsMap.empty];
     CodeExecutor._topLevelModuleStack := [true] |}.


Definition mainOf (program : ProgramContext) : ModuleContext :=
  default {| identifier := ""; params := []; blocks := [] |}
    (head (modules program)).

Definition change (next : string) (written : option string)
    (move : option Direction) : IncompleteTMChange :=
  {| TuringMachine.nextState := next; TuringMachine.letter := written;
     TuringMachine.direction := move |}.

(** What the converter makes of [moduleWithWhile]. *)
Definition moduleWithWhileTM : TuringMachine.t :=
  {| TuringMachine.initialState := "simple-0";
     TuringMachine.states :=
       {[ "simple-0" :=
            VariableTMState
              (<["b" := change "simple-0" None (Some RIGHT)]>
                 (<["a" := change "accept" (Some "") None]>
                    {[ "" := change "reject" None None ]})) ]} |}.


(** What the converter makes of [ifBodyFallsThrough]. *)
Definition ifBodyFallsThroughTM : TuringMachine.t :=
  {| TuringMachine.initialState := "m-0";
     TuringMachine.states :=
       <["m-0" :=
           VariableTMState
             (<["a" := change "m-0-a-1" None (Some RIGHT)]>
                {[ "" := change "reject" None None ]})]>
         {[ "m-0-a-1" :=
              ConstantTMState (change "m-0-a-2" None (Some RIGHT)) ]} |}.




(** The switch block of the module [m] of [collide]. *)
Definition collideSwitch : NormalBlockContext :=
  SwitchBlock
    [IfCase ["a"] [basic None None (Some (GoToContext "k" []))];
     WhileCase ["b"] (core None (Some RIGHT));
     ElseCase [basic None None (Some (TerminationContext REJECT))]].

(** [module main(): move right / goto m(b, a)   module m(x, x): if a: goto
    k() / while b: move right / else: reject   module k(): goto m(b, a)]:
    the two parameters of [m] have the same name, as in
    [repeatedParameter], and the module is lowered a second time while its
    switch block is being lowered. *)
Definition collide : ProgramContext :=
  {| alphabet := ["a"; "b"];
     modules :=
       [ {| identifier := "main"; params := [];
            blocks :=
              [basic None (Some RIGHT) (Some (GoToContext "m" ["b"; "a"]))] |};
         {| identifier := "m"; params := ["x"; "x"];
            blocks := [collideSwitch] |};
         {| identifier := "k"; params := [];
            blocks := [basic None None (Some (GoToContext "m" ["b"; "a"]))] |} ]
  |}.

(** What the converter makes of [collide]. *)
Definition collideTM : TuringMachine.t :=
  {| TuringMachine.initialState := "main-0";
     TuringMachine.states :=
       <["main-0" := ConstantTMState (change "m-b,a-0" None (Some RIGHT))]>
         (<["k-0" := ConstantTMState (change "m-b,a-0" None None)]>
            (<["m-a-0" :=
                 VariableTMState
                   (<["a" := change "k-0" None None]>
                      (<["b" := change "m-a-2" None (Some RIGHT)]>
                         {[ "" := change "reject" None None ]}))]>
               {[ "m-a-1" :=
                    VariableTMState
                      (<["a" := change "k-0" None None]>
                         (<["b" := change "m-a-1" None (Some RIGHT)]>
                            {[ "" := change "reject" None None ]})) ]})) |}.

(** The tape [a] after the two steps of [ifBodyFallsThrough]: [a] is written
    back, the head moves right, blank is written, the head moves right. *)
Definition tapeAfterTwoSteps : TMTape.t :=
  TMTape.move RIGHT
    (TMTape.change ""
       (TMTape.move RIGHT (TMTape.change "a" (TMTape.new "a")))).

(** The executor of [ifBodyFallsThrough] on the tape [a] after two steps:
    every frame is popped and the status is reject. *)
Definition rejectedExecutor : CodeExecutor.t :=
  {| CodeExecutor.tape := tapeAfterTwoSteps;
     CodeExecutor._terminationStatus := Some REJECT;
     CodeExecutor._program := ifBodyFallsThrough;
     CodeExecutor._currentBlockIndexStack := [];
     CodeExecutor._currentBlocksStack := [];
     CodeExecutor._argumentMapStack := [];
     CodeExecutor._topLevelModuleStack := [] |}.

(** The executor [new CodeExecutor(value, program)] builds. *)
Definition freshExecutor (value : string) (program : ProgramContext)
    : CodeExecutor.t :=
  {| CodeExecutor.tape := TMTape.new value;
     CodeExecutor._terminationStatus := None;
     CodeExecutor._program := program;
     CodeExecutor._currentBlockIndexStack := [0];
     CodeExecutor._currentBlocksStack := [blocks (mainOf program)];
     CodeExecutor._argumentMapStack := [JsMap.empty];
     CodeExecutor._topLevelModuleStack := [true] |}.

Definition token (value : string) (line : nat) (stack : list Z)
    : CodeWrapper.Token :=
  {| CodeWrapper.tokenValue := value;
     CodeWrapper.startLineNumber := line;
     CodeWrapper.tokenIndentationStack := stack |}.


(** [goto twice(a, b)] *)
Definition gotoTwice : NormalBlockContext :=
  basic None None (Some (GoToContext "twice" ["a"; "b"])).

(** [module twice(x, x): goto twice(a, b)]: both parameters have the same
    name. *)
Definition twice : ModuleContext :=
  {| identifier := "twice"; params := ["x"; "x"]; blocks := [gotoTwice] |}.

(** [module main(): goto twice(a, b)] followed by [twice]. *)
Definition repeatedParameter : ProgramContext :=
  {| alphabet := ["a"; "b"];
     modules :=
       [ {| identifier := "main"; params := []; blocks := [gotoTwice] |};
         twice ] |}.

(** The converter at the switch block of [moduleWithIfBlock], after
    [visitProgram] and the first lines of [visitModule]. *)
Definition atSwitchBlock : CodeConverter.t :=
  {| CodeConverter._turingMachine :=
       {| TuringMachine.initialState := "simple-0";
          TuringMachine.states := ∅ |};
     CodeConverter._currentBlocksStack := [blocks (mainOf moduleWithIfBlock)];
     CodeConverter._currentBlockIndexStack := [0];
     CodeConverter._argumentMapStack := [JsMap.empty];
     CodeConverter._identifierStack := ["simple"];
     CodeConverter._idToModule :=
       {[ "simple" := mainOf moduleWithIfBlock ]};
     CodeConverter._constructedModules := [("simple", [[]])];
     CodeConverter._identifierIndexMap := {[ "simple" := 0 ]} |}.

(** The executor of [ifBodyFallsThrough] inside the body of [if a], at its
    second and last block, with the module frame below at its only block. *)
Definition atLastBlockOfBody : CodeExecutor.t :=
  {| CodeExecutor.tape := TMTape.new "a";
     CodeExecutor._terminationStatus := None;
     CodeExecutor._program := ifBodyFallsThrough;
     CodeExecutor._currentBlockIndexStack := [1; 0];
     CodeExecutor._currentBlocksStack :=
       [ [basic None (Some RIGHT) None;
          basic None (Some RIGHT) None];
         blocks (mainOf ifBodyFallsThrough) ];
     CodeExecutor._argumentMapStack := [JsMap.empty];
     CodeExecutor._topLevelModuleStack := [false; true] |}.

(** The tokens of one line, and a parser that stands on [value] with the
    tokens [rest] of the same line still to come. *)
Definition lineOf (values : list string) : list CodeWrapper.Token :=
  map (λ value, token value 1 [0%Z]) values.

Definition standingOn (value : string) (rest : list string) : CodeParser.t :=
  {| CodeParser._wrapper := {| CodeWrapper.current := Some (token value 1 [0%Z]);
                    CodeWrapper.remaining := lineOf rest |};
     CodeParser.reachedEnd := false |}.

End Samples.

(** * Part II: properties *)


(** ** The interpreter *)
Module ExecutorFacts.
Import CodeExecutor.

Lemma loop_frameInRange blocksStack :
  ∀ indexStack argumentMapStack moduleStack
    blocksStack' indexStack' argumentMapStack' moduleStack',
  _incrementIndexAndPop_loop blocksStack indexStack argumentMapStack
    moduleStack
  = Ok (blocksStack', indexStack', argumentMapStack', moduleStack') →
  blocksStack' = [] ∨
  ∃ currentBlocks rest currentBlockIndex indexRest,
    blocksStack' = currentBlocks :: rest ∧
    indexStack' = currentBlockIndex :: indexRest ∧
    currentBlockIndex < length currentBlocks.
Proof.
  induction blocksStack as [|currentBlocks blocksStack IH];
    intros indexStack argumentMapStack moduleStack bs' is' as' ms' Hloop;
    simpl in Hloop.
  - left. congruence.
  - destruct indexStack as [|i indexStack]; [discriminate|].
    destruct moduleStack as [|m moduleStack]; [discriminate|].
    case_bool_decide as Hlt.
    + right. inversion Hloop; subst.
      exists currentBlocks, blocksStack, (i + 1), indexStack.
      split_and!; [done|done|lia].
    + eapply IH, Hloop.
Qed.

Lemma _findNextBlock_frameInRange program block e e' :
  modulesHaveBlocks program →
  _program e = program →
  _terminationStatus e = None →
  _findNextBlock block e = Ok e' →
  _program e' = program ∧ frameInRange e'.
Proof.
  intros Hblocks Hprog Hstatus Hnext. unfold _findNextBlock in Hnext.
  destruct (flowCommand block) as [[identifier args|state]|].
  - destruct (find _ _) as [nextModule|] eqn:Hfind; [|discriminate].
    inversion Hnext; subst e'; clear Hnext. split; [done|].
    intros _. simpl.
    apply find_some in Hfind as [Hin _]. rewrite Hprog in Hin.
    unfold modulesHaveBlocks in Hblocks. rewrite Forall_forall in Hblocks.
    apply list_elem_of_In, Hblocks in Hin.
    exists (blocks nextModule), (_currentBlocksStack e), 0,
      (_currentBlockIndexStack e).
    split_and!; [done|done|].
    destruct (blocks nextModule); [done|simpl; lia].
  - inversion Hnext; subst e'. split; [done|]. intros Hnone. discriminate.
  - unfold _incrementIndexAndPop in Hnext.
    destruct (_incrementIndexAndPop_loop _ _ _ _)
      as [[[[bs' is'] as'] ms']| |] eqn:Hloop; simpl in Hnext;
      [|discriminate..].
    apply loop_frameInRange in Hloop.
    inversion Hnext; subst e'; clear Hnext. simpl.
    destruct Hloop as [->|(cb & rest & i & irest & -> & -> & Hlt)].
    + split; [done|]. intros Hnone. discriminate.
    + split; [done|]. intros _. simpl. eauto 10.
Qed.

Lemma execute_frameInRange program e e' :
  modulesHaveBlocks program →
  _program e = program → frameInRange e → steps_to e e' →
  _program e' = program ∧ frameInRange e'.
Proof.
  intros Hblocks Hprog Hinv [b Hexec]. unfold execute in Hexec.
  unfold terminationStatus in Hexec.
  destruct (_terminationStatus e) as [s|] eqn:Hstatus.
  { inversion Hexec; subst. done. }
  destruct (_findExecutionBlock _ e) as [[executionBlock e1]| |] eqn:Hfind;
    simpl in Hexec; [|discriminate..].
  assert (_program e1 = program ∧ _terminationStatus e1 = None ∧
          (∀ block, executionBlock = ExecCore block → e1 = e))
    as (Hprog1 & Hstatus1 & Hcore).
  { unfold _findExecutionBlock in Hfind.
    destruct (currentBlock e) as [[[block|cases]|]| |]; simpl in Hfind;
      try discriminate.
    - inversion Hfind; subst. done.
    - destruct (_currentArgumentMap e); simpl in Hfind; [|discriminate].
      destruct (find _ cases) as [caseBlock|]; [|discriminate].
      destruct (firstBlock caseBlock) eqn:Hfirst; [|discriminate].
      inversion Hfind; subst; clear Hfind.
      destruct caseBlock as [values [|[first|] rest]|values core
                            |[|[first|] rest]];
        simpl in *; try discriminate; split_and!; try done;
        intros block' ->; discriminate. }
  destruct executionBlock as [block|block].
  - destruct (_findNextBlock block _) as [e3| |] eqn:Hnext;
      simpl in Hexec; [|discriminate..].
    inversion Hexec; subst; clear Hexec.
    eapply _findNextBlock_frameInRange in Hnext; eauto.
  - inversion Hexec; subst; clear Hexec. split; [done|].
    rewrite (Hcore block eq_refl). intros _. simpl. by apply Hinv.
Qed.

Lemma executeTimes_terminated status e n :
  terminationStatus e = Some status →
  executeTimes n e = Ok (replicate n false, e).
Proof.
  intros Hstatus. induction n as [|n IH]; simpl; [done|].
  unfold execute at 1. rewrite Hstatus. simpl. by rewrite IH.
Qed.

Lemma reachable_frameInRange program value e :
  modulesHaveBlocks program → reachable program value e →
  _program e = program ∧ frameInRange e.
Proof.
  intros Hblocks Hreach. induction Hreach as [e Hnew|e e' _ [Hprog Hinv] Hstep].
  - unfold new in Hnew. destruct (_validateTapeValue _ _); try discriminate.
    simpl in Hnew. destruct (modules program) as [|main rest] eqn:Hmods;
      [discriminate|].
    inversion Hnew; subst e; clear Hnew. split; [done|]. intros _. simpl.
    unfold modulesHaveBlocks in Hblocks. rewrite Hmods in Hblocks.
    apply Forall_cons in Hblocks as [Hmain _].
    exists (blocks main), [], 0, []. split_and!; [done|done|].
    destruct (blocks main); [done|simpl; lia].
  - by eapply execute_frameInRange.
Qed.

(** C10.  Once the termination status is set, every later call of [execute]
    returns [false] at once and leaves the executor (tape, frame stacks and
    status) as it was; and on every executor reached from the constructor,
    [currentBlock] is [undefined] exactly when the termination status is
    defined. *)
Theorem C10_execute_is_idle_after_termination program value e :
  modulesHaveBlocks program →
  reachable program value e →
  (∀ status n,
     terminationStatus e = Some status →
     execute e = Ok (false, e) ∧
     executeTimes n e = Ok (replicate n false, e)) ∧
  (currentBlock e = Ok None ↔ terminationStatus e ≠ None).
Proof.
  intros Hblocks Hreach. split.
  - intros status n Hstatus. split.
    + unfold execute. by rewrite Hstatus.
    + by eapply executeTimes_terminated.
  - destruct (reachable_frameInRange _ _ _ Hblocks Hreach) as [_ Hinv].
    unfold currentBlock, terminationStatus.
    destruct (_terminationStatus e) as [status|] eqn:Hstatus.
    + split; [intros _; discriminate|done].
    + destruct (Hinv Hstatus) as (bs & bss & i & idxs & -> & -> & Hlt).
      split; [|done]. intros Hnone. exfalso.
      apply lookup_lt_is_Some_2 in Hlt as [block Hblock].
      rewrite Hblock in Hnone. discriminate.
Qed.

Lemma C10_witness :
  (execute Samples.acceptedExecutor = Ok (false, Samples.acceptedExecutor) ∧
   executeTimes 3 Samples.acceptedExecutor
   = Ok ([false; false; false], Samples.acceptedExecutor)) ∧
  (currentBlock Samples.acceptedExecutor = Ok None ↔
   terminationStatus Samples.acceptedExecutor ≠ None).
Proof.
  assert (modulesHaveBlocks Samples.acceptAtOnce) as Hblocks.
  { repeat constructor; done. }
  assert (reachable Samples.acceptAtOnce "a" Samples.acceptedExecutor)
    as Hreach.
  { eapply reachable_step.
    - apply reachable_new. reflexivity.
    - exists true. vm_compute. reflexivity. }
  destruct (C10_execute_is_idle_after_termination _ _ _ Hblocks Hreach)
    as [Hidle Hcurrent].
  split; [|exact Hcurrent].
  exact (Hidle ACCEPT 3 eq_refl).
Defined.

(** A step that takes a goto pushes the target module's body as a new module
    frame, at index 0, and one argument map. *)
Lemma _findNextBlock_goto_pushes_frame block identifier args e e' :
  flowCommand block = Some (GoToContext identifier args) →
  _findNextBlock block e = Ok e' →
  ∃ nextModule,
    find (λ module, String.eqb (Contexts.identifier module) identifier)
      (modules (_program e)) = Some nextModule ∧
    _currentBlocksStack e' = blocks nextModule :: _currentBlocksStack e ∧
    _currentBlockIndexStack e' = 0 :: _currentBlockIndexStack e ∧
    _topLevelModuleStack e' = true :: _topLevelModuleStack e ∧
    _argumentMapStack e'
    = _generateArgumentMap (params nextModule) args JsMap.empty
      :: _argumentMapStack e.
Proof.
  intros Hflow Hnext. unfold _findNextBlock in Hnext. rewrite Hflow in Hnext.
  destruct (find _ _) as [nextModule|]; [|discriminate].
  inversion Hnext; subst e'. by exists nextModule.
Qed.

(** C3 (the claim as stated fails).  In [gotoWithArgument] the entry module
    calls [b(a)] and [b] has the parameter [x].  The step that takes the goto
    pushes [b]'s body as a new module frame, and the map it pushes leads from
    the argument [a] to the parameter [x]: it does not bind the parameter [x]
    to the argument [a]. *)
Lemma C3_counterexample :
  ∃ e e',
    new "a" Samples.gotoWithArgument = Ok e ∧
    execute e = Ok (true, e') ∧
    length (_currentBlocksStack e') = 2 ∧
    _topLevelModuleStack e' = [true; true] ∧
    _currentArgumentMap e' = Some [("a", "x")] ∧
    JsMap.get [("a", "x")] "x" = None ∧
    ¬ ExecutorSpec.bindsParameters ["x"] ["a"] [("a", "x")].
Proof.
  eexists _, _. split; [reflexivity|].
  split; [vm_compute; reflexivity|].
  split_and!; try reflexivity.
  intros Hbinds. specialize (Hbinds 0 "x" "a" eq_refl eq_refl).
  discriminate.
Qed.

(** The runs CodeExecutor.spec.ts expects of the palindrome program: the
    tape ab is rejected at the second step, the tape aba is accepted (at the
    second step the head reads [a], which the map of [check(a)] leads to the
    trigger value [x]). *)
Lemma palindrome_runs :
  (∃ e e', new "ab" Samples.palindrome = Ok e ∧
           executeTimes 3 e = Ok ([true; true; false], e') ∧
           terminationStatus e' = Some REJECT) ∧
  (∃ e e', new "aba" Samples.palindrome = Ok e ∧
           executeTimes 6 e
           = Ok ([true; true; true; true; true; false], e') ∧
           terminationStatus e' = Some ACCEPT).
Proof.
  split; eexists _, _; (split; [reflexivity|]);
    (split; [vm_compute; reflexivity|reflexivity]).
Qed.

End ExecutorFacts.

(** ** The parser's controlled advance *)
Module ParserFacts.
Import CodeParser.

Lemma _moveNext_advance fuel deIndentAllowed indentAllowed shouldThrow p p' :
  _moveNext fuel deIndentAllowed indentAllowed shouldThrow p = Ok p' →
  advance fuel p = Ok p'.
Proof.
  unfold _moveNext. destruct (advance fuel p) as [p1| |]; simpl;
    [|discriminate..].
  repeat case_match; try discriminate. congruence.
Qed.



End ParserFacts.

(** ** The validator that requires an else case *)
Module ValidatorElseFacts.
Import Messages CodeValidatorElse.

Section Switch.
Variables (alphabet : list string) (moduleNames : gmap string nat).
Variable parameters : list string.

Local Abbreviation scanLetters := (scanLetters alphabet parameters).
Local Abbreviation scanCases := (scanCases alphabet parameters).
Local Abbreviation knownValue := (knownValue alphabet parameters).
Local Abbreviation usesParameter := (usesParameter parameters).

Lemma scanLetters_seen values : ∀ alphabetSet seen alphabetSet' seen',
  scanLetters values alphabetSet seen = Ok (alphabetSet', seen') →
  seen' = seen || usesParameter values.
Proof.
  induction values as [|letter values IH]; intros S seen S' seen' Hscan;
    simpl in *.
  - inversion Hscan. by rewrite orb_false_r.
  - destruct (setHas parameters letter) eqn:Hparam.
    + apply IH in Hscan. rewrite Hscan. simpl. by rewrite orb_true_r.
    + destruct (negb _ && negb _); [discriminate|].
      apply IH in Hscan. by rewrite Hscan.
Qed.

Lemma scanLetters_known values : ∀ alphabetSet seen,
  Forall knownValue values →
  is_Ok (scanLetters values alphabetSet seen).
Proof.
  induction values as [|letter values IH]; intros S seen Hknown; simpl.
  - by eexists.
  - apply Forall_cons in Hknown as [Hletter Hknown].
    destruct (setHas parameters letter) eqn:Hparam; [by apply IH|].
    assert (negb (letter =? "")%string
            && negb (CodeValidatorElse.setHas alphabet (letterName letter))
            = false) as ->; [|by apply IH].
    destruct Hletter as [->|[Hin|Hin]].
    + done.
    + unfold letterName. destruct (String.eqb letter "") eqn:Heq; [done|].
      simpl. unfold setHas. by rewrite bool_decide_eq_true_2.
    + unfold setHas in Hparam. by rewrite bool_decide_eq_true_2 in Hparam.
Qed.

Lemma scanCases_without_else cases : ∀ alphabetSet seenElse seen r,
  Forall (λ c, isElseCase c = false) cases →
  scanCases cases alphabetSet seenElse seen = Ok r →
  r.1.2 = seenElse ∧ r.2 = seen || usesParameter (switchValues cases).
Proof.
  induction cases as [|c cases IH]; intros S seenElse seen r Hno Hscan;
    simpl in *.
  - inversion Hscan. simpl. by rewrite orb_false_r.
  - apply Forall_cons in Hno as [Hc Hno].
    unfold usesParameter. rewrite existsb_app.
    destruct c as [values blocks|values block|blocks]; simpl in *;
      try discriminate.
    all: destruct (scanLetters values S seen) as [[S1 seen1]| |] eqn:Hletters;
      simpl in Hscan; try discriminate.
    all: apply scanLetters_seen in Hletters as ->.
    all: apply IH in Hscan as [-> ->]; [|done].
    all: by rewrite orb_assoc.
Qed.

Lemma scanCases_known_without_else cases : ∀ alphabetSet seenElse seen,
  Forall (λ c, isElseCase c = false) cases →
  Forall knownValue (switchValues cases) →
  is_Ok (scanCases cases alphabetSet seenElse seen).
Proof.
  induction cases as [|c cases IH]; intros S seenElse seen Hno Hknown;
    simpl in *.
  - by eexists.
  - apply Forall_cons in Hno as [Hc Hno].
    apply Forall_app in Hknown as [Hvalues Hknown].
    destruct c as [values blocks|values block|blocks]; simpl in *;
      try discriminate.
    all: destruct (scanLetters_known values S seen Hvalues) as [[S1 seen1] ->].
    all: simpl; by apply IH.
Qed.

Lemma scanCases_else_last front : ∀ blocks alphabetSet seenElse seen,
  Forall (λ c, isElseCase c = false) front →
  Forall knownValue (switchValues front) →
  ∃ alphabetSet' seen',
    scanCases (front ++ [ElseCase blocks]) alphabetSet seenElse seen
    = Ok (alphabetSet', true, seen').
Proof.
  induction front as [|c front IH]; intros blocks S seenElse seen Hno Hknown;
    simpl in *.
  - by eexists _, _.
  - apply Forall_cons in Hno as [Hc Hno].
    apply Forall_app in Hknown as [Hvalues Hknown].
    destruct c as [values body|values block|body]; simpl in *;
      try discriminate.
    all: destruct (scanLetters_known values S seen Hvalues) as [[S1 seen1] ->].
    all: simpl; by apply IH.
Qed.

Lemma switchValues_app front back :
  switchValues (front ++ back) = switchValues front ++ switchValues back.
Proof. unfold switchValues. by rewrite flat_map_app. Qed.

(** C4.  In a switch block one of whose if or while cases is triggered by a
    parameter of the module: without an else case the validator never accepts
    the block, and once the trigger values are known and the cases themselves
    validate, what it raises is the "must have an else case" error; with an
    else case (the last case) the same block is accepted, whatever letters
    its cases leave uncovered. *)
Theorem C4_parameter_trigger_requires_else cases :
  (∃ value, value ∈ switchValues cases ∧ value ∈ parameters) →
  (Forall (λ c, isElseCase c = false) cases →
   ¬ is_Ok (visitSwitchBlock alphabet moduleNames parameters cases) ∧
   (Forall knownValue (switchValues cases) →
    visitAllWith (visitCase alphabet moduleNames parameters) cases = Ok () →
    visitSwitchBlock alphabet moduleNames parameters cases
    = Throw elseRequired)) ∧
  (∀ front blocks,
     cases = front ++ [ElseCase blocks] →
     Forall (λ c, isElseCase c = false) front →
     Forall knownValue (switchValues cases) →
     visitAllWith (visitCase alphabet moduleNames parameters) cases = Ok () →
     visitSwitchBlock alphabet moduleNames parameters cases = Ok ()).
Proof.
  intros (value & Hvalue & Hparam).
  assert (usesParameter (switchValues cases) = true) as Huses.
  { unfold usesParameter. apply existsb_exists. exists value.
    split; [by apply list_elem_of_In|].
    unfold setHas. by rewrite bool_decide_eq_true_2. }
  unfold visitSwitchBlock, visitSwitchBlockWith, visitCase. split.
  - intros Hno. split.
    + intros [[] Hok].
      destruct (scanCases cases _ false false)
        as [[[S seenElse] seen]| |] eqn:Hscan; simpl in Hok;
        [|discriminate..].
      apply scanCases_without_else in Hscan as [HseenElse Hseen]; [|done].
      simpl in *. subst. rewrite Huses in Hok.
      destruct (visitAllWith _ cases); simpl in Hok; discriminate.
    + intros Hknown Hvisit. unfold visitCase in Hvisit.
      destruct (scanCases_known_without_else cases
                  (initialAlphabetSet alphabet parameters) false false
                  Hno Hknown) as [[[S seenElse] seen] Hscan].
      rewrite Hscan. simpl.
      apply scanCases_without_else in Hscan as [HseenElse Hseen]; [|done].
      simpl in *. subst. rewrite Huses, Hvisit. done.
  - intros front blocks -> Hno Hknown Hvisit. unfold visitCase in Hvisit.
    rewrite switchValues_app in Hknown.
    apply Forall_app in Hknown as [Hknown _].
    destruct (scanCases_else_last front blocks
                (initialAlphabetSet alphabet parameters) false false
                Hno Hknown) as (S & seen & Hscan).
    rewrite Hscan. simpl. rewrite Hvisit. simpl.
    by rewrite andb_false_r.
Qed.

End Switch.

(** The test program [parametrisedWithParameterSwitch] of
    CodeValidator.spec.ts, module [b(x)]: [if a: move left], then
    [if b, x: move right]; and the same cases followed by [else: reject]. *)
Lemma C4_witness :
  visitSwitchBlock ["a"; "b"] ∅ ["x"]
    [IfCase ["a"] [Samples.basic None (Some LEFT) None];
     IfCase ["b"; "x"] [Samples.basic None (Some RIGHT) None]]
  = Throw elseRequired ∧
  visitSwitchBlock ["a"; "b"] ∅ ["x"]
    ([IfCase ["a"] [Samples.basic None (Some LEFT) None];
      IfCase ["b"; "x"] [Samples.basic None (Some RIGHT) None]]
     ++ [ElseCase
           [Samples.basic None None (Some (TerminationContext REJECT))]])
  = Ok ().
Proof.
  split.
  - apply C4_parameter_trigger_requires_else.
    + exists "x". simpl. set_solver.
    + repeat constructor.
    + unfold CodeValidatorElse.knownValue. simpl.
      repeat first [apply Forall_nil_2 | apply Forall_cons_2]; set_solver.
    + reflexivity.
  - eapply C4_parameter_trigger_requires_else.
    + exists "x". simpl. set_solver.
    + reflexivity.
    + repeat constructor.
    + unfold CodeValidatorElse.knownValue. simpl.
      repeat first [apply Forall_nil_2 | apply Forall_cons_2]; set_solver.
    + reflexivity.
Defined.

End ValidatorElseFacts.

(** ** The validator of CodeValidator.ts *)
Module ValidatorFacts.
Import Messages CodeValidator.

Lemma elem_of_setDelete alphabetSet letter value :
  value ∈ CodeConverter.setDelete alphabetSet letter
  ↔ value ∈ alphabetSet ∧ value ≠ letter.
Proof. unfold CodeConverter.setDelete. by rewrite list_elem_of_filter, (comm and). Qed.

Lemma elem_of_foldl_setDelete values : ∀ alphabetSet value,
  value ∈ foldl CodeConverter.setDelete alphabetSet values
  ↔ value ∈ alphabetSet ∧ value ∉ values.
Proof.
  induction values as [|letter values IH]; intros alphabetSet value; simpl.
  - rewrite elem_of_nil. tauto.
  - rewrite IH, elem_of_setDelete, not_elem_of_cons. tauto.
Qed.

Lemma unclaimed_nil alphabetSet : unclaimed alphabetSet [].
Proof.
  split; [constructor|]. intros value Hvalue. by apply elem_of_nil in Hvalue.
Qed.

Lemma unclaimed_cons alphabetSet letter values :
  unclaimed alphabetSet (letter :: values)
  ↔ letter ∈ alphabetSet
    ∧ unclaimed (CodeConverter.setDelete alphabetSet letter) values.
Proof.
  unfold unclaimed. rewrite NoDup_cons. split.
  - intros [[Hnotin Hnodup] Hin]. split; [apply Hin; by left|].
    split; [done|]. intros value Hvalue. apply elem_of_setDelete.
    split; [apply Hin; by right|]. intros ->. done.
  - intros [Hletter [Hnodup Hin]]. split; [split; [|done]|].
    + intros Hvalues. apply Hin in Hvalues.
      apply elem_of_setDelete in Hvalues as [_ Hne]. done.
    + intros value Hvalue.
      apply elem_of_cons in Hvalue as [->|Hvalue]; [done|].
      apply Hin in Hvalue. by apply elem_of_setDelete in Hvalue as [? _].
Qed.

Lemma unclaimed_app alphabetSet values values' :
  unclaimed alphabetSet (values ++ values')
  ↔ unclaimed alphabetSet values
    ∧ unclaimed (foldl CodeConverter.setDelete alphabetSet values) values'.
Proof.
  revert alphabetSet.
  induction values as [|letter values IH]; intros alphabetSet; simpl.
  - split; [intros H; split; [apply unclaimed_nil|done]|by intros [_ H]].
  - rewrite !unclaimed_cons, IH. tauto.
Qed.

#[local] Instance unclaimed_dec alphabetSet values :
  Decision (unclaimed alphabetSet values).
Proof.
  unfold unclaimed.
  apply and_dec; [apply _|].
  destruct (decide (Forall (λ value, value ∈ alphabetSet) values)) as [H|H].
  - left. by apply Forall_forall.
  - right. by rewrite <- Forall_forall.
Defined.

Section Switch.
Variables (alphabet : list string) (moduleNames : gmap string nat).
Variable parameters : list string.

Local Abbreviation checkLetters := (checkLetters alphabet).
Local Abbreviation visit := (visit alphabet moduleNames parameters).
Local Abbreviation visitCase := (visitCase alphabet moduleNames parameters).
Local Abbreviation visitCasesWith := (visitCasesWith alphabet).

Local Abbreviation symbolValue := (symbolValue alphabet).

Lemma checkLetters_Ok values : ∀ alphabetSet alphabetSet',
  checkLetters values alphabetSet = Ok alphabetSet' →
  alphabetSet' = foldl CodeConverter.setDelete alphabetSet values ∧
  unclaimed alphabetSet values ∧ Forall symbolValue values.
Proof.
  induction values as [|letter values IH]; intros S S' Hcheck; simpl in *.
  - inversion Hcheck. split_and!; [done|apply unclaimed_nil|done].
  - destruct (negb (letter =? "")%string
              && negb (setHas alphabet (letterName letter))) eqn:Hsymbol;
      [discriminate|].
    destruct (setHas S letter) eqn:Hin; simpl in Hcheck; [|discriminate].
    apply IH in Hcheck as (-> & Hunclaimed & Hsymbols).
    unfold setHas in Hin. apply bool_decide_eq_true_1 in Hin.
    split_and!; [done|by apply unclaimed_cons|].
    apply Forall_cons. split; [|done].
    unfold symbolValue, letterName, setHas in *.
    destruct (String.eqb_spec letter ""); [by left|right].
    simpl in Hsymbol. apply negb_false_iff in Hsymbol.
    by apply bool_decide_eq_true_1 in Hsymbol.
Qed.

Lemma checkLetters_claimed values : ∀ alphabetSet,
  Forall symbolValue values →
  ¬ unclaimed alphabetSet values →
  ∃ letter, letter ∈ values ∧
    checkLetters values alphabetSet = Throw (multipleCases (letterName letter)).
Proof.
  induction values as [|letter values IH]; intros S Hsymbols Hclaimed;
    simpl in *.
  - destruct Hclaimed. apply unclaimed_nil.
  - apply Forall_cons in Hsymbols as [Hsymbol Hsymbols].
    assert (negb (letter =? "")%string
            && negb (setHas alphabet (letterName letter)) = false) as ->.
    { unfold letterName, setHas.
      destruct Hsymbol as [->|Hin]; [done|].
      destruct (String.eqb letter ""); [done|]. simpl.
      by rewrite bool_decide_eq_true_2. }
    unfold setHas. case_bool_decide as Hin; simpl.
    + destruct (IH (CodeConverter.setDelete S letter) Hsymbols)
        as (letter' & Hletter' & ->).
      { intros Hunclaimed. apply Hclaimed. by apply unclaimed_cons. }
      exists letter'. split; [by right|done].
    + exists letter. split; [by left|done].
Qed.

Lemma checkLetters_unclaimed values : ∀ alphabetSet,
  Forall symbolValue values →
  unclaimed alphabetSet values →
  checkLetters values alphabetSet
  = Ok (foldl CodeConverter.setDelete alphabetSet values).
Proof.
  induction values as [|letter values IH]; intros S Hsymbols Hunclaimed;
    simpl in *; [done|].
  apply Forall_cons in Hsymbols as [Hsymbol Hsymbols].
  apply unclaimed_cons in Hunclaimed as [Hin Hunclaimed].
  assert (negb (letter =? "")%string
          && negb (setHas alphabet (letterName letter)) = false) as ->.
  { unfold letterName, setHas.
    destruct Hsymbol as [->|Hin']; [done|].
    destruct (String.eqb letter ""); [done|]. simpl.
    by rewrite bool_decide_eq_true_2. }
  unfold setHas. rewrite bool_decide_eq_true_2 by done. simpl.
  by apply IH.
Qed.

Lemma visitCases_claimed cases : ∀ alphabetSet seenElse hasFlow,
  Forall symbolValue (switchValues cases) →
  elseOnlyLast cases →
  Forall (λ c, is_Ok (visitCase c)) cases →
  ¬ unclaimed alphabetSet (switchValues cases) →
  ∃ letter, letter ∈ switchValues cases ∧
    visitCasesWith visit cases alphabetSet seenElse hasFlow
    = Throw (multipleCases (letterName letter)).
Proof.
  induction cases as [|c cases IH];
    intros S seenElse hasFlow Hsymbols Helse Hvisit Hclaimed; simpl in *.
  - destruct Hclaimed. apply unclaimed_nil.
  - apply Forall_app in Hsymbols as [Hvalues Hsymbols].
    destruct Helse as [Hlast Helse].
    apply Forall_cons in Hvisit as [[flow Hc] Hvisit].
    rewrite unclaimed_app in Hclaimed.
    destruct (decide (unclaimed S (caseValues c))) as [Hfirst|Hfirst].
    + assert (¬ unclaimed (foldl CodeConverter.setDelete S (caseValues c))
                  (switchValues cases)) as Hrest by tauto.
      destruct c as [values blocks|values block|blocks]; simpl in *.
      * rewrite (checkLetters_unclaimed _ _ Hvalues Hfirst). simpl.
        unfold CodeValidator.visitCase in Hc. simpl in Hc. rewrite Hc. simpl.
        destruct (IH _ seenElse (flow || hasFlow) Hsymbols Helse Hvisit Hrest)
          as (letter & Hletter & Hthrow).
        exists letter. split; [apply elem_of_app; by right|done].
      * rewrite (checkLetters_unclaimed _ _ Hvalues Hfirst). simpl.
        destruct (IH _ seenElse hasFlow Hsymbols Helse Hvisit Hrest)
          as (letter & Hletter & Hthrow).
        exists letter. split; [apply elem_of_app; by right|done].
      * rewrite (Hlast eq_refl) in Hrest. destruct Hrest.
        apply unclaimed_nil.
    + destruct c as [values blocks|values block|blocks]; simpl in *.
      * destruct (checkLetters_claimed _ _ Hvalues Hfirst)
          as (letter & Hletter & ->).
        exists letter. split; [apply elem_of_app; by left|done].
      * destruct (checkLetters_claimed _ _ Hvalues Hfirst)
          as (letter & Hletter & ->).
        exists letter. split; [apply elem_of_app; by left|done].
      * destruct Hfirst. apply unclaimed_nil.
Qed.

Lemma visitCases_Ok_without_else cases : ∀ alphabetSet hasFlow flow,
  Forall (λ c, isElseCase c = false) cases →
  visitCasesWith visit cases alphabetSet false hasFlow = Ok flow →
  unclaimed alphabetSet (switchValues cases) ∧
  Forall symbolValue (switchValues cases) ∧
  foldl CodeConverter.setDelete alphabetSet (switchValues cases) = [].
Proof.
  induction cases as [|c cases IH]; intros S hasFlow flow Hno Hok;
    simpl in *.
  - destruct S; simpl in Hok; [|discriminate].
    split_and!; [apply unclaimed_nil|done|done].
  - apply Forall_cons in Hno as [Hc Hno].
    destruct c as [values blocks|values block|blocks]; simpl in *;
      try discriminate.
    all: destruct (checkLetters values S) as [S'| |] eqn:Hcheck;
      simpl in Hok; try discriminate.
    all: apply checkLetters_Ok in Hcheck as (-> & Hunclaimed & Hsymbols).
    all: match type of Hok with
         | rbind ?r _ = _ => destruct r as [flow'| |]; simpl in Hok;
                             try discriminate
         | _ => idtac
         end.
    all: apply IH in Hok as (Hrest & Hsymbols' & Hempty); [|done].
    all: rewrite unclaimed_app, foldl_app, Forall_app; done.
Qed.

Lemma symbolValue_initial value :
  symbolValue value → value ∈ initialAlphabetSet alphabet parameters.
Proof.
  intros Hsymbol. unfold initialAlphabetSet.
  assert (∀ ps s, value ∈ s → value ∈ foldl CodeConverter.setAdd s ps)
    as Hfold.
  { induction ps as [|p' ps IHps]; intros s Hs; simpl; [done|].
    apply IHps. unfold CodeConverter.setAdd.
    case_bool_decide; [done|]. apply elem_of_app. by left. }
  apply Hfold. unfold CodeConverter.setAdd.
  case_bool_decide as Hblank.
  - destruct Hsymbol as [->|Hsymbol]; done.
  - apply elem_of_app. destruct Hsymbol as [->|Hsymbol];
      [right; by left|by left].
Qed.

Lemma checkLetters_notInAlphabet before value after : ∀ alphabetSet,
  Forall symbolValue before →
  unclaimed alphabetSet before →
  ¬ symbolValue value →
  checkLetters (before ++ value :: after) alphabetSet
  = Throw (notInAlphabet value).
Proof.
  induction before as [|letter before IH]; intros S Hsymbols Hunclaimed Hvalue;
    simpl.
  - unfold symbolValue in Hvalue. unfold letterName, setHas.
    destruct (String.eqb_spec value "") as [->|Hne]; [tauto|]. simpl.
    rewrite bool_decide_eq_false_2 by tauto. done.
  - apply Forall_cons in Hsymbols as [Hsymbol Hsymbols].
    apply unclaimed_cons in Hunclaimed as [Hin Hunclaimed].
    assert (negb (letter =? "")%string
            && negb (setHas alphabet (letterName letter)) = false) as ->.
    { unfold letterName, setHas.
      destruct Hsymbol as [->|Hin']; [done|].
      destruct (String.eqb letter ""); [done|]. simpl.
      by rewrite bool_decide_eq_true_2. }
    unfold setHas. rewrite bool_decide_eq_true_2 by done. simpl.
    by apply IH.
Qed.

Lemma visitCases_notInAlphabet c before value after later earlier :
  ∀ alphabetSet seenElse hasFlow,
  isElseCase c = false →
  caseValues c = before ++ value :: after →
  Forall (λ c, isElseCase c = false) earlier →
  Forall (λ c, is_Ok (visitCase c)) earlier →
  Forall symbolValue (switchValues earlier ++ before) →
  unclaimed alphabetSet (switchValues earlier ++ before) →
  ¬ symbolValue value →
  visitCasesWith visit (earlier ++ c :: later) alphabetSet seenElse hasFlow
  = Throw (notInAlphabet value).
Proof.
  induction earlier as [|c' earlier IH];
    intros S seenElse hasFlow Hc Hvalues Hno Hvisit Hsymbols Hunclaimed Hvalue;
    simpl in *.
  - destruct c as [values blocks|values block|blocks]; simpl in *;
      [| |discriminate]; subst values;
      by rewrite checkLetters_notInAlphabet.
  - apply Forall_cons in Hno as [Hc' Hno].
    apply Forall_cons in Hvisit as [[flow Hflow] Hvisit].
    rewrite <- app_assoc in Hsymbols, Hunclaimed.
    apply Forall_app in Hsymbols as [Hsymbols' Hsymbols].
    apply unclaimed_app in Hunclaimed as [Hunclaimed' Hunclaimed].
    destruct c' as [values blocks|values block|blocks]; simpl in *;
      [| |discriminate].
    + rewrite (checkLetters_unclaimed _ _ Hsymbols' Hunclaimed'). simpl.
      unfold CodeValidator.visitCase in Hflow. simpl in Hflow.
      rewrite Hflow. simpl. by apply IH.
    + rewrite (checkLetters_unclaimed _ _ Hsymbols' Hunclaimed'). simpl.
      by apply IH.
Qed.

(** C8 (as amended).  Once the trigger values are alphabet symbols or blank,
    an else case comes last if at all, and the cases themselves validate: a
    trigger value that appears twice, in one case or in two, makes
    [visitSwitchBlock] throw "Multiple cases present for letter".  A switch
    block without an else case that validates covers every alphabet symbol
    and blank exactly once.  And a trigger value that is neither blank nor a
    letter of the alphabet (a parameter, for instance) makes
    [visitSwitchBlock] throw "The letter ... is not part of the alphabet.",
    provided the trigger values before it are pairwise distinct alphabet
    symbols or blank and the cases before its case are no else cases and
    validate. *)
Theorem C8_duplicate_symbol_is_an_error cases :
  (Forall symbolValue (switchValues cases) →
   elseOnlyLast cases →
   Forall (λ c, is_Ok (visitCase c)) cases →
   ¬ NoDup (switchValues cases) →
   ∃ letter, letter ∈ switchValues cases ∧
     visitSwitchBlock alphabet moduleNames parameters cases
     = Throw (multipleCases (letterName letter))) ∧
  (∀ flow,
     Forall (λ c, isElseCase c = false) cases →
     visitSwitchBlock alphabet moduleNames parameters cases = Ok flow →
     NoDup (switchValues cases) ∧
     ∀ value, value ∈ switchValues cases ↔ symbolValue value) ∧
  (∀ earlier c later before value after,
     cases = earlier ++ c :: later →
     isElseCase c = false →
     caseValues c = before ++ value :: after →
     Forall (λ c, isElseCase c = false) earlier →
     Forall (λ c, is_Ok (visitCase c)) earlier →
     Forall symbolValue (switchValues earlier ++ before) →
     NoDup (switchValues earlier ++ before) →
     ¬ symbolValue value →
     visitSwitchBlock alphabet moduleNames parameters cases
     = Throw (notInAlphabet value)).
Proof.
  unfold visitSwitchBlock, visitSwitchBlockWith. split_and!.
  - intros Hsymbols Helse Hvisit Hdup.
    apply visitCases_claimed; try done.
    intros [Hnodup _]. done.
  - intros flow Hno Hok.
    apply visitCases_Ok_without_else in Hok as ([Hnodup Hin] & Hsymbols & Hempty);
      [|done].
    split; [done|]. intros value. split.
    + intros Hvalue. rewrite Forall_forall in Hsymbols. by apply Hsymbols.
    + intros Hsymbol.
      destruct (decide (value ∈ switchValues cases)) as [|Hnotin]; [done|].
      pose proof (symbolValue_initial value Hsymbol) as Hinit.
      assert (value ∈ foldl CodeConverter.setDelete
                (initialAlphabetSet alphabet parameters) (switchValues cases))
        as Hleft by by apply elem_of_foldl_setDelete.
      rewrite Hempty in Hleft. by apply elem_of_nil in Hleft.
  - intros earlier c later before value after -> Hc Hvalues Hno Hvisit
      Hsymbols Hnodup Hvalue.
    eapply visitCases_notInAlphabet; try done.
    split; [done|]. intros letter Hletter.
    apply symbolValue_initial. rewrite Forall_forall in Hsymbols.
    by apply Hsymbols.
Qed.

End Switch.

Lemma C8_witness :
  (∃ letter,
     letter ∈ ["a"; "a"] ∧
     visitSwitchBlock ["a"] ∅ []
       [IfCase ["a"; "a"]
          [Samples.basic None None (Some (TerminationContext ACCEPT))]]
     = Throw (multipleCases (letterName letter))) ∧
  (NoDup ["a"; ""] ∧ ∀ value, value ∈ ["a"; ""] ↔ symbolValue ["a"] value) ∧
  visitSwitchBlock ["a"] ∅ ["x"]
    [IfCase ["a"]
       [Samples.basic None None (Some (TerminationContext ACCEPT))];
     IfCase [""; "x"]
       [Samples.basic None None (Some (TerminationContext ACCEPT))];
     ElseCase
       [Samples.basic None None (Some (TerminationContext REJECT))]]
  = Throw (notInAlphabet "x").
Proof.
  split; [|split].
  - destruct (C8_duplicate_symbol_is_an_error ["a"] ∅ []
                [IfCase ["a"; "a"]
                   [Samples.basic None None
                      (Some (TerminationContext ACCEPT))]]) as [Hdup _].
    apply Hdup.
    + unfold symbolValue. simpl.
      repeat first [apply Forall_nil_2 | apply Forall_cons_2]; set_solver.
    + simpl. done.
    + repeat first [apply Forall_nil_2 | apply Forall_cons_2].
      by eexists.
    + simpl. rewrite NoDup_cons. set_solver.
  - destruct (C8_duplicate_symbol_is_an_error ["a"] ∅ []
                [IfCase ["a"; ""]
                   [Samples.basic None None
                      (Some (TerminationContext ACCEPT))]]) as (_ & Hcover & _).
    apply (Hcover true).
    + repeat constructor.
    + reflexivity.
  - destruct (C8_duplicate_symbol_is_an_error ["a"] ∅ ["x"]
                [IfCase ["a"]
                   [Samples.basic None None
                      (Some (TerminationContext ACCEPT))];
                 IfCase [""; "x"]
                   [Samples.basic None None
                      (Some (TerminationContext ACCEPT))];
                 ElseCase
                   [Samples.basic None None
                      (Some (TerminationContext REJECT))]])
      as (_ & _ & Hparameter).
    refine (Hparameter
              [IfCase ["a"]
                 [Samples.basic None None
                    (Some (TerminationContext ACCEPT))]]
              (IfCase [""; "x"]
                 [Samples.basic None None
                    (Some (TerminationContext ACCEPT))])
              [ElseCase
                 [Samples.basic None None
                    (Some (TerminationContext REJECT))]]
              [""] "x" [] eq_refl eq_refl eq_refl _ _ _ _ _).
    + repeat constructor.
    + repeat first [apply Forall_nil_2 | apply Forall_cons_2].
      by eexists.
    + unfold symbolValue. simpl.
      repeat first [apply Forall_nil_2 | apply Forall_cons_2]; set_solver.
    + simpl. apply (bool_decide_unpack _). reflexivity.
    + unfold symbolValue. intros [Hblank|Hletter]; [discriminate|].
      apply list_elem_of_singleton in Hletter. discriminate.
Defined.

(** C8 (the claim as stated fails).  In a module with the parameter [x], the
    trigger value [x] appears in two if cases (an else case follows).  The
    validator of CodeValidator.ts throws, but not a duplicate-coverage error:
    [x] is no letter of the alphabet for it.  The validator that requires an
    else case accepts the block, and also accepts an alphabet symbol that
    triggers two cases. *)
Lemma C8_counterexample :
  let accept := Samples.basic None None (Some (TerminationContext ACCEPT)) in
  let cases := [IfCase ["x"] [accept]; IfCase ["x"] [accept];
                ElseCase [accept]] in
  switchValues cases = ["x"; "x"] ∧
  visitSwitchBlock ["a"] ∅ ["x"] cases = Throw (notInAlphabet "x") ∧
  (∀ letter,
     visitSwitchBlock ["a"] ∅ ["x"] cases ≠ Throw (multipleCases letter)) ∧
  CodeValidatorElse.visitSwitchBlock ["a"] ∅ ["x"] cases = Ok () ∧
  CodeValidatorElse.visitSwitchBlock ["a"] ∅ []
    [IfCase ["a"] [accept]; IfCase ["a"; ""] [accept]] = Ok ().
Proof.
  simpl. split_and!; try reflexivity.
  intros letter. vm_compute. intros Heq. inversion Heq.
Qed.

End ValidatorFacts.

(** ** The converter, function by function *)
Module ConverterFacts.
Import TuringMachine CodeConverter.

Lemma _getCurrentLabel_addState addArgs label s st :
  _getCurrentLabel addArgs (addState label s st) = _getCurrentLabel addArgs st.
Proof. reflexivity. Qed.


(** C6 (the code at the failing input).  [collide] passes both validators.
    The switch block of [m] is lowered to the state [m-a-0].  Lowering its
    first case lowers [k] and, through the goto of [k], the module [m] once
    more: as in [repeatedParameter], the tuple recorded for [m(x, x)] is
    [[a]], which [_isModuleConstructed] does not match with [[b; a]].  The
    second lowering counts under the same base label [m-a], so that the
    while case, which comes next, is given the next state [m-a-2]: not the
    label [m-a-0] of its switch block, and no state of the automaton.  In
    the interpreter the step that executes the while case leaves the frames
    as they are and the same switch block is the current block again. *)
Theorem C6_while_after_the_module_is_lowered_again :
  CodeValidator.validate Samples.collide = Ok () ∧
  CodeValidatorElse.validate Samples.collide = Ok () ∧
  (∀ fuel,
     convert Samples.collide (S (S (S (S fuel)))) = Ok Samples.collideTM) ∧
  (∃ transitions,
     getState Samples.collideTM "m-a-0" = Some (VariableTMState transitions) ∧
     transitions !! "b" = Some (Samples.change "m-a-2" None (Some RIGHT))) ∧
  getState Samples.collideTM "m-a-2" = None ∧
  statusOfLabel "m-a-2" = None ∧
  (∃ e1 e2,
     CodeExecutor.execute (Samples.freshExecutor "ab" Samples.collide)
     = Ok (true, e1) ∧
     CodeExecutor.currentBlock e1 = Ok (Some Samples.collideSwitch) ∧
     TMTape.get 0 (CodeExecutor.tape e1) = "b" ∧
     CodeExecutor.execute e1 = Ok (true, e2) ∧
     CodeExecutor.currentBlock e2 = Ok (Some Samples.collideSwitch) ∧
     CodeExecutor._currentBlockIndexStack e2
     = CodeExecutor._currentBlockIndexStack e1 ∧
     CodeExecutor._currentBlocksStack e2 = CodeExecutor._currentBlocksStack e1).
Proof.
  split; [vm_compute; reflexivity|].
  split; [vm_compute; reflexivity|].
  split; [intros fuel; vm_compute; reflexivity|].
  split; [eexists; split; vm_compute; reflexivity|].
  split; [vm_compute; reflexivity|].
  split; [vm_compute; reflexivity|].
  eexists _, _.
  split; [vm_compute; reflexivity|].
  split; [vm_compute; reflexivity|].
  split; [vm_compute; reflexivity|].
  split; [vm_compute; reflexivity|].
  split; [vm_compute; reflexivity|].
  split; vm_compute; reflexivity.
Qed.





(** C1 (the code at the failing input).  [ifBodyFallsThrough] passes both
    validators.  On the tape [a] the interpreter takes two steps and ends
    with the status reject.  The automaton the converter builds takes the
    same two transitions ([a] written, right; blank written, right), but the
    second one leads to [m-0-a-2], which is neither a reserved label nor a
    state of the automaton: the run cannot go on and has no status. *)
Theorem C1_interpreter_rejects_where_the_automaton_has_no_state :
  CodeValidator.validate Samples.ifBodyFallsThrough = Ok () ∧
  CodeValidatorElse.validate Samples.ifBodyFallsThrough = Ok () ∧
  (∀ fuel,
     convert Samples.ifBodyFallsThrough (S fuel)
     = Ok Samples.ifBodyFallsThroughTM) ∧
  CodeExecutor.new "a" Samples.ifBodyFallsThrough
  = Ok (Samples.freshExecutor "a" Samples.ifBodyFallsThrough) ∧
  CodeExecutor.executeTimes 2
    (Samples.freshExecutor "a" Samples.ifBodyFallsThrough)
  = Ok ([true; true], Samples.rejectedExecutor) ∧
  CodeExecutor.terminationStatus Samples.rejectedExecutor = Some REJECT ∧
  runSteps 2 Samples.ifBodyFallsThroughTM
    (start Samples.ifBodyFallsThroughTM "a")
  = Ok ([ {| changeNextState := "m-0-a-1"; changeLetter := "a";
             changeDirection := RIGHT |};
          {| changeNextState := "m-0-a-2"; changeLetter := "";
             changeDirection := RIGHT |} ],
        {| runState := "m-0-a-2"; runTape := Samples.tapeAfterTwoSteps |}) ∧
  statusOfLabel "m-0-a-2" = None ∧
  getState Samples.ifBodyFallsThroughTM "m-0-a-2" = None ∧
  step Samples.ifBodyFallsThroughTM
    {| runState := "m-0-a-2"; runTape := Samples.tapeAfterTwoSteps |}
  = Throw TypeError.
Proof. split_and!; try intros fuel; vm_compute; reflexivity. Qed.

End ConverterFacts.

(** ** Whole conversions *)
Module ConversionFacts.
Import Contexts TuringMachine CodeConverter ConverterSpec.
#[local] Unset Default Proof Using.

(** *** Insertion-ordered maps *)

Lemma JsMap_get_set_eq {V} (m : JsMap.t V) k v :
  JsMap.get (JsMap.set m k v) k = Some v.
Proof.
  induction m as [|[k' v'] m IH]; simpl.
  - by rewrite String.eqb_refl.
  - destruct (String.eqb k' k) eqn:Heq; simpl; by rewrite Heq.
Qed.

Lemma JsMap_get_set_ne {V} (m : JsMap.t V) k k' v :
  k ≠ k' → JsMap.get (JsMap.set m k v) k' = JsMap.get m k'.
Proof.
  intros Hne. induction m as [|[k0 v0] m IH]; simpl.
  - destruct (String.eqb_spec k k'); done.
  - destruct (String.eqb_spec k0 k) as [->|Hk]; simpl.
    + destruct (String.eqb_spec k k'); done.
    + by rewrite IH.
Qed.

Lemma JsMap_set_fresh {V} (m : JsMap.t V) k v :
  k ∉ JsMap.keys m → JsMap.set m k v = m ++ [(k, v)].
Proof.
  unfold JsMap.keys. induction m as [|[k' v'] m IH]; simpl; [done|].
  intros Hnotin. apply not_elem_of_cons in Hnotin as [Hne Hnotin].
  destruct (String.eqb_spec k' k); [congruence|]. by rewrite IH.
Qed.

(** Appending one element to the entry of [k] adds the weight of [k]. *)
Lemma sum_set_append {A} (weight : string → nat)
    (m : JsMap.t (list A)) k x :
  sum_list
    (map (λ entry, length entry.2 * weight entry.1)
       (JsMap.set m k (default [] (JsMap.get m k) ++ [x])))
  = sum_list (map (λ entry, length entry.2 * weight entry.1) m) + weight k.
Proof.
  induction m as [|[k' v'] m IH]; simpl; [lia|].
  destruct (String.eqb_spec k' k) as [->|Hne]; simpl.
  - rewrite length_app. simpl. lia.
  - rewrite IH. lia.
Qed.

Lemma argsMatch_refl args : argsMatch args args = true.
Proof.
  induction args as [|arg args IH]; simpl; [done|].
  by rewrite String.eqb_refl, IH.
Qed.

(** With distinct parameters, as many as there are arguments, the values of
    the map the converter builds are the arguments, in order. *)
Lemma _generateArgumentMap_values params : ∀ args argumentMap,
  length params = length args →
  NoDup params →
  (∀ param, param ∈ params → param ∉ JsMap.keys argumentMap) →
  JsMap.values (_generateArgumentMap params args argumentMap)
  = JsMap.values argumentMap ++ args.
Proof.
  induction params as [|param params IH]; intros [|arg args] m Hlen Hnodup Hfresh;
    simpl in *; try discriminate.
  - by rewrite app_nil_r.
  - apply NoDup_cons in Hnodup as [Hparam Hnodup].
    rewrite JsMap_set_fresh by (apply Hfresh; by left).
    rewrite IH; [| lia | done |].
    + unfold JsMap.values. rewrite fmap_app. simpl. by rewrite <- app_assoc.
    + intros param' Hin. unfold JsMap.keys. rewrite fmap_app. simpl.
      rewrite elem_of_app, list_elem_of_singleton.
      intros [Hkeys| ->]; [|done].
      eapply Hfresh; [by right|done].
Qed.

Lemma idToModuleOf_lookup program identifier module :
  idToModuleOf program !! identifier = Some module →
  module ∈ modules program ∧ Contexts.identifier module = identifier.
Proof.
  unfold idToModuleOf.
  assert (∀ ms (m0 : gmap string ModuleContext),
            foldl (λ m module, <[Contexts.identifier module := module]> m)
              m0 ms !! identifier = Some module →
            (module ∈ ms ∧ Contexts.identifier module = identifier)
            ∨ m0 !! identifier = Some module) as Hfold.
  { induction ms as [|m ms IH]; intros m0 Hlookup; simpl in *; [by right|].
    apply IH in Hlookup as [[Hin Hid]|Hlookup].
    - left. split; [by right|done].
    - destruct (decide (Contexts.identifier m = identifier)) as [Heq|Hne].
      + rewrite <- Heq, lookup_insert_eq in Hlookup.
        inversion Hlookup; subst. left. split; [by left|done].
      + rewrite lookup_insert_ne in Hlookup by done. by right. }
  intros Hlookup. apply Hfold in Hlookup as [?|Hempty]; [done|].
  by rewrite lookup_empty in Hempty.
Qed.

Lemma idToModuleOf_module program module :
  NoDup (identifier <$> modules program) →
  module ∈ modules program →
  idToModuleOf program !! identifier module = Some module.
Proof.
  unfold idToModuleOf.
  assert (∀ ms (m0 : gmap string ModuleContext),
            NoDup (identifier <$> ms) → module ∈ ms →
            foldl (λ m module, <[identifier module := module]> m) m0 ms
            !! identifier module = Some module) as Hfold.
  { induction ms as [|m ms IH]; intros m0 Hnodup Hin; simpl in *.
    - by apply elem_of_nil in Hin.
    - apply NoDup_cons in Hnodup as [Hm Hnodup].
      apply elem_of_cons in Hin as [->|Hin]; [|by apply IH].
      clear IH. revert m0.
      assert (∀ ms' (m0 : gmap string ModuleContext),
                identifier m ∉ identifier <$> ms' →
                m0 !! identifier m = Some m →
                foldl (λ m module, <[identifier module := module]> m) m0 ms'
                !! identifier m = Some m) as Hkeep.
      { induction ms' as [|m' ms' IH']; intros m0 Hnotin Hm0; simpl in *;
          [done|].
        apply not_elem_of_cons in Hnotin as [Hne Hnotin].
        apply IH'; [done|]. by rewrite lookup_insert_ne. }
      intros m0. apply Hkeep; [done|]. apply lookup_insert_eq. }
  apply Hfold.
Qed.


(** *** How a visit changes the converter *)

Lemma grows_refl st : grows st st.
Proof. by split. Qed.

Lemma grows_trans st1 st2 st3 : grows st1 st2 → grows st2 st3 → grows st1 st3.
Proof.
  intros [Hm1 Hi1 Hc1 Ho1] [Hm2 Hi2 Hc2 Ho2].
  split; [congruence|auto..].
Qed.

Section Relations.
Variable program : ProgramContext.

Lemma ext_refl st : ext program 0 st st.
Proof.
  unfold ext, sameStacks.
  split_and!; [done..|apply grows_refl|unfold stateBound; lia].
Qed.

Lemma ext_trans n1 n2 st1 st2 st3 :
  ext program n1 st1 st2 → ext program n2 st2 st3 →
  ext program (n1 + n2) st1 st3.
Proof.
  intros [(? & ? & ? & ?) [Hg1 Hb1]] [(? & ? & ? & ?) [Hg2 Hb2]].
  unfold ext, sameStacks. split_and!; try congruence.
  - by eapply grows_trans.
  - unfold stateBound in *. lia.
Qed.

Lemma ext_weaken n n' st st' :
  n ≤ n' → ext program n st st' → ext program n' st st'.
Proof.
  intros Hle (Hs & Hg & Hb). unfold ext. split_and!; [done..|].
  unfold stateBound in *. lia.
Qed.

Lemma ext_extLoop n st st' : ext program n st st' → extLoop program n st st'.
Proof.
  intros [(Hb & Hi & Hm & Hids) [Hg Hbound]].
  unfold extLoop, sameFrames. split_and!; try done; by rewrite Hi.
Qed.

Lemma extLoop_trans n1 n2 st1 st2 st3 :
  extLoop program n1 st1 st2 → extLoop program n2 st2 st3 →
  extLoop program (n1 + n2) st1 st3.
Proof.
  intros [(? & ? & ? & ? & ?) [Hg1 Hb1]] [(? & ? & ? & ? & ?) [Hg2 Hb2]].
  unfold extLoop, sameFrames. split_and!; try congruence.
  - auto.
  - by eapply grows_trans.
  - unfold stateBound in *. lia.
Qed.

Lemma visiting_extLoop n st st' :
  visiting program st → extLoop program n st st' → visiting program st'.
Proof.
  intros [Hindex Hmaps (key & Hkey & Hsome) Hmodules Honce]
    [(Hb & Hm & Hids & Htail & Hne) [[Hgm Hgi Hgc Hgo] _]].
  split.
  - auto.
  - by rewrite Hb, Hm.
  - exists key. split; [|auto].
    unfold currentKey in *. by rewrite Hids, Hm.
  - congruence.
  - auto.
Qed.

Lemma visiting_ext n st st' :
  visiting program st → ext program n st st' → visiting program st'.
Proof. intros Hv He. eapply visiting_extLoop; [done|by apply ext_extLoop]. Qed.

Lemma pending_grows st st' :
  grows st st' → pending program st' ≤ pending program st.
Proof.
  intros [_ _ Hc _]. unfold pending.
  induction (programGotos program) as [|goto gotos IH]; simpl; [done|].
  rewrite !filter_cons.
  destruct (decide (¬ isConstructed st' goto)) as [Hnot'|Hyes'];
    destruct (decide (¬ isConstructed st goto)) as [Hnot|Hyes]; simpl;
    try lia.
  destruct Hnot'. apply Hc. by apply dec_stable.
Qed.

Lemma pending_lt st st' goto :
  grows st st' → goto ∈ programGotos program →
  ¬ isConstructed st goto → isConstructed st' goto →
  pending program st' < pending program st.
Proof.
  intros Hgrows Hin Hnot Hyes. unfold pending.
  induction (programGotos program) as [|goto' gotos IH]; simpl.
  - by apply elem_of_nil in Hin.
  - rewrite !filter_cons.
    assert (length (filter (λ goto, ¬ isConstructed st' goto) gotos)
            ≤ length (filter (λ goto, ¬ isConstructed st goto) gotos))
      as Hle.
    { clear -Hgrows. destruct Hgrows as [_ _ Hc _].
      induction gotos as [|g gs IHg]; simpl; [done|].
      rewrite !filter_cons.
      destruct (decide (¬ isConstructed st' g)) as [Hnot'|Hyes'];
        destruct (decide (¬ isConstructed st g)) as [Hnot|Hyes]; simpl;
        try lia.
      destruct Hnot'. apply Hc. by apply dec_stable. }
    apply elem_of_cons in Hin as [<-|Hin].
    + rewrite decide_False by (intros Hn; by apply Hn).
      rewrite decide_True by done. simpl. lia.
    + specialize (IH Hin).
      destruct (decide (¬ isConstructed st' goto')) as [Hnot'|Hyes'];
        destruct (decide (¬ isConstructed st goto')) as [Hnot0|Hyes0]; simpl;
        try lia.
      destruct Hnot'. destruct Hgrows as [_ _ Hc _]. apply Hc.
      by apply dec_stable.
Qed.

(** *** The small steps *)

Lemma addState_ext label s st : ext program 1 st (addState label s st).
Proof.
  unfold ext, sameStacks. split_and!; [done..|by split|].
  unfold stateBound, loweredBlocks. simpl. rewrite map_size_insert.
  destruct (states (_turingMachine st) !! label); unfold id; lia.
Qed.

Lemma addTransitionAt_ext label input change st :
  ext program 0 st (addTransitionAt label input change st).
Proof.
  unfold ext, sameStacks. split_and!; [done..|by split|].
  unfold stateBound, loweredBlocks. simpl.
  rewrite <- !size_dom, dom_alter_L. lia.
Qed.

Lemma _generateNextLabel_ext identifier args startWith st :
  ext program 0 st (_generateNextLabel identifier args startWith st).2 ∧
  is_Some (_identifierIndexMap
             (_generateNextLabel identifier args startWith st).2
           !! moduleIdentifierOf identifier args).
Proof.
  simpl. split; [|rewrite lookup_insert_eq; by eexists].
  unfold ext, sameStacks.
  split_and!; [done..| |unfold stateBound, loweredBlocks; simpl; lia].
  split; [done| |done|done].
  intros key Hkey. simpl.
  destruct (decide (moduleIdentifierOf identifier args = key)) as [->|Hne].
  - rewrite lookup_insert_eq. by eexists.
  - by rewrite lookup_insert_ne.
Qed.

Lemma visiting_currentArgs st :
  visiting program st →
  ∃ identifier argumentMap identifiers maps,
    _identifierStack st = identifier :: identifiers ∧
    _argumentMapStack st = argumentMap :: maps ∧
    is_Some (_identifierIndexMap st
             !! moduleIdentifierOf identifier (JsMap.values argumentMap)).
Proof.
  intros [_ _ (key & Hkey & Hsome) _ _]. unfold currentKey in Hkey.
  destruct (_identifierStack st) as [|identifier identifiers]; [done|].
  destruct (_argumentMapStack st) as [|argumentMap maps]; [done|].
  inversion Hkey; subst. eauto 10.
Qed.

Lemma _getCurrentLabel_total addArgs st :
  visiting program st → is_Ok (_getCurrentLabel addArgs st).
Proof.
  intros Hv.
  destruct (visiting_currentArgs _ Hv)
    as (identifier & argumentMap & ids & maps & Hids & Hmaps & [i Hi]).
  unfold _getCurrentLabel, _currentArgs, _currentArgumentMap,
    _currentIdentifier.
  rewrite Hids, Hmaps. simpl. rewrite Hi. by eexists.
Qed.

Lemma nextLetter_total changeTo st :
  visiting program st → is_Ok (nextLetter changeTo st).
Proof.
  intros Hv.
  destruct (visiting_currentArgs _ Hv)
    as (identifier & argumentMap & ids & maps & Hids & Hmaps & _).
  unfold nextLetter, _currentArgumentMap. rewrite Hmaps.
  destruct changeTo; by eexists.
Qed.

Lemma at_index_is_Some {A} (stack : list A) i :
  i < length stack → is_Some (at_index stack i).
Proof.
  intros Hlt. unfold at_index. apply lookup_lt_is_Some_2.
  by rewrite List.length_rev.
Qed.

Lemma fallThrough_total st :
  visiting program st → is_Ok (fallThrough st).
Proof.
  intros [_ Hmaps _ _ _]. unfold fallThrough, _incrementIndexAndFindNextState.
  assert (∀ n, n ≤ length (_currentBlocksStack st) →
               is_Ok (_incrementIndexAndFindNextState_from n st)) as Hloop.
  { induction n as [|i IH]; intros Hle; simpl; [by eexists|].
    destruct (at_index (_currentBlocksStack st) i) as [blockStack|];
      [|apply IH; lia].
    destruct (at_index (_currentBlockIndexStack st) i) as [j|];
      [|apply IH; lia].
    case_bool_decide; [|apply IH; lia].
    unfold _findNextLabel.
    destruct (at_index_is_Some (_argumentMapStack st) i) as [m ->]; [lia|].
    simpl. by eexists. }
  destruct (Hloop _ (Nat.le_refl _)) as [next ->]. simpl. by eexists.
Qed.

Lemma _incrementIndex_total st :
  visiting program st →
  ∃ st', _incrementIndex st = Ok st' ∧ extLoop program 0 st st'.
Proof.
  intros Hv.
  destruct (visiting_currentArgs _ Hv)
    as (identifier & argumentMap & ids & maps & Hids & Hmaps & _).
  destruct Hv as [Hindex _ _ _ _].
  unfold _incrementIndex.
  destruct (_currentBlockIndexStack st) as [|i rest] eqn:Hstack; [done|].
  unfold _currentIdentifier, _currentArgs, _currentArgumentMap. simpl.
  rewrite Hids, Hmaps. simpl. eexists. split; [done|].
  unfold extLoop, sameFrames. split_and!; simpl; try done.
  - by rewrite Hstack.
  - split; simpl; [done| |done|done].
    intros key Hkey.
    destruct (decide (moduleIdentifierOf identifier (JsMap.values argumentMap)
                      = key)) as [->|Hne].
    + rewrite lookup_insert_eq. by eexists.
    + by rewrite lookup_insert_ne.
  - unfold stateBound, loweredBlocks. simpl. lia.
Qed.

End Relations.


Lemma block_ind_nested (P : NormalBlockContext → Prop) :
  (∀ block, P (BasicBlock block)) →
  (∀ cases,
     Forall (λ c, Forall P (CodeExecutor.caseBlocks c)) cases →
     P (SwitchBlock cases)) →
  ∀ block, P block.
Proof.
  intros Hbasic Hswitch. fix IH 1. intros [block|cases]; [apply Hbasic|].
  apply Hswitch. induction cases as [|c cases IHcases]; [constructor|].
  constructor; [|exact IHcases].
  destruct c as [values blocks|values core|blocks]; simpl.
  - induction blocks as [|b blocks IHblocks]; constructor;
      [apply IH|exact IHblocks].
  - constructor.
  - induction blocks as [|b blocks IHblocks]; constructor;
      [apply IH|exact IHblocks].
Qed.

(** Moving blocks, indices, identifiers and argument maps on or off the
    stacks changes neither what has been lowered nor the automaton. *)
Lemma same_data_grows program st st' :
  _idToModule st' = _idToModule st →
  _identifierIndexMap st' = _identifierIndexMap st →
  _constructedModules st' = _constructedModules st →
  _turingMachine st' = _turingMachine st →
  grows st st' ∧ stateBound program 0 st st'.
Proof.
  intros Hm Hi Hc Ht. split.
  - split; [done|by rewrite Hi| |].
    + intros goto. unfold isConstructed, _isModuleConstructed.
      by rewrite Hc.
    + unfold loweredOnce, constructedArgs. by rewrite Hc.
  - unfold stateBound, loweredBlocks. rewrite Hc, Ht. lia.
Qed.

Lemma stateBound_trans program n1 n2 st1 st2 st3 :
  stateBound program n1 st1 st2 → stateBound program n2 st2 st3 →
  stateBound program (n1 + n2) st1 st3.
Proof. unfold stateBound. lia. Qed.

(** *** Visiting blocks, given what visiting a module does *)
Section Blocks.
Variable program : ProgramContext.
Hypothesis Hgotos :
  ∀ goto, goto ∈ programGotos program → gotoOk program goto = true.
Variable vm : ModuleContext → t → result t.
Variable f : nat.
Hypothesis Hvm : moduleOracle program vm f.

Lemma visitGoTo_total identifier args st :
  (identifier, args) ∈ programGotos program →
  visiting program st → pending program st ≤ f →
  ∃ st',
    visitGoTo vm identifier args st = Ok (gotoLabel identifier args, st') ∧
    ext program 0 st st' ∧ isConstructed st' (identifier, args).
Proof.
  intros Hin Hv Hpending.
  pose proof (Hgotos _ Hin) as Hok. unfold gotoOk in Hok. simpl in Hok.
  destruct (idToModuleOf program !! identifier) as [module|] eqn:Hmodule;
    [|discriminate].
  destruct (idToModuleOf_lookup _ _ _ Hmodule) as [_ Hid].
  unfold visitGoTo. rewrite (visiting_modules _ _ Hv), Hmodule, Hid.
  destruct (_isModuleConstructed identifier args st) eqn:Hconstructed.
  - simpl. exists st. split_and!; [done|apply ext_refl|done].
  - destruct (Hvm identifier args module st) as (st' & -> & Hext & Hdone);
      try done.
    + unfold isConstructed. simpl. by rewrite Hconstructed.
    + simpl. by exists st'.
Qed.

Lemma visitFlow_total command st :
  (∀ identifier args,
     command = GoToContext identifier args →
     (identifier, args) ∈ programGotos program) →
  visiting program st → pending program st ≤ f →
  ∃ label st', visitFlow vm command st = Ok (label, st') ∧
               ext program 0 st st'.
Proof.
  intros Hin Hv Hpending. destruct command as [identifier args|state]; simpl.
  - destruct (visitGoTo_total identifier args st) as (st' & -> & Hext & _);
      eauto.
  - eexists _, st. split; [done|apply ext_refl].
Qed.

Lemma visitBasicBlock_total block st :
  (∀ goto, goto ∈ blockGotos (BasicBlock block) →
           goto ∈ programGotos program) →
  visiting program st → pending program st ≤ f →
  ∃ st', visitBasicBlock vm block st = Ok st' ∧ ext program 1 st st'.
Proof.
  intros Hin Hv Hpending.
  unfold visitBasicBlock, _getTMChangeForBasicBlock.
  assert (∃ label st1,
            match flowCommand block with
            | Some command => visitFlow vm command st
            | None => let* label := fallThrough st in Ok (label, st)
            end = Ok (label, st1) ∧ ext program 0 st st1)
    as (label & st1 & -> & Hext).
  { destruct (flowCommand block) as [command|] eqn:Hflow.
    - apply visitFlow_total; [|done..].
      intros identifier args ->. apply Hin. simpl. rewrite Hflow. by left.
    - destruct (fallThrough_total program st Hv) as [label ->]. simpl.
      exists label, st. split; [done|apply ext_refl]. }
  cbn [rbind].
  pose proof (visiting_ext _ _ _ _ Hv Hext) as Hv1.
  destruct (nextLetter_total program (changeToCommand block) st1 Hv1)
    as [written ->].
  cbn [rbind].
  destruct (_getCurrentLabel_total program true st1 Hv1) as [current ->].
  cbn [rbind]. eexists. split; [done|].
  apply (ext_trans program 0 1 st st1); [done|apply addState_ext].
Qed.

Lemma visitBlocksWith_total visit blocks :
  Forall (visitOk program f visit) blocks →
  ∀ st, visiting program st → pending program st ≤ f →
        ∃ st', visitBlocksWith visit blocks st = Ok st' ∧
               extLoop program (blocksCount blocks) st st'.
Proof.
  induction 1 as [|block blocks Hblock _ IH]; intros st Hv Hpending; simpl.
  - exists st. split; [done|]. apply ext_extLoop, ext_refl.
  - destruct (Hblock st Hv Hpending) as (st1 & -> & Hext1). cbn [rbind].
    pose proof (visiting_ext _ _ _ _ Hv Hext1) as Hv1.
    destruct (_incrementIndex_total program st1 Hv1) as (st2 & -> & Hext2).
    cbn [rbind].
    pose proof (visiting_extLoop _ _ _ _ Hv1 Hext2) as Hv2.
    assert (pending program st2 ≤ f) as Hpending2.
    { destruct Hext1 as (_ & Hg1 & _), Hext2 as (_ & Hg2 & _).
      pose proof (pending_grows program _ _ Hg1).
      pose proof (pending_grows program _ _ Hg2). lia. }
    destruct (IH st2 Hv2 Hpending2) as (st' & -> & Hext3).
    exists st'. split; [done|].
    unfold blocksCount. simpl.
    replace (blockCount block + sum_list (map blockCount blocks))
      with (blockCount block + 0 + blocksCount blocks) by (unfold blocksCount; lia).
    eapply extLoop_trans; [|exact Hext3].
    eapply extLoop_trans; [apply ext_extLoop, Hext1|exact Hext2].
Qed.

Lemma _visitIfOrElseWith_total visit blocks extraLabel st :
  Forall (visitOk program f visit) blocks →
  visiting program st → pending program st ≤ f →
  ∃ next st',
    _visitIfOrElseWith visit blocks extraLabel st = Ok (next, st') ∧
    ext program (blocksCount blocks) st st'.
Proof.
  intros Hblocks Hv Hpending. unfold _visitIfOrElseWith.
  destruct blocks as [|first [|second rest]].
  - exists None, st. split; [done|].
    eapply ext_weaken; [|apply ext_refl]. lia.
  - exists None, st. split; [done|].
    eapply ext_weaken; [|apply ext_refl]. lia.
  - destruct (_getCurrentLabel_total program false st Hv) as [current ->].
    cbn [rbind].
    destruct (visiting_currentArgs _ _ Hv)
      as (identifier & argumentMap & ids & maps & Hids & Hmaps & _).
    unfold _currentArgs, _currentArgumentMap. rewrite Hmaps. cbn [rbind].
    set (newIdentifier := current +:+ "-" +:+ extraLabel).
    destruct (_generateNextLabel_ext program newIdentifier
                (JsMap.values argumentMap) (Some 1) st) as [Hext1 Hkey].
    destruct (_generateNextLabel newIdentifier (JsMap.values argumentMap)
                (Some 1) st) as [newLabel st1] eqn:Hgen.
    simpl in Hext1, Hkey.
    pose proof (visiting_ext _ _ _ _ Hv Hext1) as Hv1.
    destruct Hext1 as ((Hb1 & Hi1 & Hm1 & Hids1) & Hg1 & Hbound1).
    unfold _pushBlocks, _currentArgumentMap. rewrite Hm1, Hmaps.
    cbn [rbind].
    set (st2 := withArgumentMapStack (cons argumentMap)
                  (withBlockStacks (cons (first :: second :: rest)) (cons 0)
                     (cons newIdentifier) st1)).
    assert (visiting program st2) as Hv2.
    { destruct Hv1 as [Hindex1 Hmaps1 _ Hmodules1 Honce1].
      split; simpl; [done|lia| |done|done].
      exists (moduleIdentifierOf newIdentifier (JsMap.values argumentMap)).
      split; [done|]. done. }
    destruct (same_data_grows program st1 st2) as [Hg2 Hbound2]; [done..|].
    assert (pending program st2 ≤ f) as Hpending2.
    { pose proof (pending_grows program _ _ Hg1).
      pose proof (pending_grows program _ _ Hg2). lia. }
    apply Forall_cons in Hblocks as [_ Hrest].
    destruct (visitBlocksWith_total visit (second :: rest) Hrest st2 Hv2
                Hpending2) as (st3 & -> & (Hf3 & Hg3 & Hbound3)).
    cbn [rbind]. eexists _, _. split; [done|].
    destruct (same_data_grows program st3 (_popBlocks st3)) as [Hg4 Hbound4];
      [done..|].
    destruct Hf3 as (Hb3 & Hm3 & Hids3 & Htail3 & _).
    unfold ext, sameStacks. split_and!.
    + simpl. by rewrite Hb3.
    + simpl. by rewrite Htail3.
    + simpl. rewrite Hm3. simpl. congruence.
    + simpl. by rewrite Hids3.
    + eapply grows_trans; [|exact Hg4].
      eapply grows_trans; [|exact Hg3].
      eapply grows_trans; [exact Hg1|exact Hg2].
    + pose proof (stateBound_trans _ _ _ _ _ _ Hbound1 Hbound2) as H12.
      pose proof (stateBound_trans _ _ _ _ _ _ H12 Hbound3) as H13.
      pose proof (stateBound_trans _ _ _ _ _ _ H13 Hbound4) as H14.
      unfold stateBound, blocksCount in *. simpl in *. lia.
Qed.

Lemma visitCaseWith_total visit switchCase st :
  Forall (visitOk program f visit) (CodeExecutor.caseBlocks switchCase) →
  visiting program st → pending program st ≤ f →
  ∃ next st',
    visitCaseWith visit switchCase st = Ok (next, st') ∧
    ext program (caseCount switchCase) st st'.
Proof.
  intros Hblocks Hv Hpending.
  destruct switchCase as [values blocks|values core|blocks]; simpl in *.
  - by apply _visitIfOrElseWith_total.
  - destruct (_getCurrentLabel_total program true st Hv) as [label ->].
    cbn [rbind]. eexists _, st. split; [done|apply ext_refl].
  - by apply _visitIfOrElseWith_total.
Qed.

Lemma _getTMChangeForSwitchCaseWith_total visit switchCase st :
  caseStartsBasic switchCase = true →
  (∀ goto, goto ∈ caseGotos switchCase → goto ∈ programGotos program) →
  Forall (visitOk program f visit) (CodeExecutor.caseBlocks switchCase) →
  visiting program st → pending program st ≤ f →
  ∃ change st',
    _getTMChangeForSwitchCaseWith vm visit switchCase st = Ok (change, st') ∧
    ext program (caseCount switchCase) st st'.
Proof.
  intros Hstarts Hin Hblocks Hv Hpending.
  unfold _getTMChangeForSwitchCaseWith.
  assert (∃ block, firstBlock switchCase = Some block ∧
                   ∀ first command,
                     block = ExecBasic first →
                     flowCommand first = Some command →
                     ∀ identifier args,
                       command = GoToContext identifier args →
                       (identifier, args) ∈ programGotos program)
    as (block & -> & Hflow).
  { destruct switchCase as [values [|[first|] rest]|values core
                           |[|[first|] rest]];
      simpl in *; try discriminate.
    - eexists. split; [done|]. intros first' command [= <-] Hcommand
        identifier args ->.
      apply Hin. rewrite Hcommand. simpl. by left.
    - eexists. split; [done|]. intros first' command [=].
    - eexists. split; [done|]. intros first' command [= <-] Hcommand
        identifier args ->.
      apply Hin. rewrite Hcommand. simpl. by left. }
  assert (∃ label st1,
            match block with
            | ExecBasic {| flowCommand := Some command |} =>
                visitFlow vm command st
            | _ =>
                let* '(next, st1) := visitCaseWith visit switchCase st in
                match next with
                | Some label => Ok (label, st1)
                | None => let* label := fallThrough st1 in Ok (label, st1)
                end
            end = Ok (label, st1) ∧
            ext program (caseCount switchCase) st st1)
    as (label & st1 & -> & Hext).
  { assert (∃ label st1,
              (let* '(next, st1) := visitCaseWith visit switchCase st in
               match next with
               | Some label => Ok (label, st1)
               | None => let* label := fallThrough st1 in Ok (label, st1)
               end) = Ok (label, st1) ∧
              ext program (caseCount switchCase) st st1) as Hcase.
    { destruct (visitCaseWith_total visit switchCase st Hblocks Hv Hpending)
        as (next & st1 & -> & Hext).
      cbn [rbind]. destruct next as [label|].
      - by exists label, st1.
      - pose proof (visiting_ext _ _ _ _ Hv Hext) as Hv1.
        destruct (fallThrough_total program st1 Hv1) as [label ->].
        cbn [rbind]. by exists label, st1. }
    destruct block as [[changeTo move [command|]]|core]; [|done..].
    destruct (visitFlow_total command st) as (label & st1 & -> & Hext);
      [|done..|].
    - intros identifier args Hcommand.
      eapply (Hflow _ command eq_refl eq_refl). done.
    - exists label, st1. split; [done|].
      eapply ext_weaken; [|done]. lia. }
  cbn [rbind].
  pose proof (visiting_ext _ _ _ _ Hv Hext) as Hv1.
  destruct (nextLetter_total program (execChangeTo block) st1 Hv1)
    as [written ->].
  cbn [rbind]. by eexists _, st1.
Qed.

Lemma foldl_addTransitionAt_ext label change letters : ∀ st,
  ext program 0 st
    (foldl (λ st letter, addTransitionAt label letter change st) st letters).
Proof.
  induction letters as [|letter letters IH]; intros st; simpl.
  - apply ext_refl.
  - eapply (ext_trans program 0 0); [apply addTransitionAt_ext|apply IH].
Qed.

Lemma addCaseTransitions_total label switchCase change remainingLetters st :
  visiting program st →
  ∃ remainingLetters' st',
    addCaseTransitions label switchCase change remainingLetters st
    = Ok (remainingLetters', st') ∧
    ext program 0 st st'.
Proof.
  intros Hv.
  destruct (visiting_currentArgs _ _ Hv)
    as (identifier & argumentMap & ids & maps & Hids & Hmaps & _).
  assert (∀ values remaining st0,
            ∃ remaining' st',
              foldl (λ '(remaining, st) value,
                       let letter := caseLetter argumentMap value in
                       (setDelete remaining letter,
                        addTransitionAt label letter change st))
                (remaining, st0) values = (remaining', st') ∧
              ext program 0 st0 st') as Hfold.
  { induction values as [|value values IH]; intros remaining st0; simpl.
    - eexists _, _. split; [done|apply ext_refl].
    - destruct (IH (setDelete remaining (caseLetter argumentMap value))
                  (addTransitionAt label (caseLetter argumentMap value)
                     change st0)) as (remaining' & st' & Heq & Hext).
      exists remaining', st'. split; [exact Heq|].
      eapply (ext_trans program 0 0); [apply addTransitionAt_ext|done]. }
  unfold addCaseTransitions, _currentArgumentMap. rewrite Hmaps.
  destruct switchCase as [[|value values] blocks|[|value values] core|blocks];
    cbn [rbind].
  - eexists _, _. split; [done|apply ext_refl].
  - destruct (Hfold (value :: values) remainingLetters st)
      as (remaining' & st' & Heq & Hext).
    exists remaining', st'. split; [|done]. f_equal. exact Heq.
  - eexists _, _. split; [done|apply ext_refl].
  - destruct (Hfold (value :: values) remainingLetters st)
      as (remaining' & st' & Heq & Hext).
    exists remaining', st'. split; [|done]. f_equal. exact Heq.
  - eexists _, _. split; [done|apply foldl_addTransitionAt_ext].
Qed.

Lemma visitCasesWith_total visit label cases :
  Forall (caseOk program f visit) cases →
  ∀ remainingLetters st,
    visiting program st → pending program st ≤ f →
    ∃ st',
      visitCasesWith vm visit label cases remainingLetters st = Ok st' ∧
      ext program (sum_list (map caseCount cases)) st st'.
Proof.
  induction 1 as [|switchCase cases (Hstarts & Hin & Hblocks) _ IH];
    intros remainingLetters st Hv Hpending; simpl.
  - exists st. split; [done|apply ext_refl].
  - destruct (_getTMChangeForSwitchCaseWith_total visit switchCase st)
      as (change & st1 & -> & Hext1); try done.
    cbn [rbind].
    pose proof (visiting_ext _ _ _ _ Hv Hext1) as Hv1.
    destruct (addCaseTransitions_total label switchCase change
                remainingLetters st1 Hv1)
      as (remaining' & st2 & -> & Hext2).
    cbn [rbind].
    pose proof (visiting_ext _ _ _ _ Hv1 Hext2) as Hv2.
    assert (pending program st2 ≤ f) as Hpending2.
    { destruct Hext1 as (_ & Hg1 & _), Hext2 as (_ & Hg2 & _).
      pose proof (pending_grows program _ _ Hg1).
      pose proof (pending_grows program _ _ Hg2). lia. }
    destruct (IH remaining' st2 Hv2 Hpending2) as (st' & -> & Hext3).
    exists st'. split; [done|].
    replace (caseCount switchCase + sum_list (map caseCount cases))
      with (caseCount switchCase + 0 + sum_list (map caseCount cases))
      by lia.
    eapply ext_trans; [|exact Hext3].
    eapply ext_trans; [exact Hext1|exact Hext2].
Qed.

Lemma visitSwitchBlockWith_total visit cases st :
  Forall (caseOk program f visit) cases →
  visiting program st → pending program st ≤ f →
  ∃ st',
    visitSwitchBlockWith program vm visit cases st = Ok st' ∧
    ext program (blockCount (SwitchBlock cases)) st st'.
Proof.
  intros Hcases Hv Hpending. unfold visitSwitchBlockWith.
  destruct (_getCurrentLabel_total program true st Hv) as [label ->].
  cbn [rbind].
  pose proof (addState_ext program label (VariableTMState ∅) st) as Hext1.
  pose proof (visiting_ext _ _ _ _ Hv Hext1) as Hv1.
  assert (pending program (addState label (VariableTMState ∅) st) ≤ f)
    as Hpending1.
  { destruct Hext1 as (_ & Hg1 & _).
    pose proof (pending_grows program _ _ Hg1). lia. }
  destruct (visitCasesWith_total visit label cases Hcases
              (setAdd (_alphabet program) "") _ Hv1 Hpending1)
    as (st' & -> & Hext2).
  exists st'. split; [done|].
  assert (blockCount (SwitchBlock cases)
          = 1 + sum_list (map caseCount cases)) as ->.
  { reflexivity. }
  by eapply ext_trans.
Qed.

Lemma visit_total block :
  bodiesStartBasic block = true →
  (∀ goto, goto ∈ blockGotos block → goto ∈ programGotos program) →
  visitOk program f (visit program vm) block.
Proof.
  induction block as [block|cases IH] using block_ind_nested;
    intros Hstarts Hin st Hv Hpending.
  - simpl. by apply visitBasicBlock_total.
  - simpl. apply visitSwitchBlockWith_total; [|done..].
    simpl in Hstarts. rewrite forallb_forall in Hstarts.
    rewrite Forall_forall in IH. apply Forall_forall.
    intros switchCase Hcase.
    assert (caseStartsBasic switchCase = true) as Hcasestarts.
    { apply list_elem_of_In in Hcase. apply (Hstarts _ Hcase). }
    assert (∀ goto, goto ∈ caseGotos switchCase →
                    goto ∈ programGotos program) as Hcasein.
    { intros goto Hgoto. apply Hin. simpl.
      apply list_elem_of_In, in_flat_map. exists switchCase.
      split; by apply list_elem_of_In. }
    unfold caseOk. split; [done|]. split; [done|].
    specialize (IH _ Hcase). rewrite Forall_forall in IH.
    apply Forall_forall. intros inner Hinner. apply IH; [done| |].
    + destruct switchCase as [values [|[first|] rest]|values core
                             |[|[first|] rest]];
        simpl in *; try discriminate; try by apply elem_of_nil in Hinner.
      * rewrite forallb_forall in Hcasestarts.
        apply elem_of_cons in Hinner as [->|Hinner]; [done|].
        apply Hcasestarts. by apply list_elem_of_In.
      * rewrite forallb_forall in Hcasestarts.
        apply elem_of_cons in Hinner as [->|Hinner]; [done|].
        apply Hcasestarts. by apply list_elem_of_In.
    + intros goto Hgoto. apply Hcasein.
      destruct switchCase as [values blocks|values core|blocks];
        simpl in *; try by apply elem_of_nil in Hinner.
      * apply list_elem_of_In, in_flat_map. exists inner.
        split; by apply list_elem_of_In.
      * apply list_elem_of_In, in_flat_map. exists inner.
        split; by apply list_elem_of_In.
Qed.

End Blocks.

(** *** Visiting modules *)

Lemma isConstructed_args st identifier args :
  isConstructed st (identifier, args)
  ↔ existsb (λ tuple, argsMatch tuple args) (constructedArgs st identifier)
    = true.
Proof. done. Qed.

Lemma registerConstructed_spec program identifier args st :
  ¬ isConstructed st (identifier, args) →
  let st' := registerConstructed identifier args st in
  grows st st' ∧ isConstructed st' (identifier, args) ∧
  loweredBlocks program st'
  = loweredBlocks program st + moduleBlockCount program identifier ∧
  _turingMachine st' = _turingMachine st.
Proof.
  intros Hnew st'.
  assert (∀ identifier',
            constructedArgs st' identifier'
            = if decide (identifier = identifier')
              then constructedArgs st identifier ++ [args]
              else constructedArgs st identifier') as Hargs.
  { intros identifier'. unfold constructedArgs, st'. simpl.
    case_decide as Heq.
    - subst. by rewrite JsMap_get_set_eq.
    - by rewrite JsMap_get_set_ne. }
  split_and!.
  - split; [done|done| |].
    + intros [identifier' args'] Hconstructed.
      apply isConstructed_args. apply isConstructed_args in Hconstructed.
      rewrite Hargs.
      case_decide as Heq; [subst|done].
      rewrite existsb_app, Hconstructed. done.
    + intros Honce identifier'. rewrite Hargs.
      case_decide as Heq; [subst|apply Honce].
      apply NoDup_app. split_and!; [apply Honce| |apply NoDup_singleton].
      intros tuple Htuple Hargs'. apply list_elem_of_singleton in Hargs'.
      subst tuple. apply Hnew, isConstructed_args.
      apply existsb_exists.
      exists args. split; [by apply list_elem_of_In|apply argsMatch_refl].
  - apply isConstructed_args. rewrite Hargs.
    rewrite decide_True by done. rewrite existsb_app. simpl.
    by rewrite argsMatch_refl, orb_true_r.
  - unfold loweredBlocks, st'. simpl.
    apply (sum_set_append (moduleBlockCount program)).
  - done.
Qed.

Lemma pending_pos program st goto :
  goto ∈ programGotos program → ¬ isConstructed st goto →
  0 < pending program st.
Proof.
  intros Hin Hnot. unfold pending.
  assert (goto ∈ filter (λ goto, ¬ isConstructed st goto)
                   (programGotos program)) as Hfiltered
    by by apply list_elem_of_filter.
  destruct (filter _ _); [by apply elem_of_nil in Hfiltered|simpl; lia].
Qed.

Section Modules.
Variable program : ProgramContext.
Hypothesis Hwf : wellFormed program = true.

Lemma wellFormed_parts :
  modules program ≠ [] ∧
  NoDup (identifier <$> modules program) ∧
  (∀ module block, module ∈ modules program → block ∈ blocks module →
                   bodiesStartBasic block = true) ∧
  (∀ goto, goto ∈ programGotos program → gotoOk program goto = true).
Proof.
  unfold wellFormed in Hwf.
  apply andb_prop in Hwf as [Hwf1 Hgotos].
  apply andb_prop in Hwf1 as [Hwf2 Hblocks].
  apply andb_prop in Hwf2 as [Hmodules Hnodup].
  split_and!.
  - apply negb_true_iff in Hmodules.
    by apply bool_decide_eq_false in Hmodules.
  - by apply bool_decide_eq_true in Hnodup.
  - intros module block Hmodule Hblock.
    rewrite forallb_forall in Hblocks.
    apply list_elem_of_In, Hblocks in Hmodule.
    rewrite forallb_forall in Hmodule. by apply Hmodule, list_elem_of_In.
  - intros goto Hgoto. rewrite forallb_forall in Hgotos.
    by apply Hgotos, list_elem_of_In.
Qed.

Lemma module_gotos module block goto :
  module ∈ modules program → block ∈ blocks module →
  goto ∈ blockGotos block → goto ∈ programGotos program.
Proof.
  intros Hmodule Hblock Hgoto. unfold programGotos.
  apply list_elem_of_In, in_flat_map. exists module.
  split; [by apply list_elem_of_In|].
  apply in_flat_map. exists block. split; by apply list_elem_of_In.
Qed.

Lemma visitModule_step f module stp argumentMap maps :
  moduleOracle program (visitModule program f) f →
  module ∈ modules program →
  _argumentMapStack stp = argumentMap :: maps →
  length (_currentBlocksStack stp) ≤ length maps →
  _idToModule stp = idToModuleOf program →
  loweredOnce stp →
  ¬ isConstructed stp (identifier module, JsMap.values argumentMap) →
  pending program stp ≤ f
  ∨ ((identifier module, JsMap.values argumentMap) ∈ programGotos program
     ∧ pending program stp ≤ S f) →
  ∃ st',
    visitModule program (S f) module stp = Ok st' ∧
    _currentBlocksStack st' = _currentBlocksStack stp ∧
    _currentBlockIndexStack st' = _currentBlockIndexStack stp ∧
    _identifierStack st' = _identifierStack stp ∧
    _argumentMapStack st' = maps ∧
    grows stp st' ∧ stateBound program 0 stp st' ∧
    isConstructed st' (identifier module, JsMap.values argumentMap).
Proof.
  intros Horacle Hmodule Hmaps Hlen Hmodules Honce Hnew Hbudget.
  destruct wellFormed_parts as (_ & Hnodup & Hstarts & Hgotos).
  cbn [visitModule]. unfold _currentArgs, _currentArgumentMap, _pushBlocks.
  rewrite Hmaps. cbn [rbind].
  destruct (_generateNextLabel_ext program (identifier module)
              (JsMap.values argumentMap) None stp) as [Hext1 Hkey].
  set (args := JsMap.values argumentMap) in *.
  set (st1 := (_generateNextLabel (identifier module) args None stp).2) in *.
  destruct Hext1 as ((Hb1 & Hi1 & Hm1 & Hids1) & Hg1 & Hbound1).
  set (st2 := withBlockStacks (cons (blocks module)) (cons 0)
                (cons (identifier module)) st1).
  assert (_argumentMapStack st2 = argumentMap :: maps) as Hmaps2
    by (simpl; congruence).
  rewrite Hmaps2. cbn [rbind]. fold args.
  destruct (same_data_grows program st1 st2) as [Hg2 Hbound2]; [done..|].
  assert (¬ isConstructed st2 (identifier module, args)) as Hnew2.
  { exact Hnew. }
  destruct (registerConstructed_spec program (identifier module) args st2
              Hnew2) as (Hg3 & Hdone3 & Hweight3 & Htm3).
  set (st3 := registerConstructed (identifier module) args st2) in *.
  assert (grows stp st3) as Hg03.
  { eapply grows_trans; [|exact Hg3]. eapply grows_trans; done. }
  assert (visiting program st3) as Hv3.
  { split; simpl.
    - done.
    - change (length (blocks module :: _currentBlocksStack st1)
              ≤ length (_argumentMapStack st1)).
      rewrite Hb1, Hm1, Hmaps. simpl. lia.
    - exists (moduleIdentifierOf (identifier module) args).
      unfold currentKey.
      change (_identifierStack st3)
        with (identifier module :: _identifierStack st1).
      change (_argumentMapStack st3) with (_argumentMapStack st1).
      rewrite Hm1, Hmaps. done.
    - congruence.
    - by apply (grows_once _ _ Hg03). }
  assert (pending program st3 ≤ f) as Hpending3.
  { destruct Hbudget as [Hle|[Hin Hle]].
    - pose proof (pending_grows program _ _ Hg03). lia.
    - pose proof (pending_lt program _ _ _ Hg03 Hin Hnew
                    (grows_constructed _ _ (grows_refl st3) _ Hdone3)).
      lia. }
  assert (Forall (visitOk program f (visit program (visitModule program f)))
            (blocks module)) as Hall.
  { apply Forall_forall. intros block Hblock.
    apply (visit_total program Hgotos (visitModule program f) f Horacle).
    - by eapply Hstarts.
    - intros goto. by apply module_gotos with module. }
  destruct (visitBlocksWith_total program f _ _ Hall st3 Hv3 Hpending3)
    as (st4 & -> & (Hf4 & Hg4 & Hbound4)).
  cbn [rbind]. eexists. split; [done|].
  destruct Hf4 as (Hb4 & Hm4 & Hids4 & Htail4 & _).
  destruct (same_data_grows program st4 (_popBlocks st4)) as [Hg5 Hbound5];
    [done..|].
  assert (_currentBlocksStack st3 = blocks module :: _currentBlocksStack stp)
    as Hb3 by (rewrite <- Hb1; reflexivity).
  assert (_currentBlockIndexStack st3 = 0 :: _currentBlockIndexStack stp)
    as Hi3 by (rewrite <- Hi1; reflexivity).
  assert (_identifierStack st3 = identifier module :: _identifierStack stp)
    as Hids3 by (rewrite <- Hids1; reflexivity).
  assert (_argumentMapStack st3 = argumentMap :: maps)
    as Hm3 by (rewrite <- Hmaps, <- Hm1; reflexivity).
  split_and!.
  - change (tail (_currentBlocksStack st4) = _currentBlocksStack stp).
    by rewrite Hb4, Hb3.
  - change (tail (_currentBlockIndexStack st4) = _currentBlockIndexStack stp).
    by rewrite Htail4, Hi3.
  - change (tail (_identifierStack st4) = _identifierStack stp).
    by rewrite Hids4, Hids3.
  - change (tail (_argumentMapStack st4) = maps).
    by rewrite Hm4, Hm3.
  - eapply grows_trans; [|exact Hg5]. eapply grows_trans; done.
  - assert (moduleBlockCount program (identifier module)
            = blocksCount (blocks module)) as Hcount.
    { unfold moduleBlockCount.
      by rewrite (idToModuleOf_module program module Hnodup Hmodule). }
    unfold stateBound in *. rewrite Hweight3, Hcount in *.
    change (_turingMachine st3) with (_turingMachine st2) in *.
    simpl in *. lia.
  - apply (grows_constructed _ _ Hg5), (grows_constructed _ _ Hg4). done.
Qed.

Lemma visitModule_oracle f : moduleOracle program (visitModule program f) f.
Proof.
  induction f as [|f IH];
    intros identifier args module st Hin Hmodule Hv Hnew Hpending.
  - pose proof (pending_pos program st _ Hin Hnew). lia.
  - destruct wellFormed_parts as (_ & _ & _ & Hgotos).
    pose proof (Hgotos _ Hin) as Hok. unfold gotoOk in Hok. simpl in Hok.
    rewrite Hmodule in Hok. apply andb_prop in Hok as [Hlen Hparams].
    apply bool_decide_eq_true in Hlen.
    apply bool_decide_eq_true in Hparams.
    destruct (idToModuleOf_lookup _ _ _ Hmodule) as [Hmem Hid].
    assert (JsMap.values (_generateArgumentMap (params module) args JsMap.empty)
            = args) as Hvalues.
    { rewrite _generateArgumentMap_values; try done.
      intros param _. apply not_elem_of_nil. }
    destruct Hv as [Hindex Hmaps Hkey Hmodules Honce].
    destruct (visitModule_step f module
                (_generateAndPushArgumentMap (params module) args st)
                (_generateArgumentMap (params module) args JsMap.empty)
                (_argumentMapStack st) IH Hmem)
      as (st' & Hvisit & Hb & Hi & Hids & Hm & Hg & Hbound & Hdone);
      try done.
    + rewrite Hvalues, Hid. done.
    + right. rewrite Hvalues, Hid. done.
    + exists st'. split; [done|].
      rewrite Hvalues, Hid in Hdone. split; [|done].
      destruct (same_data_grows program st
                  (_generateAndPushArgumentMap (params module) args st))
        as [Hg0 Hbound0]; [done..|].
      unfold ext, sameStacks.
      split_and!; try done;
        first [by eapply grows_trans | unfold stateBound in *; lia].
Qed.

Lemma pending_le st : pending program st ≤ length (programGotos program).
Proof. unfold pending. apply length_filter. Qed.

Lemma convertState_total fuel :
  length (programGotos program) < fuel →
  ∃ st,
    convertState program fuel = Ok st ∧ loweredOnce st ∧
    size (states (_turingMachine st)) ≤ loweredBlocks program st.
Proof.
  intros Hfuel. destruct fuel as [|f]; [lia|].
  destruct wellFormed_parts as (Hmodules & _).
  unfold convertState, visitProgram.
  destruct (modules program) as [|main rest] eqn:Hprogram; [done|].
  set (st3 := withArgumentMapStack _ _).
  destruct (visitModule_step f main st3 JsMap.empty [])
    as (st' & Hvisit & _ & _ & _ & _ & Hg & Hbound & _).
  - apply visitModule_oracle.
  - rewrite Hprogram. apply list_elem_of_here.
  - done.
  - done.
  - unfold idToModuleOf. by rewrite Hprogram.
  - intros identifier. apply NoDup_nil_2.
  - unfold isConstructed, _isModuleConstructed. simpl. done.
  - left. pose proof (pending_le st3). lia.
  - exists st'. split_and!; [done| |].
    + apply (grows_once _ _ Hg). intros identifier. apply NoDup_nil_2.
    + unfold stateBound in Hbound.
      change (size (states (_turingMachine st3))) with
        (size (states TuringMachine.empty)) in Hbound.
      change (loweredBlocks program st3) with 0 in Hbound.
      change (states TuringMachine.empty) with (∅ : gmap string TMState)
        in Hbound.
      rewrite map_size_empty in Hbound. lia.
Qed.

Lemma visitGoTo_constructed vm identifier args st :
  (identifier, args) ∈ programGotos program →
  _idToModule st = idToModuleOf program →
  isConstructed st (identifier, args) →
  visitGoTo vm identifier args st = Ok (gotoLabel identifier args, st).
Proof.
  intros Hin Hmodules Hdone.
  destruct wellFormed_parts as (_ & _ & _ & Hgotos).
  pose proof (Hgotos _ Hin) as Hok. unfold gotoOk in Hok. simpl in Hok.
  unfold visitGoTo. rewrite Hmodules.
  destruct (idToModuleOf program !! identifier) as [module|] eqn:Hmodule;
    [|done].
  destruct (idToModuleOf_lookup _ _ _ Hmodule) as [_ ->].
  unfold isConstructed in Hdone. simpl in Hdone. by rewrite Hdone.
Qed.

End Modules.

(** C2 (as amended).  For a well-formed program (at least one module, module
    identifiers pairwise distinct, if and else bodies that start with a basic
    block, every goto to a module of the program with as many arguments as
    the module has parameters, and these pairwise distinct), recursive gotos
    included:
    - compilation returns a converter state once the fuel exceeds the number
      of gotos of the program; no argument tuple is recorded twice for a
      module, and the automaton has at most as many states as the lowered
      (module, argument tuple) pairs have blocks, the blocks of if and else
      bodies counted at every depth;
    - while modules are visited, a goto of the program returns the label
      [identifier-0] or [identifier-args-0] and leaves its module lowered:
      the same goto again returns the same label and changes nothing,
      whatever [visitModule] would do. *)
Theorem C2_compilation_terminates_and_lowers_each_pair_once program :
  wellFormed program = true →
  (∀ fuel, length (programGotos program) < fuel →
     ∃ st,
       convertState program fuel = Ok st ∧ loweredOnce st ∧
       size (states (_turingMachine st)) ≤ loweredBlocks program st) ∧
  (∀ f identifier args st,
     (identifier, args) ∈ programGotos program →
     visiting program st → pending program st ≤ f →
     ∃ st',
       visitGoTo (visitModule program f) identifier args st
       = Ok (gotoLabel identifier args, st') ∧
       loweredOnce st' ∧
       stateBound program 0 st st' ∧
       ∀ vm, visitGoTo vm identifier args st'
             = Ok (gotoLabel identifier args, st')).
Proof.
  intros Hwf. split.
  - by apply convertState_total.
  - intros f identifier args st Hin Hv Hpending.
    destruct (wellFormed_parts program Hwf) as (_ & _ & _ & Hgotos).
    destruct (visitGoTo_total program Hgotos (visitModule program f) f
                (visitModule_oracle program Hwf f) identifier args st Hin Hv
                Hpending)
      as (st' & Hvisit & (Hstacks & Hg & Hbound) & Hdone).
    exists st'. split_and!; [done| |done|].
    + apply (grows_once _ _ Hg), Hv.
    + intros vm. apply (visitGoTo_constructed program Hwf); [done| |done].
      rewrite (grows_modules _ _ Hg). apply Hv.
Qed.


(** *** A module whose parameters share a name

    In [Samples.repeatedParameter] the argument map of [twice(a, b)] is
    [{x -> b}]: the tuple recorded for the module is [[b]], which
    [_isModuleConstructed] never matches with [[a; b]], so every goto lowers
    the module anew. *)

Lemma visitModule_gotoTwice fuel module st :
  blocks module = [Samples.gotoTwice] →
  _argumentMapStack st ≠ [] →
  _idToModule st !! "twice" = Some Samples.twice →
  (∀ st', _idToModule st' !! "twice" = Some Samples.twice →
          _isModuleConstructed "twice" ["a"; "b"] st' = false →
          visitModule Samples.repeatedParameter fuel Samples.twice
            (_generateAndPushArgumentMap ["x"; "x"] ["a"; "b"] st')
          = OutOfFuel) →
  _isModuleConstructed "twice" ["a"; "b"]
    (registerConstructed (identifier module)
       (JsMap.values (default JsMap.empty (head (_argumentMapStack st)))) st)
  = false →
  visitModule Samples.repeatedParameter (S fuel) module st = OutOfFuel.
Proof.
  intros Hblocks Hmaps Hmodule IH Hnew.
  cbn [visitModule]. unfold _currentArgs, _currentArgumentMap, _pushBlocks.
  destruct (_argumentMapStack st) as [|argumentMap maps] eqn:Hstack; [done|].
  cbn [rbind]. simpl (_argumentMapStack _). rewrite Hstack. cbn [rbind].
  rewrite Hblocks. unfold Samples.gotoTwice.
  cbn [visitBlocksWith visit Samples.basic rbind].
  unfold visitBasicBlock, _getTMChangeForBasicBlock.
  cbn [flowCommand visitFlow]. unfold visitGoTo.
  simpl (_idToModule _). rewrite Hmodule.
  unfold _isModuleConstructed in *. simpl (_constructedModules _) in *.
  cbn [identifier Samples.twice] in *. rewrite Hnew.
  cbn [params]. rewrite IH; [reflexivity|exact Hmodule|exact Hnew].
Qed.

Lemma twice_diverges fuel : ∀ st,
  _idToModule st !! "twice" = Some Samples.twice →
  _isModuleConstructed "twice" ["a"; "b"] st = false →
  visitModule Samples.repeatedParameter fuel Samples.twice
    (_generateAndPushArgumentMap ["x"; "x"] ["a"; "b"] st)
  = OutOfFuel.
Proof.
  induction fuel as [|fuel IH]; intros st Hmodule Hnew; [reflexivity|].
  apply visitModule_gotoTwice;
    [reflexivity|discriminate|exact Hmodule|exact IH|].
  unfold _isModuleConstructed in *. simpl.
  rewrite JsMap_get_set_eq. simpl. rewrite existsb_app, Hnew. reflexivity.
Qed.

Lemma repeatedParameter_diverges fuel :
  convertState Samples.repeatedParameter fuel = OutOfFuel.
Proof.
  destruct fuel as [|fuel]; [reflexivity|].
  unfold convertState, visitProgram. cbn [modules Samples.repeatedParameter].
  apply visitModule_gotoTwice;
    [reflexivity|discriminate|reflexivity|apply twice_diverges|reflexivity].
Qed.

Lemma atSwitchBlock_visiting :
  visiting Samples.moduleWithIfBlock Samples.atSwitchBlock.
Proof.
  split.
  - discriminate.
  - simpl. lia.
  - exists "simple". split; [reflexivity|]. by eexists.
  - reflexivity.
  - intros identifier. unfold constructedArgs.
    change (_constructedModules Samples.atSwitchBlock)
      with [("simple", [[] : list string])].
    cbn [JsMap.get].
    destruct (String.eqb "simple" identifier); cbn [default].
    + apply NoDup_singleton.
    + apply NoDup_nil_2.
Qed.

(** C2 on the test program [moduleWithIfBlock], whose last block is
    [goto simple()] inside the module [simple] itself: two units of fuel are
    enough, and at the switch block the goto is answered with [simple-0]
    without lowering anything. *)
Lemma C2_witness :
  wellFormed Samples.moduleWithIfBlock = true ∧
  (∃ st,
     convertState Samples.moduleWithIfBlock 2 = Ok st ∧ loweredOnce st ∧
     size (states (_turingMachine st))
     ≤ loweredBlocks Samples.moduleWithIfBlock st) ∧
  (∃ st',
     visitGoTo (visitModule Samples.moduleWithIfBlock 0) "simple" []
       Samples.atSwitchBlock
     = Ok ("simple-0", st') ∧
     ∀ vm, visitGoTo vm "simple" [] st' = Ok ("simple-0", st')).
Proof.
  destruct (C2_compilation_terminates_and_lowers_each_pair_once
              Samples.moduleWithIfBlock) as [Hterminates Hgoto];
    [reflexivity|].
  split_and!.
  - reflexivity.
  - apply Hterminates. simpl. lia.
  - destruct (Hgoto 0 "simple" [] Samples.atSwitchBlock)
      as (st' & Hvisit & _ & _ & Hagain).
    + simpl. set_solver.
    + apply atSwitchBlock_visiting.
    + reflexivity.
    + exists st'. split; [exact Hvisit|exact Hagain].
Defined.

(** C2 (the claim as stated fails).  The module [simple] of the test program
    [moduleWithIfBlock] has one block, a switch block, and is lowered for one
    argument tuple, the empty one: one pair times one block.  The automaton
    has two states, [simple-0] and [simple-0-blank-1], the second for the
    second block of the body of [if blank].  And [repeatedParameter], which
    both validators accept, is not compiled whatever the fuel. *)
Lemma C2_counterexample :
  (length (modules Samples.moduleWithIfBlock) = 1 ∧
   length (blocks (Samples.mainOf Samples.moduleWithIfBlock)) = 1 ∧
   (let* st := convertState Samples.moduleWithIfBlock 2 in
    Ok (_constructedModules st, size (states (_turingMachine st))))
   = Ok ([("simple", [[]])], 2)) ∧
  (CodeValidator.validate Samples.repeatedParameter = Ok () ∧
   CodeValidatorElse.validate Samples.repeatedParameter = Ok () ∧
   ∀ fuel, convertState Samples.repeatedParameter fuel = OutOfFuel).
Proof.
  split; split_and!;
    first [apply repeatedParameter_diverges | vm_compute; reflexivity].
Qed.

End ConversionFacts.

(** ** The tape *)
Module TapeFacts.
Import TMTape TapeSpec.
Local Open Scope Z_scope.

Lemma fill_lookup value : ∀ i m j,
  fill i value m !! j
  = match (if bool_decide (i ≤ j) then value !! Z.to_nat (j - i) else None) with
    | Some c => if isWhiteSpace c then m !! j else Some (String c EmptyString)
    | None => m !! j
    end.
Proof.
  induction value as [|c value IH]; intros i m j; simpl.
  - by case_bool_decide.
  - rewrite IH.
    destruct (decide (j = i)) as [->|Hne].
    + rewrite bool_decide_eq_false_2 by lia.
      rewrite bool_decide_eq_true_2 by lia.
      replace (i - i) with 0 by lia. simpl.
      destruct (isWhiteSpace c); [done|by rewrite lookup_insert_eq].
    + case_bool_decide as Hlt.
      * rewrite bool_decide_eq_true_2 by lia.
        replace (Z.to_nat (j - i)) with (S (Z.to_nat (j - (i + 1)))) by lia.
        simpl. destruct (value !! _) as [c'|]; simpl.
        -- destruct (isWhiteSpace c'); [|done].
           destruct (isWhiteSpace c); [done|by rewrite lookup_insert_ne].
        -- destruct (isWhiteSpace c); [done|by rewrite lookup_insert_ne].
      * case_bool_decide as Hle.
        -- assert (j = i) by lia. done.
        -- destruct (isWhiteSpace c); [done|by rewrite lookup_insert_ne].
Qed.

(** X1.  [new TMTape(value)] shows at the index [i] the [i]-th character of
    [value], and blank where that character is white space or [i] lies
    outside of [value]; the head starts at index 0. *)
Theorem new_get value i :
  get i (new value) = written value i
  ∧ currentIndex (new value) = 0.
Proof.
  split; [|done]. unfold get, new, written. simpl.
  rewrite fill_lookup, lookup_empty, Z.sub_0_r, Z.add_0_l.
  case_bool_decide; [|done].
  destruct (_ !! _) as [c|]; [|done]. by destruct (isWhiteSpace c).
Qed.


(** X3.  [get] counts from the head: while the index of the head, the index
    [i] asked for and their sum are safe integers (below 2^53 in absolute
    value), after [move(left)] the cell [i] is the former cell [i - 1], after
    [move(right)] the former cell [i + 1], and a move to the left and a move
    to the right undo each other. *)
Theorem move_left_right tp i :
  safeInteger (currentIndex tp) → safeInteger i →
  safeInteger (currentIndex tp + i) →
  get i (move LEFT tp) = get (i - 1) tp ∧
  get i (move RIGHT tp) = get (i + 1) tp ∧
  move LEFT (move RIGHT tp) = tp ∧
  move RIGHT (move LEFT tp) = tp.
Proof.
  unfold safeInteger. intros Hindex Hi Hsum.
  destruct tp as [m index]. unfold get, move, increment, decrement.
  simpl in *.
  rewrite !(bool_decide_eq_true_2 (- 2 ^ 53 ≤ index < 2 ^ 53)) by lia.
  rewrite !(bool_decide_eq_true_2 (- 2 ^ 53 < index ≤ 2 ^ 53)) by lia.
  rewrite bool_decide_eq_true_2 by lia.
  rewrite bool_decide_eq_true_2 by lia.
  split_and!.
  - f_equal. f_equal. lia.
  - f_equal. f_equal. lia.
  - f_equal. lia.
  - f_equal. lia.
Qed.

Lemma move_left_right_witness :
  get 0 (move LEFT (new "ab")) = get (-1) (new "ab") ∧
  get 0 (move RIGHT (new "ab")) = get 1 (new "ab") ∧
  move LEFT (move RIGHT (new "ab")) = new "ab" ∧
  move RIGHT (move LEFT (new "ab")) = new "ab".
Proof.
  apply (move_left_right (new "ab") 0); unfold safeInteger; simpl; lia.
Defined.

Lemma holdsLetters_built tp : built tp → holdsLetters tp.
Proof.
  induction 1 as [value|letter tp _ IH|direction tp _ IH]; intros i stored.
  - unfold new. simpl. rewrite fill_lookup, lookup_empty.
    case_bool_decide; [|done].
    destruct (_ !! _) as [c|] eqn:Hc; [|done].
    destruct (isWhiteSpace c) eqn:Hwhite; [done|].
    intros [= <-]. unfold trimsToEmpty. simpl. by rewrite Hwhite.
  - unfold change. destruct (trimsToEmpty letter) eqn:Hletter; simpl.
    + intros Hlookup. apply lookup_delete_Some in Hlookup as [_ Hlookup].
      by eapply IH.
    + intros Hlookup. apply lookup_insert_Some in Hlookup as [[_ <-]|[_ Hlookup]];
        [done|by eapply IH].
  - destruct direction; simpl; apply IH.
Qed.

Lemma foldr_min_spec i rest :
  let least := foldr Z.min i rest in
  least ∈ i :: rest ∧ ∀ k, k ∈ i :: rest → least ≤ k.
Proof.
  induction rest as [|j rest [Hin Hle]]; cbn [foldr].
  - split; [apply list_elem_of_here|]. intros k Hk.
    apply list_elem_of_singleton in Hk. lia.
  - split.
    + destruct (Z.min_spec j (foldr Z.min i rest)) as [[_ ->]|[_ ->]].
      * rewrite !elem_of_cons. tauto.
      * rewrite !elem_of_cons in *. tauto.
    + intros k Hk.
      rewrite !elem_of_cons in Hk. destruct Hk as [->|[->|Hk]].
      * pose proof (Hle i (list_elem_of_here _ _)). lia.
      * lia.
      * pose proof (Hle k (list_elem_of_further _ _ _ Hk)). lia.
Qed.

Lemma foldr_max_spec i rest :
  let greatest := foldr Z.max i rest in
  greatest ∈ i :: rest ∧ ∀ k, k ∈ i :: rest → k ≤ greatest.
Proof.
  induction rest as [|j rest [Hin Hle]]; cbn [foldr].
  - split; [apply list_elem_of_here|]. intros k Hk.
    apply list_elem_of_singleton in Hk. lia.
  - split.
    + destruct (Z.max_spec j (foldr Z.max i rest)) as [[_ ->]|[_ ->]].
      * rewrite !elem_of_cons in *. tauto.
      * rewrite !elem_of_cons. tauto.
    + intros k Hk.
      rewrite !elem_of_cons in Hk. destruct Hk as [->|[->|Hk]].
      * pose proof (Hle i (list_elem_of_here _ _)). lia.
      * lia.
      * pose proof (Hle k (list_elem_of_further _ _ _ Hk)). lia.
Qed.

Lemma elem_of_keys (m : gmap Z string) k :
  k ∈ (map_to_list m).*1 ↔ is_Some (m !! k).
Proof.
  rewrite list_elem_of_fmap. split.
  - intros ([k' v] & -> & Hin). apply elem_of_map_to_list in Hin. by exists v.
  - intros [v Hv]. exists (k, v). split; [done|by apply elem_of_map_to_list].
Qed.

Lemma _minIndex_spec tp :
  _valueMap tp ≠ ∅ →
  is_Some (_valueMap tp !! _minIndex tp) ∧
  ∀ k, is_Some (_valueMap tp !! k) → _minIndex tp ≤ k.
Proof.
  intros Hne. unfold _minIndex.
  destruct ((map_to_list (_valueMap tp)).*1) as [|i rest] eqn:Hkeys.
  - apply fmap_nil_inv, map_to_list_empty_iff in Hkeys. done.
  - destruct (foldr_min_spec i rest) as [Hin Hle]. rewrite <- Hkeys in *.
    split; [by apply elem_of_keys|].
    intros k Hk. by apply Hle, elem_of_keys.
Qed.

Lemma _maxIndex_spec tp :
  _valueMap tp ≠ ∅ →
  is_Some (_valueMap tp !! _maxIndex tp) ∧
  ∀ k, is_Some (_valueMap tp !! k) → k ≤ _maxIndex tp.
Proof.
  intros Hne. unfold _maxIndex.
  destruct ((map_to_list (_valueMap tp)).*1) as [|i rest] eqn:Hkeys.
  - apply fmap_nil_inv, map_to_list_empty_iff in Hkeys. done.
  - destruct (foldr_max_spec i rest) as [Hin Hle]. rewrite <- Hkeys in *.
    split; [by apply elem_of_keys|].
    intros k Hk. by apply Hle, elem_of_keys.
Qed.

Lemma empty_indices tp :
  _valueMap tp = ∅ → _minIndex tp = 0 ∧ _maxIndex tp = 0.
Proof.
  intros Hempty. unfold _minIndex, _maxIndex.
  by rewrite Hempty, map_to_list_empty.
Qed.

Lemma get_letter tp i :
  holdsLetters tp → is_Some (_valueMap tp !! (currentIndex tp + i)) →
  get i tp ≠ "".
Proof.
  intros Hletters [letter Hletter]. unfold get. rewrite Hletter. simpl.
  intros ->. by apply Hletters in Hletter.
Qed.

Lemma get_blank tp i :
  _valueMap tp !! (currentIndex tp + i) = None → get i tp = "".
Proof. intros Hnone. unfold get. by rewrite Hnone. Qed.

Lemma blank_tape tp :
  holdsLetters tp → (∀ j, get j tp = "") → _valueMap tp = ∅.
Proof.
  intros Hletters Hblank. apply map_empty. intros k.
  destruct (_valueMap tp !! k) as [letter|] eqn:Hletter; [|done].
  specialize (Hblank (k - currentIndex tp)). unfold get in Hblank.
  replace (currentIndex tp + (k - currentIndex tp)) with k in Hblank by lia.
  rewrite Hletter in Hblank. simpl in Hblank. subst letter.
  by apply Hletters in Hletter.
Qed.

Lemma written_tape tp j : get j tp ≠ "" → _valueMap tp ≠ ∅.
Proof.
  intros Hget Hempty. apply Hget. unfold get. by rewrite Hempty, lookup_empty.
Qed.

(** X4.  On every tape made by the constructor, [change] and [move]: when
    some cell is not blank, [move(start)] puts the head on a cell that is not
    blank and [move(end)] too; after [move(start)] every cell to the left of
    the head is blank, after [move(end)] every cell to its right; on a blank
    tape both put the head at index 0. *)
Theorem move_start_end tp :
  built tp →
  ((∃ j, get j tp ≠ "") →
   get 0 (move START tp) ≠ "" ∧ get 0 (move END tp) ≠ "") ∧
  (∀ i, i < 0 → get i (move START tp) = "") ∧
  (∀ i, 0 < i → get i (move END tp) = "") ∧
  ((∀ j, get j tp = "") →
   currentIndex (move START tp) = 0 ∧ currentIndex (move END tp) = 0).
Proof.
  intros Hbuilt. pose proof (holdsLetters_built tp Hbuilt) as Hletters.
  split_and!.
  - intros [j Hne%written_tape].
    destruct (_minIndex_spec tp Hne) as [Hmin _].
    destruct (_maxIndex_spec tp Hne) as [Hmax _].
    split; apply get_letter; simpl; try done; by rewrite Z.add_0_r.
  - intros i Hi. apply get_blank. simpl.
    destruct (decide (_valueMap tp = ∅)) as [Hempty|Hne].
    + by rewrite Hempty, lookup_empty.
    + destruct (_minIndex_spec tp Hne) as [_ Hleast].
      apply eq_None_not_Some. intros Hsome. apply Hleast in Hsome. lia.
  - intros i Hi. apply get_blank. simpl.
    destruct (decide (_valueMap tp = ∅)) as [Hempty|Hne].
    + by rewrite Hempty, lookup_empty.
    + destruct (_maxIndex_spec tp Hne) as [_ Hgreatest].
      apply eq_None_not_Some. intros Hsome. apply Hgreatest in Hsome. lia.
  - intros Hblank. simpl. by apply empty_indices, blank_tape.
Qed.

Lemma move_start_end_witness :
  get 0 (move START (move RIGHT (new "ab"))) ≠ "" ∧
  ∀ i, i < 0 → get i (move START (move RIGHT (new "ab"))) = "".
Proof.
  destruct (move_start_end (move RIGHT (new "ab"))) as (Hhead & Hleft & _).
  { apply built_move, built_new. }
  split; [|exact Hleft].
  apply Hhead. exists 0. vm_compute. discriminate.
Defined.

End TapeFacts.

(** ** The execution stacks of the interpreter *)
Module ExecutorInvariants.
Import CodeExecutor ExecutorSpec.

Lemma _validateTapeValue_Ok value program :
  _validateTapeValue value program = Ok () ↔ tapeFits value program.
Proof.
  unfold _validateTapeValue, tapeFits.
  destruct (forallb _ _) eqn:Hall.
  - split; [|done]. intros _ c Hc Hwhite.
    rewrite forallb_forall in Hall. apply list_elem_of_In, Hall in Hc.
    rewrite Hwhite in Hc. simpl in Hc. by apply bool_decide_eq_true in Hc.
  - split; [done|]. intros Hfits. exfalso.
    apply not_true_iff_false in Hall. apply Hall, forallb_forall.
    intros c Hc%list_elem_of_In.
    destruct (TMTape.isWhiteSpace c) eqn:Hwhite; [done|]. simpl.
    apply bool_decide_eq_true. by apply Hfits.
Qed.

(** X5.  [new CodeExecutor(value, program)] returns an executor exactly when
    every character of [value] is white space or a letter of the alphabet
    and the program has a module; a character that is neither makes it throw
    "The tape is not valid for the given TM Program."; the executor it
    returns holds the tape of [value], has no termination status and stands
    at the first block of the first module. *)
Theorem new_checks_the_tape value program :
  (is_Ok (new value program)
   ↔ tapeFits value program ∧ modules program ≠ []) ∧
  (¬ tapeFits value program →
   new value program
   = Throw "The tape is not valid for the given TM Program.") ∧
  (∀ e, new value program = Ok e →
        tape e = TMTape.new value ∧ terminationStatus e = None ∧
        currentBlock e = Ok (head (blocks_of_main program))).
Proof.
  unfold new. split_and!.
  - destruct (_validateTapeValue value program) as [[]|msg|] eqn:Hvalid;
      simpl.
    + apply _validateTapeValue_Ok in Hvalid.
      destruct (modules program) as [|main rest].
      * split; [by intros [e He]|]. by intros [_ Hne].
      * split; [done|]. intros _. by eexists.
    + split; [by intros [e He]|]. intros [Hfits _].
      apply _validateTapeValue_Ok in Hfits. congruence.
    + split; [by intros [e He]|]. intros [Hfits _].
      apply _validateTapeValue_Ok in Hfits. congruence.
  - intros Hfits. unfold _validateTapeValue.
    destruct (forallb _ _) eqn:Hall; [|done].
    exfalso. apply Hfits, _validateTapeValue_Ok.
    unfold _validateTapeValue. by rewrite Hall.
  - intros e He.
    destruct (_validateTapeValue value program); try discriminate.
    simpl in He. unfold blocks_of_main.
    destruct (modules program) as [|main rest]; [discriminate|].
    inversion He; subst e. unfold currentBlock. simpl.
    split_and!; [done|done|]. by destruct (blocks main).
Qed.

Lemma new_checks_the_tape_witness :
  new "a b" Samples.acceptAtOnce
  = Throw "The tape is not valid for the given TM Program.".
Proof.
  destruct (new_checks_the_tape "a b" Samples.acceptAtOnce) as (_ & Hbad & _).
  apply Hbad. intros Hfits.
  specialize (Hfits "b"%char). vm_compute in Hfits.
  assert ("b" ∈ ["a"]) as Hin.
  { apply Hfits; [|done]. do 2 apply list_elem_of_further.
    apply list_elem_of_here. }
  apply list_elem_of_singleton in Hin. discriminate.
Defined.


(** *** The stacks stay aligned *)

Lemma moduleFrames_cons isModule moduleStack :
  moduleFrames (isModule :: moduleStack)
  = (if isModule then 1 else 0) + moduleFrames moduleStack.
Proof.
  unfold moduleFrames. rewrite filter_cons.
  destruct isModule; by case_decide.
Qed.

Lemma last_cons_cons {A} (x y : A) l : last (x :: y :: l) = last (y :: l).
Proof. done. Qed.

Lemma loop_aligned blocksStack :
  ∀ indexStack argumentMapStack moduleStack,
    length indexStack = length blocksStack →
    length moduleStack = length blocksStack →
    length argumentMapStack = moduleFrames moduleStack →
    moduleStack = [] ∨ last moduleStack = Some true →
    ∃ blocksStack' indexStack' argumentMapStack' moduleStack',
      _incrementIndexAndPop_loop blocksStack indexStack argumentMapStack
        moduleStack
      = Ok (blocksStack', indexStack', argumentMapStack', moduleStack') ∧
      length indexStack' = length blocksStack' ∧
      length moduleStack' = length blocksStack' ∧
      length argumentMapStack' = moduleFrames moduleStack' ∧
      (moduleStack' = [] ∨ last moduleStack' = Some true).
Proof.
  induction blocksStack as [|currentBlocks blocksStack IH];
    intros indexStack argumentMapStack moduleStack Hindex Hflags Hmaps Hbottom;
    simpl.
  - destruct indexStack; [|done]. destruct moduleStack; [|done].
    by eexists _, _, _, _.
  - destruct indexStack as [|i indexStack]; [done|].
    destruct moduleStack as [|isModule moduleStack]; [done|].
    case_bool_decide.
    + eexists _, _, _, _. split; [done|]. split_and!; simpl in *; by try lia.
    + apply IH.
      * simpl in *. lia.
      * simpl in *. lia.
      * rewrite moduleFrames_cons in Hmaps.
        destruct isModule; [|done].
        destruct argumentMapStack; simpl in *; lia.
      * destruct Hbottom as [|Hlast]; [done|].
        destruct moduleStack; [by left|by right].
Qed.

Lemma new_aligned value program e : new value program = Ok e → aligned e.
Proof.
  unfold new. intros He.
  destruct (_validateTapeValue value program); try discriminate.
  simpl in He. destruct (modules program); [discriminate|].
  inversion He; subst e. split; simpl; try done. by right.
Qed.

Lemma _pushBlocks_aligned blocks e :
  aligned e → _currentBlocksStack e ≠ [] →
  aligned (_pushBlocks blocks false e).
Proof.
  intros [Hindex Hflags Hmaps Hbottom Hrunning] Hne.
  split; simpl; try lia.
  - by rewrite moduleFrames_cons.
  - right. destruct (_topLevelModuleStack e) as [|isModule moduleStack].
    + destruct (_currentBlocksStack e); done.
    + destruct Hbottom; done.
  - done.
Qed.

Lemma _findExecutionBlock_aligned tapehead e executionBlock e' :
  aligned e → _terminationStatus e = None →
  _findExecutionBlock tapehead e = Ok (executionBlock, e') →
  aligned e' ∧ _terminationStatus e' = None.
Proof.
  intros Haligned Hstatus. unfold _findExecutionBlock.
  destruct (currentBlock e) as [[[block|cases]|]|msg|]; simpl; try done.
  - by intros [= _ <-].
  - destruct (_currentArgumentMap e); simpl; [|done].
    destruct (find _ cases) as [caseBlock|]; [|done].
    destruct (firstBlock caseBlock); [|done].
    intros [= _ <-]. destruct (isIfOrElse caseBlock); [|done].
    split; [|done].
    apply _pushBlocks_aligned; [done|]. by apply aligned_running.
Qed.

Lemma _findNextBlock_aligned block e e' :
  aligned e → _terminationStatus e = None →
  _findNextBlock block e = Ok e' → aligned e'.
Proof.
  intros [Hindex Hflags Hmaps Hbottom Hrunning] Hstatus.
  unfold _findNextBlock.
  destruct (flowCommand block) as [[identifier args|state]|].
  - destruct (find _ _) as [nextModule|]; [|done]. intros [= <-].
    split; simpl; try lia.
    + rewrite moduleFrames_cons. lia.
    + right. destruct (_topLevelModuleStack e) as [|isModule moduleStack].
      * done.
      * destruct Hbottom; done.
    + done.
  - intros [= <-]. split; simpl; done.
  - unfold _incrementIndexAndPop.
    destruct (loop_aligned _ _ _ _ Hindex Hflags Hmaps Hbottom)
      as (bs & idxs & maps & flags & -> & Hindex' & Hflags' & Hmaps' & Hbottom').
    simpl. intros [= <-].
    destruct bs as [|currentBlocks bs]; split; simpl; done.
Qed.

Lemma execute_aligned e b e' :
  aligned e → execute e = Ok (b, e') → aligned e'.
Proof.
  intros Haligned. unfold execute, terminationStatus.
  destruct (_terminationStatus e) eqn:Hstatus; [by intros [= _ <-]|].
  destruct (_findExecutionBlock _ e) as [[executionBlock e1]|msg|] eqn:Hfind;
    simpl; try done.
  destruct (_findExecutionBlock_aligned _ _ _ _ Haligned Hstatus Hfind)
    as [Haligned1 Hstatus1].
  assert (aligned (_execute executionBlock (TMTape.get 0 (tape e)) e1))
    as Haligned2 by (by destruct Haligned1).
  destruct executionBlock as [block|block].
  - destruct (_findNextBlock block _) as [e3|msg|] eqn:Hnext; simpl; try done.
    intros [= _ <-]. by eapply _findNextBlock_aligned.
  - by intros [= _ <-].
Qed.

Lemma aligned_map e :
  aligned e → _terminationStatus e = None → is_Some (_currentArgumentMap e).
Proof.
  intros [Hindex Hflags Hmaps Hbottom Hrunning] Hstatus.
  specialize (Hrunning Hstatus). unfold _currentArgumentMap.
  destruct (_argumentMapStack e) as [|argumentMap maps]; [|by eexists].
  exfalso. simpl in Hmaps.
  destruct Hbottom as [Hempty|Hlast].
  - rewrite Hempty in Hflags. by destruct (_currentBlocksStack e).
  - assert (true ∈ _topLevelModuleStack e) as Hin.
    { apply last_Some in Hlast as [front ->]. apply elem_of_app. right.
      apply list_elem_of_here. }
    unfold moduleFrames in Hmaps.
    assert (true ∈ filter (λ isModule, isModule = true)
                     (_topLevelModuleStack e)) as Hfiltered
      by by apply list_elem_of_filter.
    destruct (filter _ _); [by apply elem_of_nil in Hfiltered|done].
Qed.

(** X6.  On every executor reached from the constructor by calls of
    [execute] the stacks are aligned: one index and one module flag per block
    list, one argument map per module frame, a module frame at the bottom.
    While no termination status is set there is a frame to run, so the
    current argument map and [currentBlock] can be read and
    [_incrementIndexAndPop] does not read past a stack. *)
Theorem reachable_aligned program value e :
  reachable program value e →
  aligned e ∧
  (terminationStatus e = None →
   is_Some (_currentArgumentMap e) ∧ is_Ok (currentBlock e) ∧
   is_Ok (_incrementIndexAndPop e)).
Proof.
  intros Hreach.
  assert (aligned e) as Haligned.
  { induction Hreach as [e Hnew|e e' _ IH [b Hstep]].
    - by eapply new_aligned.
    - by eapply execute_aligned. }
  split; [done|]. intros Hstatus. split_and!.
  - by apply aligned_map.
  - unfold terminationStatus in Hstatus. unfold currentBlock.
    rewrite Hstatus.
    pose proof (aligned_running _ Haligned Hstatus) as Hne.
    pose proof (aligned_index _ Haligned) as Hindex.
    destruct (_currentBlocksStack e); [done|].
    destruct (_currentBlockIndexStack e); [done|]. by eexists.
  - destruct Haligned as [Hindex Hflags Hmaps Hbottom _].
    unfold _incrementIndexAndPop.
    destruct (loop_aligned _ _ _ _ Hindex Hflags Hmaps Hbottom)
      as (bs & idxs & maps & flags & -> & _).
    simpl. by eexists.
Qed.

Lemma reachable_aligned_witness :
  aligned (Samples.freshExecutor "a" Samples.gotoWithArgument) ∧
  is_Some
    (_currentArgumentMap (Samples.freshExecutor "a" Samples.gotoWithArgument)).
Proof.
  destruct (reachable_aligned Samples.gotoWithArgument "a"
              (Samples.freshExecutor "a" Samples.gotoWithArgument))
    as [Haligned Hrunning].
  { apply reachable_new. reflexivity. }
  split; [exact Haligned|]. by destruct (Hrunning eq_refl) as (Hmap & _).
Defined.


(** *** Falling off the end of a block sequence *)

Lemma loop_resumes (done : list Frame) :
  ∀ currentBlocks j isModule blocksStack indexStack argumentMapStack
    moduleStack,
    Forall exhausted done →
    j + 1 < length currentBlocks →
    _incrementIndexAndPop_loop
      ((frameBlocks <$> done) ++ currentBlocks :: blocksStack)
      ((frameIndex <$> done) ++ j :: indexStack)
      argumentMapStack
      ((frameIsModule <$> done) ++ isModule :: moduleStack)
    = Ok (currentBlocks :: blocksStack, (j + 1) :: indexStack,
          drop (moduleFrames (frameIsModule <$> done)) argumentMapStack,
          isModule :: moduleStack).
Proof.
  induction done as [|[[blocks i] flag] done IH];
    intros currentBlocks j isModule blocksStack indexStack maps moduleStack
      Hdone Hnext; simpl.
  - by rewrite bool_decide_eq_true_2.
  - apply Forall_cons in Hdone as [Hthis Hdone].
    unfold exhausted in Hthis. simpl in Hthis.
    rewrite bool_decide_eq_false_2 by lia.
    rewrite IH by done. f_equal. f_equal. f_equal.
    rewrite moduleFrames_cons.
    destruct flag; simpl; [|done].
    destruct maps; simpl; [by rewrite drop_nil|done].
Qed.

Lemma loop_empties (done : list Frame) : ∀ argumentMapStack,
  Forall exhausted done →
  _incrementIndexAndPop_loop (frameBlocks <$> done) (frameIndex <$> done)
    argumentMapStack (frameIsModule <$> done)
  = Ok ([], [], drop (moduleFrames (frameIsModule <$> done)) argumentMapStack,
        []).
Proof.
  induction done as [|[[blocks i] flag] done IH]; intros maps Hdone; simpl.
  - done.
  - apply Forall_cons in Hdone as [Hthis Hdone].
    unfold exhausted in Hthis. simpl in Hthis.
    rewrite bool_decide_eq_false_2 by lia.
    rewrite IH by done. f_equal. f_equal. f_equal.
    rewrite moduleFrames_cons.
    destruct flag; simpl; [|done].
    destruct maps; simpl; [by rewrite drop_nil|done].
Qed.

(** X7.  [_findNextBlock] on a block without a flow command, when the frames
    [done] on top of the stack stand at their last block: if a frame with a
    next block lies below them, the [done] frames are popped, one argument
    map for each module frame among them, the index of that frame is bumped,
    and status and tape stay (so the end of a module reached by a goto
    resumes the sequence the goto came from); if the stack holds nothing
    else, the stack is emptied and the status is reject. *)
Theorem _findNextBlock_resumes_or_rejects block e (done : list Frame) :
  flowCommand block = None →
  Forall exhausted done →
  (∀ currentBlocks j isModule blocksStack indexStack moduleStack,
     _currentBlocksStack e
     = (frameBlocks <$> done) ++ currentBlocks :: blocksStack →
     _currentBlockIndexStack e = (frameIndex <$> done) ++ j :: indexStack →
     _topLevelModuleStack e
     = (frameIsModule <$> done) ++ isModule :: moduleStack →
     j + 1 < length currentBlocks →
     ∃ e',
       _findNextBlock block e = Ok e' ∧
       _currentBlocksStack e' = currentBlocks :: blocksStack ∧
       _currentBlockIndexStack e' = (j + 1) :: indexStack ∧
       _topLevelModuleStack e' = isModule :: moduleStack ∧
       _argumentMapStack e'
       = drop (moduleFrames (frameIsModule <$> done)) (_argumentMapStack e) ∧
       _terminationStatus e' = _terminationStatus e ∧ tape e' = tape e) ∧
  (_currentBlocksStack e = frameBlocks <$> done →
   _currentBlockIndexStack e = frameIndex <$> done →
   _topLevelModuleStack e = frameIsModule <$> done →
   ∃ e',
     _findNextBlock block e = Ok e' ∧
     _currentBlocksStack e' = [] ∧
     _terminationStatus e' = Some REJECT ∧ tape e' = tape e).
Proof.
  intros Hflow Hdone. split.
  - intros currentBlocks j isModule blocksStack indexStack moduleStack
      Hblocks Hindex Hflags Hnext.
    unfold _findNextBlock, _incrementIndexAndPop.
    rewrite Hflow, Hblocks, Hindex, Hflags, loop_resumes by done.
    simpl. eexists. split; [done|]. simpl. done.
  - intros Hblocks Hindex Hflags.
    unfold _findNextBlock, _incrementIndexAndPop.
    rewrite Hflow, Hblocks, Hindex, Hflags, loop_empties by done.
    simpl. eexists. split; [done|]. simpl. done.
Qed.

Lemma _findNextBlock_resumes_or_rejects_witness :
  ∃ e',
    _findNextBlock
      {| changeToCommand := None; moveCommand := Some RIGHT;
         flowCommand := None |} Samples.atLastBlockOfBody = Ok e' ∧
    _currentBlocksStack e' = [] ∧
    _terminationStatus e' = Some REJECT ∧
    tape e' = tape Samples.atLastBlockOfBody.
Proof.
  destruct (_findNextBlock_resumes_or_rejects
              {| changeToCommand := None; moveCommand := Some RIGHT;
                 flowCommand := None |}
              Samples.atLastBlockOfBody
              [ ([Samples.basic None (Some RIGHT) None;
                  Samples.basic None (Some RIGHT) None], 1, false);
                (blocks (Samples.mainOf Samples.ifBodyFallsThrough), 0, true) ])
    as [_ Hrejects].
  - reflexivity.
  - repeat constructor.
  - by apply Hrejects.
Defined.


(** *** The tape of a run *)
Import TapeSpec.


Lemma change_read tp :
  holdsLetters tp → TMTape.change (TMTape.get 0 tp) tp = tp.
Proof.
  intros Hletters. destruct tp as [valueMap index].
  unfold TMTape.change, TMTape.get. simpl. rewrite Z.add_0_r.
  destruct (valueMap !! index) as [letter|] eqn:Hletter; simpl.
  - rewrite (Hletters index letter Hletter). simpl. f_equal.
    by apply insert_id.
  - f_equal. by apply delete_id.
Qed.

Lemma _findExecutionBlock_tape tapehead e executionBlock e' :
  _findExecutionBlock tapehead e = Ok (executionBlock, e') →
  tape e' = tape e.
Proof.
  unfold _findExecutionBlock.
  destruct (currentBlock e) as [[[block|cases]|]|msg|]; simpl; try done.
  - by intros [= _ <-].
  - destruct (_currentArgumentMap e); simpl; [|done].
    destruct (find _ cases) as [caseBlock|]; [|done].
    destruct (firstBlock caseBlock); [|done].
    intros [= _ <-]. by destruct (isIfOrElse caseBlock).
Qed.

Lemma _findNextBlock_tape block e e' :
  _findNextBlock block e = Ok e' → tape e' = tape e.
Proof.
  unfold _findNextBlock.
  destruct (flowCommand block) as [[identifier args|state]|].
  - destruct (find _ _); [|done]. by intros [= <-].
  - by intros [= <-].
  - unfold _incrementIndexAndPop.
    destruct (_incrementIndexAndPop_loop _ _ _ _)
      as [[[[bs idxs] maps] flags]|msg|]; simpl; try done.
    intros [= <-]. by destruct bs.
Qed.

Lemma execute_built e b e' :
  built (tape e) → execute e = Ok (b, e') → built (tape e').
Proof.
  intros Hbuilt. unfold execute.
  destruct (terminationStatus e); [by intros [= _ <-]|].
  destruct (_findExecutionBlock _ e) as [[executionBlock e1]|msg|] eqn:Hfind;
    simpl; try done.
  apply _findExecutionBlock_tape in Hfind.
  assert (built (tape (_execute executionBlock (TMTape.get 0 (tape e)) e1)))
    as Hbuilt2.
  { simpl. rewrite Hfind. by apply built_move, built_change. }
  destruct executionBlock as [block|block].
  - destruct (_findNextBlock block _) as [e3|msg|] eqn:Hnext; simpl; try done.
    intros [= _ <-]. apply _findNextBlock_tape in Hnext. by rewrite Hnext.
  - by intros [= _ <-].
Qed.

Lemma reachable_built program value e :
  reachable program value e → built (tape e).
Proof.
  induction 1 as [e Hnew|e e' _ IH [b Hstep]].
  - unfold new in Hnew.
    destruct (_validateTapeValue value program); try done. simpl in Hnew.
    destruct (modules program); [done|]. inversion Hnew. apply built_new.
  - by eapply execute_built.
Qed.

(** X20.  On every executor reached from the constructor, a block without a
    changeto command writes back the letter under the head, which leaves
    every cell as it was: the tape after [_execute] is the old tape moved,
    to the left when the block has no move command either. *)
Theorem _execute_without_changeto program value e block :
  reachable program value e →
  execChangeTo block = None →
  tape (_execute block (TMTape.get 0 (tape e)) e)
  = TMTape.move (default LEFT (execMove block)) (tape e).
Proof.
  intros Hreach Hchange.
  pose proof (reachable_built _ _ _ Hreach) as Hbuilt.
  unfold _execute. rewrite Hchange. simpl.
  rewrite change_read; [done|]. by apply TapeFacts.holdsLetters_built.
Qed.

Lemma _execute_without_changeto_witness :
  tape (_execute (ExecBasic {| changeToCommand := None; moveCommand := None;
                               flowCommand := None |})
          (TMTape.get 0 (tape (Samples.freshExecutor "a"
                                 Samples.gotoWithArgument)))
          (Samples.freshExecutor "a" Samples.gotoWithArgument))
  = TMTape.move LEFT (TMTape.new "a").
Proof.
  apply (_execute_without_changeto Samples.gotoWithArgument "a").
  - apply reachable_new. reflexivity.
  - reflexivity.
Defined.

(** *** The argument map of a goto *)

Lemma _generateArgumentMap_other args : ∀ params argumentMap key,
  key ∉ args →
  JsMap.get (_generateArgumentMap params args argumentMap) key
  = JsMap.get argumentMap key.
Proof.
  induction args as [|arg args IH]; intros [|param params] m key Hkey;
    simpl; try done.
  apply not_elem_of_cons in Hkey as [Hne Hkey].
  rewrite IH by done. by apply ConversionFacts.JsMap_get_set_ne.
Qed.

Lemma _generateArgumentMap_bindsArguments args : ∀ params argumentMap,
  bindsArguments params args
    (_generateArgumentMap params args argumentMap).
Proof.
  induction args as [|arg args IH]; intros params m i param arg' Hparam Harg
    Hlast; [done|].
  destruct params as [|param' params]; [done|].
  destruct i as [|i]; simpl in *.
  - inversion Hparam; inversion Harg; subst.
    rewrite _generateArgumentMap_other.
    + apply ConversionFacts.JsMap_get_set_eq.
    + intros Hin. apply list_elem_of_lookup in Hin as [j Hj].
      apply (Hlast (S j)); [lia|done].
  - apply (IH params _ i); [done|done|].
    intros j Hj. apply (Hlast (S j)). lia.
Qed.

Lemma _findExecutionBlock_program tapehead e block e1 :
  _findExecutionBlock tapehead e = Ok (block, e1) →
  _program e1 = _program e ∧ _terminationStatus e1 = _terminationStatus e ∧
  _argumentMapStack e1 = _argumentMapStack e.
Proof.
  unfold _findExecutionBlock. intros Hfind.
  destruct (currentBlock e) as [[[basic|cases]|]| |]; simpl in Hfind;
    try discriminate.
  - by inversion Hfind.
  - destruct (_currentArgumentMap e); simpl in Hfind; [|discriminate].
    destruct (find _ cases) as [caseBlock|]; [|discriminate].
    destruct (firstBlock caseBlock); [|discriminate].
    inversion Hfind; subst. by destruct (isIfOrElse caseBlock).
Qed.

(** C3 (as amended).  A step of the interpreter that executes a basic block
    whose flow command is a goto to a module of the program, with as many
    arguments as the module has parameters, pushes a new module frame (the
    blocks of the module, the index 0, the module flag) and one argument map.
    The map leads from each argument value of the call to the parameter name
    at the same position, from a value that is passed twice to the last of
    its parameters, and holds nothing else. *)
Theorem C3_goto_maps_argument_values_to_parameter_names
    e block e1 identifier args nextModule :
  terminationStatus e = None →
  _findExecutionBlock (TMTape.get 0 (tape e)) e = Ok (ExecBasic block, e1) →
  flowCommand block = Some (GoToContext identifier args) →
  find (λ module, String.eqb (Contexts.identifier module) identifier)
    (modules (_program e)) = Some nextModule →
  length (params nextModule) = length args →
  ∃ e' argumentMap,
    execute e = Ok (true, e') ∧
    _currentBlocksStack e' = blocks nextModule :: _currentBlocksStack e1 ∧
    _currentBlockIndexStack e' = 0 :: _currentBlockIndexStack e1 ∧
    _topLevelModuleStack e' = true :: _topLevelModuleStack e1 ∧
    _argumentMapStack e' = argumentMap :: _argumentMapStack e ∧
    bindsArguments (params nextModule) args argumentMap ∧
    (∀ key, key ∉ args → JsMap.get argumentMap key = None).
Proof.
  intros Hstatus Hfind Hflow Hmodule Hlength.
  destruct (_findExecutionBlock_program _ _ _ _ Hfind)
    as (Hprogram & _ & Hmaps).
  unfold execute. rewrite Hstatus, Hfind. cbn [rbind].
  unfold _findNextBlock. rewrite Hflow.
  change (_program (_execute (ExecBasic block) (TMTape.get 0 (tape e)) e1))
    with (_program e1).
  rewrite Hprogram, Hmodule. cbn [rbind].
  eexists _, _. split; [reflexivity|]. simpl.
  split_and!; try reflexivity.
  - by rewrite Hmaps.
  - apply _generateArgumentMap_bindsArguments.
  - intros key Hkey. by rewrite _generateArgumentMap_other.
Qed.

Lemma C3_witness :
  ∃ e' argumentMap,
    execute (Samples.freshExecutor "a" Samples.gotoWithArgument)
    = Ok (true, e') ∧
    _argumentMapStack e' = [argumentMap; JsMap.empty] ∧
    JsMap.get argumentMap "a" = Some "x" ∧
    JsMap.get argumentMap "x" = None.
Proof.
  destruct (C3_goto_maps_argument_values_to_parameter_names
              (Samples.freshExecutor "a" Samples.gotoWithArgument)
              {| changeToCommand := None; moveCommand := None;
                 flowCommand := Some (GoToContext "b" ["a"]) |}
              (Samples.freshExecutor "a" Samples.gotoWithArgument)
              "b" ["a"]
              {| identifier := "b"; params := ["x"];
                 blocks :=
                   [SwitchBlock
                      [IfCase ["x"]
                         [Samples.basic None None
                            (Some (TerminationContext ACCEPT))];
                       ElseCase
                         [Samples.basic None None
                            (Some (TerminationContext REJECT))]]] |})
    as (e' & argumentMap & Hstep & _ & _ & _ & Hmaps & Hbinds & Hother);
    try reflexivity.
  exists e', argumentMap. split_and!; [exact Hstep|exact Hmaps| |].
  - apply (Hbinds 0 "x" "a"); [reflexivity|reflexivity|].
    intros [|j] Hj; [lia|discriminate].
  - apply Hother. intros Hin. apply list_elem_of_singleton in Hin.
    discriminate.
Defined.

End ExecutorInvariants.

(** ** What the validators accept *)
Module ValidatorSoundness.
Import Messages ConverterSpec ValidatorSpec.

Lemma elem_of_setAdd s x y :
  y ∈ CodeConverter.setAdd s x ↔ y ∈ s ∨ y = x.
Proof.
  unfold CodeConverter.setAdd. case_bool_decide as Hin.
  - split; [by left|]. by intros [ | -> ].
  - rewrite elem_of_app, list_elem_of_singleton. done.
Qed.

Lemma elem_of_foldl_setAdd values : ∀ s y,
  y ∈ foldl CodeConverter.setAdd s values ↔ y ∈ s ∨ y ∈ values.
Proof.
  induction values as [|x values IH]; intros s y; simpl.
  - rewrite elem_of_nil. tauto.
  - rewrite IH, elem_of_setAdd, elem_of_cons. tauto.
Qed.

Lemma elem_of_setOf values y : y ∈ CodeConverter.setOf values ↔ y ∈ values.
Proof.
  unfold CodeConverter.setOf. rewrite elem_of_foldl_setAdd, elem_of_nil. tauto.
Qed.

Lemma visitAlphabet_Ok values alphabet :
  CodeValidator.visitAlphabet values = Ok alphabet →
  values ≠ [] ∧ ∀ letter, letter ∈ alphabet ↔ letter ∈ values.
Proof.
  unfold CodeValidator.visitAlphabet. destruct values as [|v values]; [done|].
  intros [= <-]. split; [done|]. intros letter. apply elem_of_setOf.
Qed.

(** *** The module table *)

Lemma _addModuleNames_Ok modules : ∀ moduleNames moduleNames',
  CodeValidator._addModuleNames modules moduleNames = Ok moduleNames' →
  NoDup (identifier <$> modules) ∧
  (∀ module, module ∈ modules → moduleNames !! identifier module = None) ∧
  (∀ module, module ∈ modules →
             moduleNames' !! identifier module
             = Some (length (params module))) ∧
  (∀ name, name ∉ identifier <$> modules →
           moduleNames' !! name = moduleNames !! name).
Proof.
  induction modules as [|module modules IH]; intros names names'; simpl.
  - intros [= <-]. split_and!; [constructor|by intros ? ?%elem_of_nil|
                                by intros ? ?%elem_of_nil|done].
  - destruct (names !! identifier module) eqn:Hfresh; [done|].
    intros (Hnodup & Hnew & Hall & Hother)%IH. split_and!.
    + constructor; [|done]. intros (module' & Heq & Hin)%list_elem_of_fmap.
      apply Hnew in Hin. rewrite <- Heq, lookup_insert_eq in Hin. done.
    + intros module' [->|Hin]%elem_of_cons; [done|].
      apply Hnew in Hin.
      apply lookup_insert_None in Hin as [Hin _]. done.
    + intros module' [->|Hin]%elem_of_cons; [|by apply Hall].
      destruct (decide (identifier module ∈ identifier <$> modules))
        as [(module' & Heq & Hin)%list_elem_of_fmap|Hnotin].
      * apply Hnew in Hin. rewrite <- Heq, lookup_insert_eq in Hin. done.
      * rewrite Hother by done. apply lookup_insert_eq.
    + intros name Hname. apply not_elem_of_cons in Hname as [Hne Hname].
      rewrite Hother by done. by rewrite lookup_insert_ne.
Qed.

Lemma _addModuleNames_NoDup modules : ∀ moduleNames,
  NoDup (identifier <$> modules) →
  (∀ module, module ∈ modules → moduleNames !! identifier module = None) →
  is_Ok (CodeValidator._addModuleNames modules moduleNames).
Proof.
  induction modules as [|module modules IH]; intros names Hnodup Hfresh; simpl.
  - by eexists.
  - rewrite Hfresh by apply list_elem_of_here.
    apply NoDup_cons in Hnodup as [Hnotin Hnodup]. apply IH; [done|].
    intros module' Hin. rewrite lookup_insert_ne.
    + apply Hfresh. by apply list_elem_of_further.
    + intros Heq. apply Hnotin. rewrite Heq. by apply list_elem_of_fmap_2.
Qed.

Lemma _addModuleNames_duplicate front module back moduleNames :
  NoDup (identifier <$> front) →
  (∀ module', module' ∈ front →
              moduleNames !! identifier module' = None) →
  is_Some (moduleNames !! identifier module)
  ∨ identifier module ∈ identifier <$> front →
  CodeValidator._addModuleNames (front ++ module :: back) moduleNames
  = Throw (duplicateModule (identifier module)).
Proof.
  revert moduleNames.
  induction front as [|first front IH]; intros names Hnodup Hfresh Hdup; simpl.
  - destruct Hdup as [[n ->]|Hin]; [done|by apply elem_of_nil in Hin].
  - rewrite Hfresh by apply list_elem_of_here.
    apply NoDup_cons in Hnodup as [Hnotin Hnodup]. apply IH; [done| |].
    + intros module' Hin. rewrite lookup_insert_ne.
      * apply Hfresh. by apply list_elem_of_further.
      * intros Heq. apply Hnotin. rewrite Heq. by apply list_elem_of_fmap_2.
    + destruct Hdup as [[n Hn]|Hin].
      * left. destruct (decide (identifier first = identifier module)) as [->|].
        -- rewrite lookup_insert_eq. by eexists.
        -- rewrite lookup_insert_ne by done. by eexists.
      * apply elem_of_cons in Hin as [Heq|Hin]; [|by right].
        left. rewrite Heq, lookup_insert_eq. by eexists.
Qed.

(** X8.  [_addModuleNames] from an empty table: when it returns, the module
    identifiers are pairwise distinct, every module is found under its
    identifier with its number of parameters and no other name is in the
    table; it returns whenever the identifiers are pairwise distinct; and the
    first module whose identifier repeats an earlier one makes it throw
    "Duplicate module with name". *)
Theorem _addModuleNames_table modules :
  (∀ moduleNames,
     CodeValidator._addModuleNames modules ∅ = Ok moduleNames →
     NoDup (identifier <$> modules) ∧
     (∀ module, module ∈ modules →
                moduleNames !! identifier module
                = Some (length (params module))) ∧
     (∀ name, name ∉ identifier <$> modules → moduleNames !! name = None)) ∧
  (NoDup (identifier <$> modules) →
   is_Ok (CodeValidator._addModuleNames modules ∅)) ∧
  (∀ front module back,
     modules = front ++ module :: back →
     NoDup (identifier <$> front) →
     identifier module ∈ identifier <$> front →
     CodeValidator._addModuleNames modules ∅
     = Throw (duplicateModule (identifier module))).
Proof.
  split_and!.
  - intros names Hok.
    apply _addModuleNames_Ok in Hok as (Hnodup & _ & Hall & Hother).
    split_and!; [done|done|]. intros name Hname.
    by rewrite Hother, lookup_empty.
  - intros Hnodup. by apply _addModuleNames_NoDup.
  - intros front module back -> Hnodup Hin.
    apply _addModuleNames_duplicate; [done| |by right].
    intros module' _. apply lookup_empty.
Qed.


(** *** What the validator that requires an else case accepts *)
Section Else.
Variable alphabet : list string.
Variable moduleNames : gmap string nat.

Lemma visitAllWith_Ok {A} (visit : A → result unit) contexts :
  CodeValidatorElse.visitAllWith visit contexts = Ok () →
  Forall (λ context, visit context = Ok ()) contexts.
Proof.
  induction contexts as [|context contexts IH]; simpl; [constructor|].
  destruct (visit context) as [[]|msg|] eqn:Hvisit; simpl; try done.
  intros Hrest. constructor; [done|by apply IH].
Qed.

Lemma visitFlow_named flow identifier args :
  CodeValidatorElse.visitFlow moduleNames flow = Ok () →
  flow = GoToContext identifier args →
  named moduleNames (identifier, args).
Proof.
  intros Hflow ->. unfold named. simpl.
  unfold CodeValidatorElse.visitFlow, CodeValidatorElse.visitGoTo in Hflow.
  destruct (moduleNames !! identifier) as [paramCount|]; [|done].
  case_bool_decide as Hcount; [done|]. f_equal.
  destruct (decide (length args = paramCount)); done.
Qed.

Lemma visitChangeTo_letter value :
  CodeValidatorElse.visitChangeTo alphabet value = Ok () →
  value = "" ∨ value ∈ alphabet.
Proof.
  unfold CodeValidatorElse.visitChangeTo, CodeValidatorElse.setHas.
  destruct (String.eqb_spec value ""); [by left|]. simpl.
  case_bool_decide; [by right|done].
Qed.

Lemma visitBasicBlock_sound block :
  CodeValidatorElse.visitBasicBlock alphabet moduleNames block = Ok () →
  sound alphabet moduleNames (BasicBlock block).
Proof.
  unfold CodeValidatorElse.visitBasicBlock, sound. simpl. intros Hvisit.
  split_and!; [|done|].
  - destruct (flowCommand block) as [[identifier args|state]|] eqn:Hflow;
      try by intros ? ?%elem_of_nil.
    intros goto ->%list_elem_of_singleton.
    destruct (match changeToCommand block with
              | Some value => _ | None => _ end) as [[]|msg|];
      simpl in Hvisit; try done.
    by apply (visitFlow_named (GoToContext identifier args)).
  - destruct (changeToCommand block) as [value|];
      [|by intros ? ?%elem_of_nil].
    intros value' ->%list_elem_of_singleton.
    apply visitChangeTo_letter.
    by destruct (CodeValidatorElse.visitChangeTo alphabet value) as [[]|?|].
Qed.

Section Module.
Variable parameters : list string.

Local Abbreviation visit :=
  (CodeValidatorElse.visit alphabet moduleNames parameters).

Lemma visitCase_sound switchCase :
  Forall (λ block, visit block = Ok () → sound alphabet moduleNames block)
    (CodeExecutor.caseBlocks switchCase) →
  CodeValidatorElse.visitCaseWith visit switchCase = Ok () →
  caseStartsBasic switchCase = true ∧
  Forall (sound alphabet moduleNames) (CodeExecutor.caseBlocks switchCase).
Proof.
  intros IH. destruct switchCase as [values blocks|values core|blocks]; simpl.
  - destruct values as [|value values]; [done|].
    destruct blocks as [|[first|cases] blocks]; try done.
    intros Hall%visitAllWith_Ok.
    assert (Forall (sound alphabet moduleNames) (BasicBlock first :: blocks))
      as Hsound.
    { simpl in IH. clear -IH Hall.
      induction Hall as [|block rest Hblock Hrest IHrest]; [constructor|].
      apply Forall_cons in IH as [Hthis IH].
      constructor; [by apply Hthis|by apply IHrest]. }
    split; [|done]. apply forallb_forall. intros block Hin%list_elem_of_In.
    rewrite Forall_forall in Hsound. by apply Hsound.
  - intros _. split; [done|constructor].
  - destruct blocks as [|[first|cases] blocks]; try done.
    intros Hall%visitAllWith_Ok.
    assert (Forall (sound alphabet moduleNames) (BasicBlock first :: blocks))
      as Hsound.
    { simpl in IH. clear -IH Hall.
      induction Hall as [|block rest Hblock Hrest IHrest]; [constructor|].
      apply Forall_cons in IH as [Hthis IH].
      constructor; [by apply Hthis|by apply IHrest]. }
    split; [|done]. apply forallb_forall. intros block Hin%list_elem_of_In.
    rewrite Forall_forall in Hsound. by apply Hsound.
Qed.

Lemma visit_sound block :
  visit block = Ok () → sound alphabet moduleNames block.
Proof.
  induction block as [block|cases IH] using ConversionFacts.block_ind_nested.
  - simpl. apply visitBasicBlock_sound.
  - simpl. unfold CodeValidatorElse.visitSwitchBlockWith.
    destruct (CodeValidatorElse.scanCases _ _ _ _ _ _)
      as [[[alphabetSet seenElse] seenParamValue]|msg|]; simpl; try done.
    destruct (CodeValidatorElse.visitAllWith _ cases) as [[]|msg|] eqn:Hcases;
      simpl; try done.
    intros _. apply visitAllWith_Ok in Hcases.
    assert (Forall (λ switchCase,
                      caseStartsBasic switchCase = true ∧
                      Forall (sound alphabet moduleNames)
                        (CodeExecutor.caseBlocks switchCase)) cases)
      as Hsound.
    { clear -IH Hcases.
      induction Hcases as [|switchCase rest Hcase Hrest IHrest];
        [constructor|].
      apply Forall_cons in IH as [Hthis IH].
      constructor; [by apply visitCase_sound|by apply IHrest]. }
    clear -Hsound. unfold sound. split_and!.
    + intros goto Hgoto. simpl in Hgoto.
      apply list_elem_of_In, in_flat_map in Hgoto
        as (switchCase & Hcase%list_elem_of_In & Hgoto).
      rewrite Forall_forall in Hsound.
      destruct (Hsound _ Hcase) as [_ Hblocks].
      destruct switchCase as [values blocks|values core|blocks];
        simpl in *; try done;
        apply in_flat_map in Hgoto as (block & Hblock%list_elem_of_In & Hgoto);
        rewrite Forall_forall in Hblocks;
        by apply (Hblocks block Hblock), list_elem_of_In.
    + simpl. apply forallb_forall. intros switchCase Hcase%list_elem_of_In.
      rewrite Forall_forall in Hsound.
      by destruct (Hsound _ Hcase) as [Hstarts _].
    + intros value Hvalue. simpl in Hvalue.
      apply list_elem_of_In, in_flat_map in Hvalue
        as (switchCase & Hcase%list_elem_of_In & Hvalue).
      rewrite Forall_forall in Hsound.
      destruct (Hsound _ Hcase) as [_ Hblocks].
      destruct switchCase as [values blocks|values core|blocks];
        simpl in *; try done;
        apply in_flat_map in Hvalue
          as (block & Hblock%list_elem_of_In & Hvalue);
        rewrite Forall_forall in Hblocks;
        by apply (Hblocks block Hblock), list_elem_of_In.
Qed.

End Module.

Lemma visitModule_sound module :
  CodeValidatorElse.visitModule alphabet moduleNames module = Ok () →
  (∀ param, param ∈ params module → param ∉ alphabet) ∧
  Forall (sound alphabet moduleNames) (blocks module).
Proof.
  unfold CodeValidatorElse.visitModule.
  destruct (find _ (params module)) as [letter|] eqn:Hfind; [done|].
  intros Hall%visitAllWith_Ok. split.
  - intros param Hparam Hin.
    eapply find_none in Hfind; [|by apply list_elem_of_In].
    unfold CodeValidatorElse.setHas in Hfind.
    by apply bool_decide_eq_false in Hfind.
  - eapply Forall_impl; [exact Hall|]. intros block. apply visit_sound.
Qed.

End Else.

Lemma named_resolves program moduleNames goto :
  CodeValidator._addModuleNames (modules program) ∅ = Ok moduleNames →
  named moduleNames goto → resolves program goto.
Proof.
  intros Hnames Hnamed.
  apply _addModuleNames_Ok in Hnames as (_ & _ & Hall & Hother).
  unfold named in Hnamed.
  destruct (decide (goto.1 ∈ identifier <$> modules program))
    as [(module & Heq & Hin)%list_elem_of_fmap|Hnotin].
  - exists module. split_and!; [done|done|].
    apply Hall in Hin. rewrite <- Heq in Hin. congruence.
  - rewrite Hother, lookup_empty in Hnamed by done. done.
Qed.

Lemma validate_modules program :
  CodeValidatorElse.validate program = Ok () →
  ∃ names,
    alphabet program ≠ [] ∧
    CodeValidator._addModuleNames (modules program) ∅ = Ok names ∧
    (∃ main rest, modules program = main :: rest ∧ params main = []) ∧
    Forall (λ module,
              CodeValidatorElse.visitModule
                (CodeConverter.setOf (alphabet program)) names module
              = Ok ())
      (modules program).
Proof.
  unfold CodeValidatorElse.validate, CodeValidatorElse.visitProgram.
  unfold CodeValidator.visitAlphabet.
  destruct (alphabet program) as [|letter letters] eqn:Halphabet; [done|].
  rewrite <- Halphabet. simpl.
  destruct (CodeValidator._addModuleNames _ _) as [names|msg|] eqn:Hnames;
    simpl; try done.
  destruct (modules program) as [|main rest] eqn:Hmodules; [done|].
  case_bool_decide as Hparams; [done|].
  intros Hall%visitAllWith_Ok. rewrite <- Hmodules in *.
  exists names. split; [by rewrite Halphabet|]. split; [done|]. split.
  - exists main, rest. split; [done|]. by destruct (params main).
  - done.
Qed.

Lemma validate_inversion program :
  CodeValidatorElse.validate program = Ok () →
  ∃ letters names,
    (alphabet program ≠ [] ∧
     ∀ letter, letter ∈ letters ↔ letter ∈ alphabet program) ∧
    CodeValidator._addModuleNames (modules program) ∅ = Ok names ∧
    (∃ main rest, modules program = main :: rest ∧ params main = []) ∧
    ∀ module, module ∈ modules program →
      (∀ param, param ∈ params module → param ∉ letters) ∧
      Forall (sound letters names) (blocks module).
Proof.
  intros (names & Halphabet & Hnames & Hmain & Hall)%validate_modules.
  exists (CodeConverter.setOf (alphabet program)), names.
  split; [|split; [done|split; [done|]]].
  - split; [done|]. intros letter. apply elem_of_setOf.
  - intros module Hmodule. rewrite Forall_forall in Hall.
    by apply visitModule_sound, Hall.
Qed.

Lemma sound_gotos program letters names :
  CodeValidator._addModuleNames (modules program) ∅ = Ok names →
  (∀ module, module ∈ modules program →
             Forall (sound letters names) (blocks module)) →
  ∀ goto, goto ∈ programGotos program → resolves program goto.
Proof.
  intros Hnames Hsound goto Hgoto. apply named_resolves with names; [done|].
  apply list_elem_of_In, in_flat_map in Hgoto
    as (module & Hmodule%list_elem_of_In & Hgoto).
  apply in_flat_map in Hgoto as (block & Hblock%list_elem_of_In & Hgoto).
  pose proof (Hsound _ Hmodule) as Hblocks.
  rewrite Forall_forall in Hblocks.
  by apply (Hblocks _ Hblock), list_elem_of_In.
Qed.

(** X9.  What the validator that requires an else case accepts: the alphabet
    is not empty; there is a first module and it has no parameters; module
    identifiers are pairwise distinct; no parameter is a letter of the
    alphabet; every goto, at any depth, names a module of the program and
    passes as many arguments as the module has parameters; the body of every
    if and else case, at any depth, starts with a basic block; the changeto
    value of every basic block is blank or a letter of the alphabet. *)
Theorem validate_sound program :
  CodeValidatorElse.validate program = Ok () →
  alphabet program ≠ [] ∧
  (∃ main rest, modules program = main :: rest ∧ params main = []) ∧
  NoDup (identifier <$> modules program) ∧
  (∀ module param,
     module ∈ modules program → param ∈ params module →
     param ∉ alphabet program) ∧
  (∀ goto, goto ∈ programGotos program → resolves program goto) ∧
  (∀ module block,
     module ∈ modules program → block ∈ blocks module →
     bodiesStartBasic block = true) ∧
  (∀ value, value ∈ programChanges program →
            value = "" ∨ value ∈ alphabet program).
Proof.
  intros Hvalid. apply validate_inversion in Hvalid
    as (letters & names & [Hletters Hin] & Hnames & Hmain & Hsound).
  split_and!; [done|done| | | | |].
  - by apply _addModuleNames_Ok in Hnames as (Hnodup & _).
  - intros module param Hmodule Hparam Hletter.
    destruct (Hsound _ Hmodule) as [Hfresh _].
    by apply (Hfresh _ Hparam), Hin.
  - apply sound_gotos with letters names; [done|].
    intros module Hmodule. by destruct (Hsound _ Hmodule).
  - intros module block Hmodule Hblock.
    destruct (Hsound _ Hmodule) as [_ Hblocks].
    rewrite Forall_forall in Hblocks. by apply (Hblocks _ Hblock).
  - intros value Hvalue.
    apply list_elem_of_In, in_flat_map in Hvalue
      as (module & Hmodule%list_elem_of_In & Hvalue).
    apply in_flat_map in Hvalue as (block & Hblock%list_elem_of_In & Hvalue).
    destruct (Hsound _ Hmodule) as [_ Hblocks].
    rewrite Forall_forall in Hblocks.
    destruct (Hblocks _ Hblock) as (_ & _ & Hchanges).
    destruct (Hchanges value) as [->|Hletter]; [by apply list_elem_of_In| |].
    + by left.
    + right. by apply Hin.
Qed.

(** The gotos of an accepted program resolve, and its module identifiers
    are pairwise distinct. *)
Lemma validate_resolves program :
  CodeValidatorElse.validate program = Ok () →
  NoDup (identifier <$> modules program) ∧
  ∀ goto, goto ∈ programGotos program → resolves program goto.
Proof.
  intros Hvalid. apply validate_inversion in Hvalid
    as (letters & names & _ & Hnames & _ & Hsound).
  split.
  - by apply _addModuleNames_Ok in Hnames as (Hnodup & _).
  - apply sound_gotos with letters names; [done|].
    intros module Hmodule. by destruct (Hsound _ Hmodule).
Qed.

Lemma validate_wellFormed program :
  CodeValidatorElse.validate program = Ok () →
  (∀ module, module ∈ modules program → NoDup (params module)) →
  wellFormed program = true.
Proof.
  intros Hvalid Hparams.
  destruct (validate_resolves _ Hvalid) as [Hnodup Hgotos].
  apply validate_inversion in Hvalid
    as (letters & names & _ & _ & (main & rest & Hmodules & _) & Hsound).
  unfold wellFormed. repeat (apply andb_true_intro; split).
  - apply negb_true_iff, bool_decide_eq_false. by rewrite Hmodules.
  - by apply bool_decide_eq_true.
  - apply forallb_forall. intros module Hmodule%list_elem_of_In.
    apply forallb_forall. intros block Hblock%list_elem_of_In.
    destruct (Hsound _ Hmodule) as [_ Hblocks].
    rewrite Forall_forall in Hblocks. by apply (Hblocks _ Hblock).
  - apply forallb_forall. intros goto Hgoto%list_elem_of_In.
    destruct (Hgotos _ Hgoto) as (module & Hmodule & Hid & Hlength).
    unfold gotoOk.
    rewrite <- Hid, (ConversionFacts.idToModuleOf_module _ _ Hnodup Hmodule).
    apply andb_true_intro.
    split; apply bool_decide_eq_true; [done|by apply Hparams].
Qed.

(** X10.  The validator and the converter fit: a program the validator
    (the one that requires an else case) accepts and whose modules have
    pairwise distinct parameter names is converted, once the fuel exceeds the
    number of its gotos, with no argument tuple recorded twice and at most
    as many states as the lowered pairs have blocks. *)
Theorem validated_program_converts program fuel :
  CodeValidatorElse.validate program = Ok () →
  (∀ module, module ∈ modules program → NoDup (params module)) →
  length (programGotos program) < fuel →
  ∃ st,
    CodeConverter.convertState program fuel = Ok st ∧
    CodeConverter.convert program fuel
    = Ok (CodeConverter._turingMachine st) ∧
    loweredOnce st ∧
    size (TuringMachine.states (CodeConverter._turingMachine st))
    ≤ loweredBlocks program st.
Proof.
  intros Hvalid Hparams Hfuel.
  pose proof (validate_wellFormed _ Hvalid Hparams) as Hwf.
  destruct (ConversionFacts.convertState_total program Hwf fuel Hfuel)
    as (st & Hconvert & Honce & Hbound).
  exists st. split_and!; try done.
  unfold CodeConverter.convert. by rewrite Hconvert.
Qed.


(** *** What the validator of CodeValidator.ts accepts *)
Section Strict.
Variable alphabet : list string.
Variable moduleNames : gmap string nat.

Lemma strict_visitBasicBlock_orderly block flow :
  CodeValidator.visitBasicBlock alphabet moduleNames block = Ok flow →
  flow = bool_decide (is_Some (flowCommand block)) ∧
  orderly alphabet moduleNames (BasicBlock block).
Proof.
  unfold CodeValidator.visitBasicBlock, orderly. simpl. intros Hvisit.
  destruct (match changeToCommand block with
            | Some value => _ | None => _ end) as [changed|msg|] eqn:Hchange;
    simpl in Hvisit; try done.
  destruct (match flowCommand block with
            | Some command => _ | None => _ end) as [flowed|msg|] eqn:Hflow;
    simpl in Hvisit; try done.
  split; [congruence|]. split_and!; [|done|].
  - destruct (flowCommand block) as [[identifier args|state]|];
      try by intros ? ?%elem_of_nil.
    intros goto ->%list_elem_of_singleton. unfold named. simpl.
    unfold CodeValidator.visitFlow, CodeValidator.visitGoTo in Hflow.
    destruct (moduleNames !! identifier) as [paramCount|]; [|done].
    destruct (decide (length args = paramCount)) as [->|Hne]; [done|].
    by rewrite bool_decide_eq_true_2 in Hflow.
  - destruct (changeToCommand block) as [value|];
      [|by intros ? ?%elem_of_nil].
    intros value' ->%list_elem_of_singleton.
    unfold CodeValidator.visitChangeTo, CodeValidator.setHas in Hchange.
    destruct (String.eqb_spec value ""); [by left|]. simpl in Hchange.
    destruct (decide (value ∈ alphabet)) as [Hin|Hnotin]; [by right|].
    by rewrite bool_decide_eq_false_2 in Hchange.
Qed.

Section Module.
Variable parameters : list string.

Local Abbreviation visit :=
  (CodeValidator.visit alphabet moduleNames parameters).

(** What [visit] answers for a basic block is whether it has a flow
    command. *)
Lemma strict_visit_plain block :
  visit block = Ok false → CodeValidator.isSwitchBlock block = false →
  plain block = true.
Proof.
  destruct block as [block|cases]; [|done]. simpl. intros Hvisit _.
  apply strict_visitBasicBlock_orderly in Hvisit as [Hflow _].
  by rewrite <- Hflow.
Qed.

Lemma _validateBlocks_Ok isIfBlock blocks :
  ∀ i hasFlow hasSwitch flow,
    CodeValidator._validateBlocksWith visit isIfBlock i hasFlow hasSwitch
      blocks = Ok flow →
    (hasFlow || hasSwitch = true → blocks = []) ∧
    (isIfBlock = true → i = 0 → startsWithSwitch blocks = false) ∧
    endsOnly blocks = true ∧
    Forall (λ block, is_Ok (visit block)) blocks.
Proof.
  induction blocks as [|block rest IH]; intros i hasFlow hasSwitch flow;
    simpl.
  - intros _. split_and!; [done|done|done|constructor].
  - destruct hasSwitch; [done|]. destruct hasFlow; [done|].
    destruct (CodeValidator.isSwitchBlock block && isIfBlock
              && bool_decide (i = 0)) eqn:Hfirst; [done|].
    destruct (visit block) as [flowed|msg|] eqn:Hvisit; simpl; try done.
    intros Hrest. apply IH in Hrest as (Hlast & _ & Hends & Hall).
    split_and!.
    + done.
    + intros -> ->. destruct block; [done|]. by simpl in Hfirst.
    + destruct rest as [|next rest]; [done|].
      apply andb_true_intro. split; [|done].
      destruct flowed, (CodeValidator.isSwitchBlock block) eqn:Hswitch;
        try (by discriminate Hlast).
      by apply strict_visit_plain.
    + constructor; [by eexists|done].
Qed.

Lemma strict_visitCase_orderly switchCase flow :
  Forall (λ block, is_Ok (visit block) → orderly alphabet moduleNames block)
    (CodeExecutor.caseBlocks switchCase) →
  CodeValidator.visitCaseWith visit switchCase = Ok flow →
  caseShaped switchCase = true ∧
  Forall (orderly alphabet moduleNames) (CodeExecutor.caseBlocks switchCase).
Proof.
  intros IH.
  assert (∀ blocks,
            Forall (λ block, is_Ok (visit block) →
                             orderly alphabet moduleNames block) blocks →
            CodeValidator._validateBlocksWith visit true 0 false false blocks
            = Ok flow →
            negb (startsWithSwitch blocks) && endsOnly blocks
            && forallb shaped blocks = true ∧
            Forall (orderly alphabet moduleNames) blocks) as Hbody.
  { intros blocks IHblocks Hvalid.
    apply _validateBlocks_Ok in Hvalid as (_ & Hstart & Hends & Hall).
    assert (Forall (orderly alphabet moduleNames) blocks) as Horderly.
    { clear -IHblocks Hall.
      induction Hall as [|block rest Hblock Hrest IHrest]; [constructor|].
      apply Forall_cons in IHblocks as [Hthis IHblocks].
      constructor; [by apply Hthis|by apply IHrest]. }
    split; [|done]. rewrite Hstart, Hends by done. simpl.
    apply forallb_forall. intros block Hin%list_elem_of_In.
    rewrite Forall_forall in Horderly.
    by destruct (Horderly _ Hin) as (_ & Hshaped & _). }
  destruct switchCase as [values blocks|values core|blocks]; simpl.
  - by apply Hbody.
  - intros _. split; [done|constructor].
  - by apply Hbody.
Qed.

Lemma visitCases_Forall cases :
  ∀ alphabetSet seenElse hasFlow flow,
    CodeValidator.visitCasesWith alphabet visit cases alphabetSet
      seenElse hasFlow = Ok flow →
    Forall (λ switchCase,
              is_Ok (CodeValidator.visitCaseWith visit switchCase)) cases.
Proof.
  induction cases as [|switchCase rest IH];
    intros alphabetSet seenElse hasFlow flow; simpl; [constructor|].
  destruct (match switchCase with
            | IfCase _ _ => _ | WhileCase _ _ => _ | ElseCase _ => _ end)
    as [[alphabetSet' seenElse']|msg|]; simpl; try done.
  destruct (CodeValidator.visitCaseWith visit switchCase)
    as [flowed|msg|] eqn:Hcase; simpl; try done.
  intros Hrest%IH. constructor; [by eexists|done].
Qed.

Lemma strict_visit_orderly block :
  is_Ok (visit block) → orderly alphabet moduleNames block.
Proof.
  induction block as [block|cases IH] using ConversionFacts.block_ind_nested.
  - simpl. intros [flow Hvisit].
    by apply strict_visitBasicBlock_orderly in Hvisit as [_ Horderly].
  - simpl. unfold CodeValidator.visitSwitchBlockWith.
    intros [flow Hcases%visitCases_Forall].
    assert (Forall (λ switchCase,
                      caseShaped switchCase = true ∧
                      Forall (orderly alphabet moduleNames)
                        (CodeExecutor.caseBlocks switchCase)) cases)
      as Hsound.
    { clear -IH Hcases.
      induction Hcases as [|switchCase rest [flow Hcase] Hrest IHrest];
        [constructor|].
      apply Forall_cons in IH as [Hthis IH].
      constructor; [by eapply strict_visitCase_orderly|by apply IHrest]. }
    clear -Hsound. unfold orderly. split_and!.
    + intros goto Hgoto. simpl in Hgoto.
      apply list_elem_of_In, in_flat_map in Hgoto
        as (switchCase & Hcase%list_elem_of_In & Hgoto).
      rewrite Forall_forall in Hsound.
      destruct (Hsound _ Hcase) as [_ Hblocks].
      destruct switchCase as [values blocks|values core|blocks];
        simpl in *; try done;
        apply in_flat_map in Hgoto as (block & Hblock%list_elem_of_In & Hgoto);
        rewrite Forall_forall in Hblocks;
        by apply (Hblocks block Hblock), list_elem_of_In.
    + simpl. apply forallb_forall. intros switchCase Hcase%list_elem_of_In.
      rewrite Forall_forall in Hsound.
      by destruct (Hsound _ Hcase) as [Hshaped _].
    + intros value Hvalue. simpl in Hvalue.
      apply list_elem_of_In, in_flat_map in Hvalue
        as (switchCase & Hcase%list_elem_of_In & Hvalue).
      rewrite Forall_forall in Hsound.
      destruct (Hsound _ Hcase) as [_ Hblocks].
      destruct switchCase as [values blocks|values core|blocks];
        simpl in *; try done;
        apply in_flat_map in Hvalue
          as (block & Hblock%list_elem_of_In & Hvalue);
        rewrite Forall_forall in Hblocks;
        by apply (Hblocks block Hblock), list_elem_of_In.
Qed.

End Module.

Lemma strict_visitModule_orderly module flow :
  CodeValidator.visitModule alphabet moduleNames module = Ok flow →
  (∀ param, param ∈ params module → param ∉ alphabet) ∧
  blocks module ≠ [] ∧ endsOnly (blocks module) = true ∧
  Forall (orderly alphabet moduleNames) (blocks module).
Proof.
  unfold CodeValidator.visitModule.
  destruct (find _ (params module)) as [letter|] eqn:Hfind; [done|].
  destruct (blocks module) as [|block rest] eqn:Hblocks; [done|].
  rewrite <- Hblocks.
  destruct (CodeValidator._validateBlocksWith _ _ _ _ _ _)
    as [flowed|msg|] eqn:Hvalid; simpl; try done.
  intros _. apply _validateBlocks_Ok in Hvalid as (_ & _ & Hends & Hall).
  split_and!.
  - intros param Hparam Hin.
    eapply find_none in Hfind; [|by apply list_elem_of_In].
    unfold CodeValidator.setHas in Hfind.
    by apply bool_decide_eq_false in Hfind.
  - by rewrite Hblocks.
  - done.
  - eapply Forall_impl; [exact Hall|]. intros b. apply strict_visit_orderly.
Qed.

End Strict.

Lemma visitModules_Forall alphabet moduleNames modules flow :
  CodeValidator.visitModules alphabet moduleNames modules = Ok flow →
  Forall (λ module,
            is_Ok (CodeValidator.visitModule alphabet moduleNames module))
    modules.
Proof.
  induction modules as [|module rest IH]; simpl; [constructor|].
  destruct (CodeValidator.visitModule _ _ module) as [flowed|msg|] eqn:Hvisit;
    simpl; try done.
  intros Hrest%IH. constructor; [by eexists|done].
Qed.

(** X11.  What the validator of CodeValidator.ts accepts: the alphabet and
    the module list are not empty; module identifiers are pairwise distinct;
    no parameter is a letter of the alphabet; every goto, at any depth, names
    a module of the program and passes as many arguments as the module has
    parameters; every module has a block; in the blocks of a module and, at
    any depth, in the body of an if or else case, every block but the last
    is a basic block without a flow command, and such a body does not start
    with a switch block; the changeto value of every basic block is blank or
    a letter of the alphabet. *)
Theorem strict_validate_sound program :
  CodeValidator.validate program = Ok () →
  alphabet program ≠ [] ∧
  modules program ≠ [] ∧
  NoDup (identifier <$> modules program) ∧
  (∀ module param,
     module ∈ modules program → param ∈ params module →
     param ∉ alphabet program) ∧
  (∀ goto, goto ∈ programGotos program → resolves program goto) ∧
  (∀ module,
     module ∈ modules program →
     blocks module ≠ [] ∧ endsOnly (blocks module) = true ∧
     forallb shaped (blocks module) = true) ∧
  (∀ value, value ∈ programChanges program →
            value = "" ∨ value ∈ alphabet program).
Proof.
  unfold CodeValidator.validate, CodeValidator.visitProgram.
  destruct (CodeValidator.visitAlphabet _) as [letters|msg|] eqn:Hletters;
    simpl; try done.
  apply visitAlphabet_Ok in Hletters as [Hletters Hin].
  destruct (CodeValidator._addModuleNames _ _) as [names|msg|] eqn:Hnames;
    simpl; try done.
  destruct (modules program) as [|main rest] eqn:Hmodules; [done|].
  rewrite <- Hmodules in *.
  destruct (CodeValidator.visitModules _ _ _) as [flow|msg|] eqn:Hall;
    simpl; try done.
  intros _. apply visitModules_Forall in Hall.
  assert (∀ module, module ∈ modules program →
            (∀ param, param ∈ params module → param ∉ letters) ∧
            blocks module ≠ [] ∧ endsOnly (blocks module) = true ∧
            Forall (orderly letters names) (blocks module)) as Hsound.
  { intros module Hmodule. rewrite Forall_forall in Hall.
    destruct (Hall _ Hmodule) as [flowed Hvisit].
    by eapply strict_visitModule_orderly. }
  split_and!.
  - done.
  - by rewrite Hmodules.
  - by apply _addModuleNames_Ok in Hnames as (Hnodup & _).
  - intros module param Hmodule Hparam Hletter.
    destruct (Hsound _ Hmodule) as [Hfresh _].
    by apply (Hfresh _ Hparam), Hin.
  - intros goto Hgoto. apply named_resolves with names; [done|].
    apply list_elem_of_In, in_flat_map in Hgoto
      as (module & Hmodule%list_elem_of_In & Hgoto).
    apply in_flat_map in Hgoto as (block & Hblock%list_elem_of_In & Hgoto).
    destruct (Hsound _ Hmodule) as (_ & _ & _ & Hblocks).
    rewrite Forall_forall in Hblocks.
    by apply (Hblocks _ Hblock), list_elem_of_In.
  - intros module Hmodule.
    destruct (Hsound _ Hmodule) as (_ & Hne & Hends & Hblocks).
    split_and!; [done|done|].
    apply forallb_forall. intros block Hblock%list_elem_of_In.
    rewrite Forall_forall in Hblocks.
    by destruct (Hblocks _ Hblock) as (_ & Hshaped & _).
  - intros value Hvalue.
    apply list_elem_of_In, in_flat_map in Hvalue
      as (module & Hmodule%list_elem_of_In & Hvalue).
    apply in_flat_map in Hvalue as (block & Hblock%list_elem_of_In & Hvalue).
    destruct (Hsound _ Hmodule) as (_ & _ & _ & Hblocks).
    rewrite Forall_forall in Hblocks.
    destruct (Hblocks _ Hblock) as (_ & _ & Hchanges).
    destruct (Hchanges value) as [->|Hletter]; [by apply list_elem_of_In| |].
    + by left.
    + right. by apply Hin.
Qed.


Lemma validate_sound_witness :
  resolves Samples.gotoWithArgument ("b", ["a"]).
Proof.
  destruct (validate_sound Samples.gotoWithArgument)
    as (_ & _ & _ & _ & Hgotos & _); [reflexivity|].
  apply Hgotos. apply list_elem_of_here.
Defined.

Lemma strict_validate_sound_witness :
  endsOnly (blocks (Samples.mainOf Samples.moduleWithIfBlock)) = true ∧
  forallb shaped (blocks (Samples.mainOf Samples.moduleWithIfBlock)) = true.
Proof.
  destruct (strict_validate_sound Samples.moduleWithIfBlock)
    as (_ & _ & _ & _ & _ & Hshape & _); [reflexivity|].
  destruct (Hshape (Samples.mainOf Samples.moduleWithIfBlock))
    as (_ & Hends & Hshaped); [apply list_elem_of_here|].
  by split.
Defined.

Lemma validated_program_converts_witness :
  ∃ st,
    CodeConverter.convertState Samples.gotoWithArgument 2 = Ok st ∧
    CodeConverter.convert Samples.gotoWithArgument 2
    = Ok (CodeConverter._turingMachine st) ∧
    loweredOnce st ∧
    size (TuringMachine.states (CodeConverter._turingMachine st))
    ≤ loweredBlocks Samples.gotoWithArgument st.
Proof.
  apply validated_program_converts.
  - reflexivity.
  - intros module Hmodule. apply (bool_decide_unpack _).
    simpl in Hmodule. rewrite !elem_of_cons, elem_of_nil in Hmodule.
    by destruct Hmodule as [->|[->|[]]].
  - simpl. lia.
Defined.

End ValidatorSoundness.

(** ** The cases of an accepted switch block *)
Module ValidatorCoverage.
Import Messages ConverterSpec ValidatorSpec ValidatorSoundness.

Lemma NoDup_setAdd s x : NoDup s → NoDup (CodeConverter.setAdd s x).
Proof.
  intros Hnodup. unfold CodeConverter.setAdd. case_bool_decide; [done|].
  apply NoDup_app. split_and!; [done| |apply NoDup_singleton].
  by intros y Hy ->%list_elem_of_singleton.
Qed.

Lemma NoDup_foldl_setAdd values : ∀ s,
  NoDup s → NoDup (foldl CodeConverter.setAdd s values).
Proof.
  induction values as [|x values IH]; intros s Hnodup; simpl; [done|].
  by apply IH, NoDup_setAdd.
Qed.

Lemma NoDup_setOf values : NoDup (CodeConverter.setOf values).
Proof. apply NoDup_foldl_setAdd. constructor. Qed.

Lemma NoDup_foldl_setDelete values : ∀ s,
  NoDup s → NoDup (foldl CodeConverter.setDelete s values).
Proof.
  induction values as [|x values IH]; intros s Hnodup; simpl; [done|].
  apply IH. unfold CodeConverter.setDelete. by apply NoDup_filter.
Qed.

Section Switch.
Variable alphabet : list string.
Variable moduleNames : gmap string nat.
Variable parameters : list string.

Lemma scanLetters_Ok values : ∀ alphabetSet seen alphabetSet' seen',
  CodeValidatorElse.scanLetters alphabet parameters values alphabetSet seen
  = Ok (alphabetSet', seen') →
  alphabetSet' = foldl CodeConverter.setDelete alphabetSet values ∧
  (seen' = false → seen = false ∧ ∀ value, value ∈ values →
                                          value ∉ parameters).
Proof.
  induction values as [|letter values IH];
    intros alphabetSet seen alphabetSet' seen'; simpl.
  - intros [= <- <-]. split; [done|]. intros ->. split; [done|].
    by intros ? ?%elem_of_nil.
  - unfold CodeValidatorElse.setHas at 1. case_bool_decide as Hparam.
    + intros [-> Hseen]%IH. split; [done|]. intros ->.
      by destruct (Hseen eq_refl).
    + destruct (negb _ && negb _); [done|].
      intros [-> Hseen]%IH. split; [done|]. intros ->.
      destruct (Hseen eq_refl) as [-> Hvalues]. split; [done|].
      intros value [->|Hvalue]%elem_of_cons; [done|by apply Hvalues].
Qed.

Lemma scanCases_Ok cases :
  ∀ alphabetSet seenElse seen alphabetSet' seenElse' seen',
    CodeValidatorElse.scanCases alphabet parameters cases alphabetSet
      seenElse seen = Ok (alphabetSet', seenElse', seen') →
    alphabetSet'
    = foldl CodeConverter.setDelete alphabetSet (switchValues cases) ∧
    seenElse' = seenElse || existsb isElseCase cases ∧
    (seen' = false →
     seen = false ∧ ∀ value, value ∈ switchValues cases →
                             value ∉ parameters).
Proof.
  induction cases as [|switchCase cases IH];
    intros alphabetSet seenElse seen alphabetSet' seenElse' seen'; simpl.
  - intros [= <- <- <-]. split_and!; [done|by rewrite orb_false_r|].
    intros ->. split; [done|]. by intros ? ?%elem_of_nil.
  - assert (∀ values,
              (let* '(alphabetSet1, seen1) :=
                 CodeValidatorElse.scanLetters alphabet parameters values
                   alphabetSet seen in
               CodeValidatorElse.scanCases alphabet parameters cases
                 alphabetSet1 seenElse seen1)
              = Ok (alphabetSet', seenElse', seen') →
              alphabetSet'
              = foldl CodeConverter.setDelete alphabetSet
                  (values ++ switchValues cases) ∧
              seenElse' = seenElse || existsb isElseCase cases ∧
              (seen' = false →
               seen = false ∧
               ∀ value, value ∈ values ++ switchValues cases →
                        value ∉ parameters)) as Hletters.
    { intros values.
      destruct (CodeValidatorElse.scanLetters _ _ _ _ _)
        as [[alphabetSet1 seen1]|msg|] eqn:Hscan; simpl; try done.
      apply scanLetters_Ok in Hscan as [-> Hseen1].
      intros (-> & -> & Hseen)%IH.
      split_and!; [by rewrite foldl_app|done|].
      intros ->. destruct (Hseen eq_refl) as [-> Hrest].
      destruct (Hseen1 eq_refl) as [-> Hvalues]. split; [done|].
      intros value [Hvalue|Hvalue]%elem_of_app; [by apply Hvalues|].
      by apply Hrest. }
    destruct switchCase as [values blocks|values core|blocks]; simpl.
    + apply Hletters.
    + apply Hletters.
    + destruct cases as [|next cases]; [|done]. simpl.
      intros [= <- <- <-]. split_and!; [done|by rewrite orb_true_r|].
      intros ->. split; [done|]. by intros ? ?%elem_of_nil.
Qed.

(** An accepted switch block covers the tape symbols. *)
Lemma visitSwitchBlock_covers visit cases :
  NoDup alphabet → NoDup parameters →
  (∀ param, param ∈ parameters → param ∉ alphabet) →
  CodeValidatorElse.visitSwitchBlockWith alphabet parameters visit cases
  = Ok () →
  covers alphabet parameters cases.
Proof.
  intros Halphabet Hparameters Hfresh.
  unfold CodeValidatorElse.visitSwitchBlockWith.
  destruct (CodeValidatorElse.scanCases _ _ _ _ _ _)
    as [[[alphabetSet seenElse] seen]|msg|] eqn:Hscan; simpl; try done.
  apply scanCases_Ok in Hscan as (-> & -> & Hseen). simpl.
  destruct (CodeValidatorElse.visitAllWith _ cases) as [[]|msg|];
    simpl; try done.
  destruct (existsb isElseCase cases) eqn:Helse; [by left|]. simpl.
  destruct seen; [done|]. simpl.
  destruct (Hseen eq_refl) as [_ Hvalues].
  case_bool_decide as Hlength; [|done]. intros _. right.
  set (initial := CodeValidatorElse.initialAlphabetSet alphabet parameters)
    in *.
  set (remaining := foldl CodeConverter.setDelete initial
                      (switchValues cases)) in *.
  assert (NoDup remaining) as Hnodup.
  { apply NoDup_foldl_setDelete, NoDup_foldl_setAdd, NoDup_setAdd.
    done. }
  assert (∀ letter, letter ∈ initial
                    ↔ (letter ∈ alphabet ∨ letter = "")
                      ∨ letter ∈ parameters) as Hinitial.
  { intros letter. unfold initial, CodeValidatorElse.initialAlphabetSet.
    by rewrite elem_of_foldl_setAdd, elem_of_setAdd. }
  assert (parameters ⊆+ remaining) as Hsub.
  { apply NoDup_submseteq; [done|]. intros param Hparam.
    apply ValidatorFacts.elem_of_foldl_setDelete. split.
    - apply Hinitial. by right.
    - intros Hvalue. by apply (Hvalues param). }
  assert (remaining ≡ₚ parameters) as Hsame.
  { symmetry. apply submseteq_length_Permutation; [done|lia]. }
  assert (∀ letter, letter ∈ alphabet ∨ letter = "" →
                    letter ∉ parameters → letter ∈ switchValues cases)
    as Hcovered.
  { intros letter Hletter Hnotparam.
    destruct (decide (letter ∈ switchValues cases)) as [|Hnot]; [done|].
    exfalso. apply Hnotparam. rewrite <- Hsame.
    apply ValidatorFacts.elem_of_foldl_setDelete. split; [|done].
    apply Hinitial. by left. }
  split_and!.
  - done.
  - intros letter Hletter. apply Hcovered; [by left|].
    intros Hparam. by apply (Hfresh letter).
  - intros Hblank. apply Hcovered; [by right|done].
Qed.

Local Abbreviation visit :=
  (CodeValidatorElse.visit alphabet moduleNames parameters).

Lemma visit_covers block :
  NoDup alphabet → NoDup parameters →
  (∀ param, param ∈ parameters → param ∉ alphabet) →
  visit block = Ok () →
  ∀ cases, cases ∈ switchesOf block → covers alphabet parameters cases.
Proof.
  intros Halphabet Hparameters Hfresh.
  induction block as [block|cases IH] using ConversionFacts.block_ind_nested.
  - by intros _ ? ?%elem_of_nil.
  - simpl. intros Hvisit inner [->|Hinner]%elem_of_cons.
    + by eapply visitSwitchBlock_covers.
    + unfold CodeValidatorElse.visitSwitchBlockWith in Hvisit.
      destruct (CodeValidatorElse.scanCases _ _ _ _ _ _)
        as [[[alphabetSet seenElse] seen]|msg|]; simpl in Hvisit; try done.
      destruct (CodeValidatorElse.visitAllWith _ cases) as [[]|msg|]
        eqn:Hcases; simpl in Hvisit; try done.
      apply visitAllWith_Ok in Hcases.
      apply list_elem_of_In, in_flat_map in Hinner
        as (switchCase & Hcase%list_elem_of_In & Hinner).
      rewrite Forall_forall in IH, Hcases.
      pose proof (IH _ Hcase) as IHcase.
      pose proof (Hcases _ Hcase) as Hbody.
      assert (∀ blocks,
                CodeExecutor.caseBlocks switchCase = blocks →
                CodeValidatorElse.visitAllWith visit blocks = Ok () →
                In inner (flat_map switchesOf blocks) →
                covers alphabet parameters inner) as Hblocks.
      { intros blocks Heq Hall%visitAllWith_Ok Hin.
        apply in_flat_map in Hin as (block & Hblock%list_elem_of_In & Hin).
        rewrite Heq in IHcase. rewrite Forall_forall in IHcase, Hall.
        by apply (IHcase _ Hblock), list_elem_of_In; [apply Hall|]. }
      destruct switchCase as [values blocks|values core|blocks];
        simpl in *; try done.
      * destruct values; [done|].
        destruct blocks as [|[first|nested] blocks]; try done.
        by eapply Hblocks.
      * destruct blocks as [|[first|nested] blocks]; try done.
        by eapply Hblocks.
Qed.

End Switch.

Lemma covers_members alphabet alphabet' parameters parameters' cases :
  (∀ letter, letter ∈ alphabet ↔ letter ∈ alphabet') →
  (∀ param, param ∈ parameters ↔ param ∈ parameters') →
  covers alphabet parameters cases → covers alphabet' parameters' cases.
Proof.
  intros Halphabet Hparameters [Helse|(Hvalues & Hletters & Hblank)];
    [by left|right].
  split_and!.
  - intros value Hvalue Hparam. apply (Hvalues value Hvalue).
    by apply Hparameters.
  - intros letter Hletter. by apply Hletters, Halphabet.
  - intros Hblank'. apply Hblank. intros Hparam. by apply Hblank', Hparameters.
Qed.

(** X19.  In a program the validator that requires an else case accepts,
    every switch block of every module, at any depth, has an else case, or
    else none of its trigger values is a parameter of the module, every
    letter of the alphabet is a trigger value of one of its cases, and so is
    blank unless the empty string is a parameter. *)
Theorem validate_covers program module block cases :
  CodeValidatorElse.validate program = Ok () →
  module ∈ modules program → block ∈ blocks module →
  cases ∈ switchesOf block →
  covers (alphabet program) (params module) cases.
Proof.
  intros (names & _ & _ & _ & Hall)%validate_modules Hmodule Hblock Hcases.
  rewrite Forall_forall in Hall. pose proof (Hall _ Hmodule) as Hvisit.
  unfold CodeValidatorElse.visitModule in Hvisit.
  destruct (find _ (params module)) as [letter|] eqn:Hfind; [done|].
  apply visitAllWith_Ok in Hvisit. rewrite Forall_forall in Hvisit.
  apply covers_members with (CodeConverter.setOf (alphabet program))
                            (CodeConverter.setOf (params module)).
  - intros letter. apply elem_of_setOf.
  - intros param. apply elem_of_setOf.
  - eapply visit_covers; [apply NoDup_setOf|apply NoDup_setOf| |
                          by apply Hvisit|done].
    intros param Hparam Hletter. rewrite elem_of_setOf in Hparam.
    eapply find_none in Hfind; [|by apply list_elem_of_In].
    unfold CodeValidatorElse.setHas in Hfind.
    by apply bool_decide_eq_false in Hfind.
Qed.

Lemma validate_covers_witness :
  covers ["a"; "b"] []
    [IfCase ["a"] [Samples.basic None (Some LEFT) None];
     WhileCase ["b"] (Samples.core None (Some RIGHT));
     IfCase [""]
       [Samples.basic None (Some RIGHT) None;
        Samples.basic (Some "b") (Some LEFT)
          (Some (GoToContext "simple" []))]].
Proof.
  apply (validate_covers Samples.moduleWithIfBlock
           (Samples.mainOf Samples.moduleWithIfBlock)
           (SwitchBlock
              [IfCase ["a"] [Samples.basic None (Some LEFT) None];
               WhileCase ["b"] (Samples.core None (Some RIGHT));
               IfCase [""]
                 [Samples.basic None (Some RIGHT) None;
                  Samples.basic (Some "b") (Some LEFT)
                    (Some (GoToContext "simple" []))]])).
  - reflexivity.
  - apply list_elem_of_here.
  - apply list_elem_of_here.
  - apply list_elem_of_here.
Defined.

End ValidatorCoverage.

(** ** The converter's helpers *)
Module ConverterLaws.
Import TuringMachine CodeConverter ConverterSpec.

Lemma argsMatch_prefix constructed : ∀ args,
  argsMatch constructed args = true ↔ constructed `prefix_of` args.
Proof.
  induction constructed as [|c constructed IH]; intros [|a args]; simpl.
  - split; [intros _; apply prefix_nil|done].
  - split; [intros _; apply prefix_nil|done].
  - split; [done|]. intros Hprefix. by apply prefix_nil_inv in Hprefix.
  - rewrite andb_true_iff, IH. split.
    + intros [->%String.eqb_eq Hprefix]. by apply prefix_cons.
    + intros Hprefix. pose proof (prefix_cons_inv_1 _ _ _ _ Hprefix) as ->.
      apply prefix_cons_inv_2 in Hprefix. split; [apply String.eqb_refl|done].
Qed.

(** X13.  [_isModuleConstructed] compares only as many positions as a
    recorded tuple has: a module counts as constructed for [args] exactly
    when a tuple recorded for it is a prefix of [args].  So a module recorded
    with the empty tuple counts as constructed for every argument tuple; and
    when the recorded tuples are as long as [args], it counts as constructed
    exactly when [args] is recorded. *)
Theorem _isModuleConstructed_prefix identifier args st :
  (_isModuleConstructed identifier args st = true
   ↔ ∃ tuple, tuple ∈ constructedArgs st identifier ∧ tuple `prefix_of` args) ∧
  ([] ∈ constructedArgs st identifier →
   _isModuleConstructed identifier args st = true) ∧
  (Forall (λ tuple, length tuple = length args)
     (constructedArgs st identifier) →
   (_isModuleConstructed identifier args st = true
    ↔ args ∈ constructedArgs st identifier)).
Proof.
  assert (_isModuleConstructed identifier args st = true
          ↔ ∃ tuple, tuple ∈ constructedArgs st identifier
                     ∧ tuple `prefix_of` args) as Hspec.
  { unfold _isModuleConstructed. fold (constructedArgs st identifier).
    rewrite existsb_exists. split.
    - intros (tuple & Hin & Hmatch). exists tuple.
      split; [by apply list_elem_of_In|by apply argsMatch_prefix].
    - intros (tuple & Hin & Hprefix). exists tuple.
      split; [by apply list_elem_of_In|by apply argsMatch_prefix]. }
  split_and!; [done| |].
  - intros Hin. apply Hspec. exists []. split; [done|apply prefix_nil].
  - intros Hlengths. rewrite Hspec. split.
    + intros (tuple & Hin & Hprefix).
      rewrite Forall_forall in Hlengths. pose proof (Hlengths _ Hin) as Hlen.
      destruct Hprefix as [rest ->]. rewrite length_app in Hlen.
      destruct rest; [|simpl in Hlen; lia]. by rewrite app_nil_r.
    + intros Hin. by exists args.
Qed.

Lemma _generateArgumentMap_zip params : ∀ args argumentMap,
  NoDup params →
  (∀ param, param ∈ params → param ∉ JsMap.keys argumentMap) →
  _generateArgumentMap params args argumentMap
  = argumentMap ++ zip params args.
Proof.
  induction params as [|param params IH]; intros [|arg args] m Hnodup Hfresh;
    simpl; try by rewrite app_nil_r.
  apply NoDup_cons in Hnodup as [Hnotin Hnodup].
  rewrite ConversionFacts.JsMap_set_fresh
    by (apply Hfresh, list_elem_of_here).
  rewrite IH; [by rewrite <- app_assoc|done|].
  intros param' Hin. unfold JsMap.keys. rewrite fmap_app. simpl.
  rewrite elem_of_app, list_elem_of_singleton. intros [Hkey| ->]; [|done].
  by apply (Hfresh param'); [apply list_elem_of_further|].
Qed.

(** X14.  The converter's [_generateAndPushArgumentMap], for pairwise
    distinct parameters and as many arguments: the map is the list of
    (parameter, argument) pairs in order, the [i]-th parameter is bound to
    the [i]-th argument, and [_currentArgs] returns the arguments. *)
Theorem _generateArgumentMap_binds params args st :
  NoDup params → length params = length args →
  _generateArgumentMap params args JsMap.empty = zip params args ∧
  (∀ i param, params !! i = Some param →
     JsMap.get (_generateArgumentMap params args JsMap.empty) param
     = args !! i) ∧
  _currentArgs (_generateAndPushArgumentMap params args st) = Ok args.
Proof.
  intros Hnodup Hlength.
  assert (_generateArgumentMap params args JsMap.empty = zip params args)
    as Hzip.
  { rewrite _generateArgumentMap_zip; [done|done|].
    intros param _. apply not_elem_of_nil. }
  split_and!; [done| |].
  - rewrite Hzip. clear Hzip. revert args Hlength.
    induction params as [|first params IH]; intros [|arg args] Hlength i param;
      simpl in *; try done.
    apply NoDup_cons in Hnodup as [Hnotin Hnodup].
    destruct i as [|i]; simpl.
    + intros [= ->]. by rewrite String.eqb_refl.
    + intros Hparam. destruct (String.eqb_spec first param) as [->|Hne].
      * exfalso. apply Hnotin. by eapply list_elem_of_lookup_2.
      * apply IH; [done|lia|done].
  - unfold _currentArgs, _currentArgumentMap. simpl. rewrite Hzip.
    f_equal. unfold JsMap.values. by apply snd_zip, Nat.eq_le_incl.
Qed.

Lemma _generateArgumentMap_binds_witness :
  JsMap.get (_generateArgumentMap ["x"; "y"] ["a"; "b"] JsMap.empty) "y"
  = Some "b".
Proof.
  destruct (_generateArgumentMap_binds ["x"; "y"] ["a"; "b"] new)
    as (_ & Hget & _).
  - by apply (bool_decide_unpack _).
  - reflexivity.
  - exact (Hget 1 "y" eq_refl).
Defined.


Lemma _incrementIndexAndFindNextState_exhausted st : ∀ n,
  (∀ i blockStack j,
     i < n →
     at_index (_currentBlocksStack st) i = Some blockStack →
     at_index (_currentBlockIndexStack st) i = Some j →
     length blockStack ≤ j + 1) →
  _incrementIndexAndFindNextState_from n st = Ok None.
Proof.
  induction n as [|n IH]; intros Hexhausted; simpl; [done|].
  assert (_incrementIndexAndFindNextState_from n st = Ok None) as Hrest.
  { apply IH. intros i blockStack j Hlt. apply Hexhausted. lia. }
  destruct (at_index (_currentBlocksStack st) n) as [blockStack|] eqn:Hblocks;
    [|done].
  destruct (at_index (_currentBlockIndexStack st) n) as [j|] eqn:Hindex;
    [|done].
  rewrite bool_decide_eq_false_2; [done|].
  pose proof (Hexhausted n blockStack j (Nat.lt_succ_diag_r n) Hblocks
                Hindex). lia.
Qed.

(** X15.  The next state of a basic block without a flow command
    ([_incrementIndexAndFindNextState() ?? "reject"]): when every frame of
    the stack stands at its last block it is "reject"; when the top frame
    has a next block it is the next label of that frame. *)
Theorem fallThrough_rejects_or_continues st :
  ((∀ i blockStack j,
      at_index (_currentBlocksStack st) i = Some blockStack →
      at_index (_currentBlockIndexStack st) i = Some j →
      length blockStack ≤ j + 1) →
   fallThrough st = Ok "reject") ∧
  (∀ blockStack blocksStack j indexStack,
     _currentBlocksStack st = blockStack :: blocksStack →
     _currentBlockIndexStack st = j :: indexStack →
     length indexStack = length blocksStack →
     j + 1 < length blockStack →
     fallThrough st = _findNextLabel (length blocksStack) st).
Proof.
  split.
  - intros Hexhausted. unfold fallThrough, _incrementIndexAndFindNextState.
    rewrite _incrementIndexAndFindNextState_exhausted; [done|].
    intros i blockStack j _. apply Hexhausted.
  - intros blockStack blocksStack j indexStack Hblocks Hindex Hlength Hnext.
    unfold fallThrough, _incrementIndexAndFindNextState.
    rewrite Hblocks. simpl. unfold at_index.
    rewrite Hblocks, Hindex. simpl.
    rewrite !lookup_app_r by (rewrite length_rev; lia).
    rewrite !length_rev, Hlength, Nat.sub_diag. simpl.
    rewrite bool_decide_eq_true_2 by done.
    by destruct (_findNextLabel (length blocksStack) st).
Qed.


(** X16.  For a well-formed program, visiting a block of a module, with
    fuel for the gotos not lowered yet, returns with the four stacks as it
    found them; nothing lowered is forgotten, and the automaton gains at most
    as many states as the block has blocks, beyond those of the modules
    lowered on the way. *)
Theorem visit_keeps_the_stacks program f module block st :
  wellFormed program = true →
  module ∈ modules program → block ∈ blocks module →
  visiting program st → pending program st ≤ f →
  ∃ st',
    visit program (visitModule program f) block st = Ok st' ∧
    sameStacks st st' ∧ grows st st' ∧
    stateBound program (blockCount block) st st'.
Proof.
  intros Hwf Hmodule Hblock Hv Hpending.
  destruct (ConversionFacts.wellFormed_parts program Hwf)
    as (_ & _ & Hstarts & Hgotos).
  destruct (ConversionFacts.visit_total program Hgotos
              (visitModule program f) f
              (ConversionFacts.visitModule_oracle program Hwf f) block)
    with (st := st) as (st' & Hvisit & Hstacks & Hgrows & Hbound);
    try done.
  - by eapply Hstarts.
  - intros goto. by apply ConversionFacts.module_gotos with module.
  - by exists st'.
Qed.

Lemma visit_keeps_the_stacks_witness :
  ∃ st',
    visit Samples.moduleWithIfBlock (visitModule Samples.moduleWithIfBlock 0)
      (SwitchBlock
         [IfCase ["a"] [Samples.basic None (Some LEFT) None];
          WhileCase ["b"] (Samples.core None (Some RIGHT));
          IfCase [""]
            [Samples.basic None (Some RIGHT) None;
             Samples.basic (Some "b") (Some LEFT)
               (Some (GoToContext "simple" []))]])
      Samples.atSwitchBlock = Ok st' ∧
    sameStacks Samples.atSwitchBlock st'.
Proof.
  destruct (visit_keeps_the_stacks Samples.moduleWithIfBlock 0
              (Samples.mainOf Samples.moduleWithIfBlock)
              (SwitchBlock
                 [IfCase ["a"] [Samples.basic None (Some LEFT) None];
                  WhileCase ["b"] (Samples.core None (Some RIGHT));
                  IfCase [""]
                    [Samples.basic None (Some RIGHT) None;
                     Samples.basic (Some "b") (Some LEFT)
                       (Some (GoToContext "simple" []))]])
              Samples.atSwitchBlock)
    as (st' & Hvisit & Hstacks & _).
  - reflexivity.
  - apply list_elem_of_here.
  - apply list_elem_of_here.
  - apply ConversionFacts.atSwitchBlock_visiting.
  - reflexivity.
  - by exists st'.
Defined.

End ConverterLaws.

(** ** From the validator to the interpreter *)
Module PipelineFacts.
Import CodeExecutor ConverterSpec ValidatorSpec.

Lemma find_identifier modules module :
  NoDup (identifier <$> modules) → module ∈ modules →
  find (λ candidate, String.eqb (identifier candidate) (identifier module))
    modules = Some module.
Proof.
  induction modules as [|first rest IH]; intros Hnodup Hin; simpl.
  - by apply elem_of_nil in Hin.
  - apply NoDup_cons in Hnodup as [Hnotin Hnodup].
    apply elem_of_cons in Hin as [->|Hin].
    + by rewrite String.eqb_refl.
    + destruct (String.eqb_spec (identifier first) (identifier module))
        as [Heq|Hne]; [|by apply IH].
      exfalso. apply Hnotin. rewrite Heq. by apply list_elem_of_fmap_2.
Qed.

(** X12.  The validator and the interpreter fit: when the executor of a
    validated program takes a goto of the program, [_findNextBlock] finds the
    module, which has as many parameters as the goto has arguments, and
    pushes its blocks as a module frame together with the argument map. *)
Theorem validated_goto_finds_its_module program block identifier args e :
  CodeValidatorElse.validate program = Ok () →
  (identifier, args) ∈ programGotos program →
  flowCommand block = Some (GoToContext identifier args) →
  _program e = program →
  ∃ module,
    module ∈ modules program ∧ Contexts.identifier module = identifier ∧
    length (params module) = length args ∧
    _findNextBlock block e
    = Ok (_generateAndPushArgumentMap (params module) args
            (_pushBlocks (blocks module) true e)).
Proof.
  intros Hvalid Hgoto Hflow Hprogram.
  apply ValidatorSoundness.validate_resolves in Hvalid as [Hnodup Hgotos].
  destruct (Hgotos _ Hgoto) as (module & Hmodule & Hid & Hlength).
  simpl in *. exists module. split_and!; try done.
  unfold _findNextBlock. rewrite Hflow, Hprogram, <- Hid.
  by rewrite find_identifier.
Qed.

Lemma validated_goto_finds_its_module_witness :
  ∃ module,
    module ∈ modules Samples.gotoWithArgument ∧
    identifier module = "b" ∧ length (params module) = length ["a"] ∧
    _findNextBlock
      {| changeToCommand := None; moveCommand := None;
         flowCommand := Some (GoToContext "b" ["a"]) |}
      (Samples.freshExecutor "a" Samples.gotoWithArgument)
    = Ok (_generateAndPushArgumentMap (params module) ["a"]
            (_pushBlocks (blocks module) true
               (Samples.freshExecutor "a" Samples.gotoWithArgument))).
Proof.
  apply (validated_goto_finds_its_module Samples.gotoWithArgument).
  - reflexivity.
  - apply list_elem_of_here.
  - reflexivity.
  - reflexivity.
Defined.

End PipelineFacts.

(** ** The parser's value lists *)
Module ValueParserFacts.
Import Messages CodeParser ValueParser.

Lemma parseValue_Ok includesBlank current value :
  parseValue includesBlank current = Ok value →
  letterValue includesBlank value.
Proof.
  unfold parseValue.
  destruct (includesBlank && String.eqb current "blank") eqn:Hblank.
  - intros [= <-]. left. by apply andb_prop in Hblank as [-> _].
  - destruct current as [|c [|c' rest]]; try done.
    destruct (inClass c) eqn:Hclass; [|done].
    intros [= <-]. right. by exists c.
Qed.

Lemma _parseValues_loop_Ok fuel finishedValue includesBlank :
  ∀ values noComma p values' p',
    _parseValues_loop fuel finishedValue includesBlank values noComma p
    = Ok (values', p') →
    CodeWrapper.currentValue (_wrapper p') = Ok finishedValue ∧
    ∃ parsed, values' = values ++ parsed ∧
              Forall (letterValue includesBlank) parsed.
Proof.
  induction fuel as [|fuel IH]; intros values noComma p values' p'; simpl;
    [done|].
  destruct (CodeWrapper.currentValue (_wrapper p)) as [current|msg|]
    eqn:Hcurrent; simpl; try done.
  destruct (String.eqb_spec current finishedValue) as [->|Hne].
  - intros [= <- <-]. split; [done|]. exists []. by rewrite app_nil_r.
  - destruct noComma; [done|].
    destruct (parseValue includesBlank current) as [value|msg|] eqn:Hvalue;
      simpl; try done.
    apply parseValue_Ok in Hvalue.
    destruct (_moveNext fuel false false true p) as [p1|msg|]; simpl;
      try done.
    destruct (CodeWrapper.currentValue (_wrapper p1)) as [next|msg|]; simpl;
      try done.
    assert (∀ noComma p2,
              _parseValues_loop fuel finishedValue includesBlank
                (values ++ [value]) noComma p2 = Ok (values', p') →
              CodeWrapper.currentValue (_wrapper p') = Ok finishedValue ∧
              ∃ parsed, values' = values ++ parsed ∧
                        Forall (letterValue includesBlank) parsed) as Hrest.
    { intros noComma p2 Hloop.
      apply IH in Hloop as (Hfinished & parsed & -> & Hparsed).
      split; [done|]. exists (value :: parsed).
      split; [by rewrite <- app_assoc|by constructor]. }
    destruct (String.eqb next ",").
    + destruct (_moveNext fuel false false true p1) as [p2|msg|]; simpl;
        try done.
      apply Hrest.
    + apply Hrest.
Qed.

Lemma _parseValues_Ok fuel finishedValue includesBlank p values p' :
  _parseValues fuel finishedValue includesBlank p = Ok (values, p') →
  CodeWrapper.currentValue (_wrapper p') = Ok finishedValue ∧
  Forall (letterValue includesBlank) values.
Proof.
  intros Hparse. apply _parseValues_loop_Ok in Hparse
    as (Hfinished & parsed & -> & Hparsed).
  by split.
Qed.

Lemma letterValue_without_blank values :
  Forall (letterValue false) values →
  Forall (λ value, ∃ c, value = String c EmptyString ∧ inClass c = true)
    values.
Proof.
  intros Hletters. eapply Forall_impl; [exact Hletters|].
  by intros value [[? _]|?].
Qed.

(** X17.  When [_parseValues] returns, the parser stands on the finishing
    value, and every value of the list is a string of length 1 whose
    character is in the class [[a-z|0-9]] (lowercase letters, digits and the
    bar), or blank where blank is allowed; where it is not, no value is
    blank. *)
Theorem _parseValues_letters fuel finishedValue includesBlank p values p' :
  _parseValues fuel finishedValue includesBlank p = Ok (values, p') →
  CodeWrapper.currentValue (_wrapper p') = Ok finishedValue ∧
  Forall (letterValue includesBlank) values ∧
  (includesBlank = false →
   Forall (λ value, ∃ c, value = String c EmptyString ∧ inClass c = true)
     values).
Proof.
  intros Hparse. apply _parseValues_Ok in Hparse as [Hfinished Hletters].
  split_and!; [done|done|]. intros ->.
  by apply letterValue_without_blank.
Qed.

Lemma _parseValues_letters_witness :
  _parseValues 5 "]" false (Samples.standingOn "a" [","; "|"; "]"])
  = Ok (["a"; "|"], Samples.standingOn "]" []) ∧
  Forall (letterValue false) ["a"; "|"].
Proof.
  assert (_parseValues 5 "]" false (Samples.standingOn "a" [","; "|"; "]"])
          = Ok (["a"; "|"], Samples.standingOn "]" [])) as Hparse
    by (vm_compute; reflexivity).
  split; [exact Hparse|].
  by destruct (_parseValues_letters _ _ _ _ _ _ Hparse) as (_ & Hletters & _).
Defined.

(** X18.  [_parseAlphabet] returns only from a parser that stands on
    [alphabet], leaves it on the closing bracket and yields single
    characters of the class, never blank; on any other value it throws the
    error that names the value found and the value expected.  [_parseGoTo]
    leaves the parser on the closing parenthesis, and the arguments of its
    goto are single characters of the class. *)
Theorem _parseAlphabet_and_parseGoTo fuel p :
  (∀ values p',
     _parseAlphabet fuel p = Ok (values, p') →
     CodeWrapper.currentValue (_wrapper p) = Ok "alphabet" ∧
     CodeWrapper.currentValue (_wrapper p') = Ok "]" ∧
     Forall (λ value, ∃ c, value = String c EmptyString ∧ inClass c = true)
       values) ∧
  (∀ current,
     CodeWrapper.currentValue (_wrapper p) = Ok current →
     current ≠ "alphabet" →
     _parseAlphabet fuel p = Throw (expectedValue current "alphabet")) ∧
  (∀ flow p',
     _parseGoTo fuel p = Ok (flow, p') →
     CodeWrapper.currentValue (_wrapper p') = Ok ")" ∧
     ∃ identifier args,
       flow = GoToContext identifier args ∧
       Forall (λ value, ∃ c, value = String c EmptyString ∧ inClass c = true)
         args).
Proof.
  split_and!.
  - intros values p'. unfold _parseAlphabet, _matchValue.
    destruct (CodeWrapper.currentValue (_wrapper p)) as [current|msg|];
      simpl; try done.
    destruct (String.eqb_spec current "alphabet") as [->|Hne]; simpl;
      [|done].
    destruct (_moveNext fuel false false true p) as [p1|msg|]; simpl;
      try done.
    destruct (CodeWrapper.currentValue (_wrapper p1)) as [equals|msg|];
      simpl; try done.
    destruct (String.eqb equals "="); simpl; [|done].
    destruct (_moveNext fuel false false true p1) as [p2|msg|]; simpl;
      try done.
    destruct (CodeWrapper.currentValue (_wrapper p2)) as [bracket|msg|];
      simpl; try done.
    destruct (String.eqb bracket "["); simpl; [|done].
    destruct (_moveNext fuel false false true p2) as [p3|msg|]; simpl;
      try done.
    intros Hvalues. apply _parseValues_Ok in Hvalues as [Hfinished Hletters].
    split_and!; [done|done|by apply letterValue_without_blank].
  - intros current Hcurrent Hne. unfold _parseAlphabet, _matchValue.
    rewrite Hcurrent. simpl.
    by destruct (String.eqb_spec current "alphabet").
  - intros flow p'. unfold _parseGoTo, _matchValue.
    destruct (_moveNext fuel false false true p) as [p1|msg|]; simpl;
      try done.
    destruct (CodeWrapper.currentValue (_wrapper p1)) as [identifier|msg|];
      simpl; try done.
    destruct (_moveNext fuel false false true p1) as [p2|msg|]; simpl;
      try done.
    destruct (CodeWrapper.currentValue (_wrapper p2)) as [paren|msg|];
      simpl; try done.
    destruct (String.eqb paren "("); simpl; [|done].
    destruct (_moveNext fuel false false true p2) as [p3|msg|]; simpl;
      try done.
    destruct (_parseValues fuel ")" false p3) as [[args p4]|msg|] eqn:Hargs;
      simpl; try done.
    intros [= <- <-].
    apply _parseValues_Ok in Hargs as [Hfinished Hletters].
    split; [done|]. exists identifier, args.
    split; [done|by apply letterValue_without_blank].
Qed.

Lemma _parseAlphabet_and_parseGoTo_witness :
  _parseAlphabet 5 (Samples.standingOn "alphabet" ["="; "["; "a"; ","; "|"; "]"])
  = Ok (["a"; "|"], Samples.standingOn "]" []) ∧
  _parseAlphabet 5 (Samples.standingOn "alphabets" ["="; "["; "a"; "]"])
  = Throw (expectedValue "alphabets" "alphabet").
Proof.
  split; [vm_compute; reflexivity|].
  destruct (_parseAlphabet_and_parseGoTo 5
              (Samples.standingOn "alphabets" ["="; "["; "a"; "]"]))
    as (_ & Hthrow & _).
  by apply Hthrow.
Defined.

End ValueParserFacts.
